(** * Adaptive CPU scheduling in multicore systems: a shallow embedding

    The Python sources (core/process.py, core/cpu.py, core/metrics.py,
    the policies under algorithms/, scheduler_simulator.py) are embedded as
    Rocq functions.

    Conventions of the embedding.
    - A Python [float] holding a time or a load is an exact rational [Q];
      rounding is not modelled.  The only non-finite float of the sources,
      [float('inf')] (the quantum of run-to-completion policies and the
      initial minimum of a step), is the constructor [Infinity] of [Time].
    - The standard deviation of core/metrics.py needs a square root: the
      load-balance score is a real number [R].
    - A Python [int] is a [Z].
    - Process objects are shared and mutated in place: they live in a heap
      ([Heap], a total map from references to objects) and every list of
      processes of the sources is a list of references.
    - Exceptions are values of [exn]; code that may raise returns a
      [result].
    - The loop of [run_simulation] is run with fuel; running out of fuel
      is an outcome of its own ([Sim.Diverges]).
    - Not modelled: console output, plotting, the random workload
      generator [generate_processes] (processes are given by the caller),
      the formatted algorithm names, and the fields of [BaseScheduler] that
      no policy reads when selecting. *)

From Stdlib Require Import ZArith QArith Qminmax Qreals Reals Lra Lqa Lia List Bool String Sorted.
From stdpp Require Import base option list gmap.
Import ListNotations.

Set Default Proof Using "Type".

(* ================================================================== *)
(** * Part I: the program *)
(* ================================================================== *)

(** ** Python built-ins used by the sources *)

Definition Qltb (a b : Q) : bool := negb (Qle_bool b a).

(** [min(a, b)] returns its first argument unless the second is smaller. *)
Definition py_min (a b : Q) : Q := if Qltb b a then b else a.

(** [max(a, b)] returns its first argument unless the second is larger. *)
Definition py_max (a b : Q) : Q := if Qltb a b then b else a.

(** A float that may be [float('inf')]. *)
Inductive Time : Type :=
| Finite (q : Q)
| Infinity.

(** [min(t, r)] for a possibly infinite [t] and a finite [r]. *)
Definition min_time (t : Time) (r : Q) : Q :=
  match t with
  | Infinity => r
  | Finite q => py_min q r
  end.

Inductive exn : Type :=
| ValueError (msg : string)
| KeyError (key : Z)
| ZeroDivisionError
| AttributeError.

Inductive result (A : Type) : Type :=
| Ok (a : A)
| Raise (e : exn).
Arguments Ok {A} a.
Arguments Raise {A} e.

#[global] Instance result_ret : MRet result := fun A a => Ok a.

#[global] Instance result_bind : MBind result := fun A B k m =>
  match m with
  | Ok a => k a
  | Raise e => Raise e
  end.

(** References to process objects, and the heap they live in. *)
Definition ref : Type := nat.

(** [x in l] and [l.remove(x)] on lists of references (identity
    comparison: [Process] defines no [__eq__]). *)
Definition py_in (r : ref) (l : list ref) : bool := existsb (Nat.eqb r) l.

Fixpoint py_remove (r : ref) (l : list ref) : list ref :=
  match l with
  | [] => []
  | x :: l' => if Nat.eqb r x then l' else x :: py_remove r l'
  end.

(** [list.sort(key=...)]: a stable sort, here by insertion.  [leb] is the
    order on keys; an element is inserted before the first one whose key is
    not smaller, so equal keys keep their order. *)
Section Sorting.
Context {A K : Type} (leb : K -> K -> bool) (key : A -> K).

Fixpoint insert_by (x : A) (l : list A) : list A :=
  match l with
  | [] => [x]
  | y :: l' => if leb (key x) (key y) then x :: y :: l' else y :: insert_by x l'
  end.

Definition sort_by (l : list A) : list A := foldr insert_by [] l.

(** [min(l, key=...)]: the first element with the least key. *)
Fixpoint min_by_from (best : A) (l : list A) : A :=
  match l with
  | [] => best
  | y :: l' =>
      if leb (key best) (key y) then min_by_from best l' else min_by_from y l'
  end.
End Sorting.

(** Tuple keys compare lexicographically. *)
Definition le_Q (a b : Q) : bool := Qle_bool a b.

Definition le_QZ (a b : Q * Z) : bool :=
  Qltb (fst a) (fst b) || (Qeq_bool (fst a) (fst b) && Z.leb (snd a) (snd b)).

Definition le_QQ (a b : Q * Q) : bool :=
  Qltb (fst a) (fst b) || (Qeq_bool (fst a) (fst b) && Qle_bool (snd a) (snd b)).

Definition le_QQZ (a b : Q * Q * Z) : bool :=
  Qltb (fst (fst a)) (fst (fst b))
  || (Qeq_bool (fst (fst a)) (fst (fst b))
      && le_QZ (snd (fst a), snd a) (snd (fst b), snd b)).

(* ------------------------------------------------------------------ *)
(** ** core/process.py *)

Inductive ProcessState : Type := NEW | READY | RUNNING | WAITING | TERMINATED.

Inductive ProcessType : Type := CPU_BOUND | IO_BOUND | MIXED.

Definition ProcessState_eqb (a b : ProcessState) : bool :=
  match a, b with
  | NEW, NEW | READY, READY | RUNNING, RUNNING
  | WAITING, WAITING | TERMINATED, TERMINATED => true
  | _, _ => false
  end.

Definition ProcessType_eqb (a b : ProcessType) : bool :=
  match a, b with
  | CPU_BOUND, CPU_BOUND | IO_BOUND, IO_BOUND | MIXED, MIXED => true
  | _, _ => false
  end.

Record Process : Type := mkProcess {
  pid : Z;
  arrival_time : Q;
  burst_time : Q;
  priority : Z;
  remaining_time : Q;
  process_type : ProcessType;
  state : ProcessState;
  cpu_affinity : option Z;
  start_time : option Q;
  completion_time : option Q;
  last_executed_time : option Q;
  waiting_time : Q;
  turnaround_time : Q;
  response_time : Q;
  executed_on_core : option Z;
  context_switches : Z;
  time_quantum_used : Q
}.

(** [Process.__init__] *)
Definition new_process (pid : Z) (arrival burst : Q) (priority : Z)
    (ptype : ProcessType) (affinity : option Z) : Process :=
  mkProcess pid arrival burst priority burst ptype NEW affinity
    None None None 0 0 0 None 0 0.

(** Attribute assignments [self.x = v]. *)
Definition set_remaining_time (v : Q) (p : Process) : Process :=
  mkProcess (pid p) (arrival_time p) (burst_time p) (priority p) v
    (process_type p) (state p) (cpu_affinity p) (start_time p)
    (completion_time p) (last_executed_time p) (waiting_time p)
    (turnaround_time p) (response_time p) (executed_on_core p)
    (context_switches p) (time_quantum_used p).

Definition set_state (v : ProcessState) (p : Process) : Process :=
  mkProcess (pid p) (arrival_time p) (burst_time p) (priority p)
    (remaining_time p) (process_type p) v (cpu_affinity p) (start_time p)
    (completion_time p) (last_executed_time p) (waiting_time p)
    (turnaround_time p) (response_time p) (executed_on_core p)
    (context_switches p) (time_quantum_used p).

Definition set_start_time (v : option Q) (p : Process) : Process :=
  mkProcess (pid p) (arrival_time p) (burst_time p) (priority p)
    (remaining_time p) (process_type p) (state p) (cpu_affinity p) v
    (completion_time p) (last_executed_time p) (waiting_time p)
    (turnaround_time p) (response_time p) (executed_on_core p)
    (context_switches p) (time_quantum_used p).

Definition set_completion_time (v : option Q) (p : Process) : Process :=
  mkProcess (pid p) (arrival_time p) (burst_time p) (priority p)
    (remaining_time p) (process_type p) (state p) (cpu_affinity p)
    (start_time p) v (last_executed_time p) (waiting_time p)
    (turnaround_time p) (response_time p) (executed_on_core p)
    (context_switches p) (time_quantum_used p).

Definition set_last_executed_time (v : option Q) (p : Process) : Process :=
  mkProcess (pid p) (arrival_time p) (burst_time p) (priority p)
    (remaining_time p) (process_type p) (state p) (cpu_affinity p)
    (start_time p) (completion_time p) v (waiting_time p)
    (turnaround_time p) (response_time p) (executed_on_core p)
    (context_switches p) (time_quantum_used p).

Definition set_waiting_time (v : Q) (p : Process) : Process :=
  mkProcess (pid p) (arrival_time p) (burst_time p) (priority p)
    (remaining_time p) (process_type p) (state p) (cpu_affinity p)
    (start_time p) (completion_time p) (last_executed_time p) v
    (turnaround_time p) (response_time p) (executed_on_core p)
    (context_switches p) (time_quantum_used p).

Definition set_turnaround_time (v : Q) (p : Process) : Process :=
  mkProcess (pid p) (arrival_time p) (burst_time p) (priority p)
    (remaining_time p) (process_type p) (state p) (cpu_affinity p)
    (start_time p) (completion_time p) (last_executed_time p)
    (waiting_time p) v (response_time p) (executed_on_core p)
    (context_switches p) (time_quantum_used p).

Definition set_response_time (v : Q) (p : Process) : Process :=
  mkProcess (pid p) (arrival_time p) (burst_time p) (priority p)
    (remaining_time p) (process_type p) (state p) (cpu_affinity p)
    (start_time p) (completion_time p) (last_executed_time p)
    (waiting_time p) (turnaround_time p) v (executed_on_core p)
    (context_switches p) (time_quantum_used p).

Definition set_executed_on_core (v : option Z) (p : Process) : Process :=
  mkProcess (pid p) (arrival_time p) (burst_time p) (priority p)
    (remaining_time p) (process_type p) (state p) (cpu_affinity p)
    (start_time p) (completion_time p) (last_executed_time p)
    (waiting_time p) (turnaround_time p) (response_time p) v
    (context_switches p) (time_quantum_used p).

Definition set_context_switches (v : Z) (p : Process) : Process :=
  mkProcess (pid p) (arrival_time p) (burst_time p) (priority p)
    (remaining_time p) (process_type p) (state p) (cpu_affinity p)
    (start_time p) (completion_time p) (last_executed_time p)
    (waiting_time p) (turnaround_time p) (response_time p)
    (executed_on_core p) v (time_quantum_used p).

Definition set_time_quantum_used (v : Q) (p : Process) : Process :=
  mkProcess (pid p) (arrival_time p) (burst_time p) (priority p)
    (remaining_time p) (process_type p) (state p) (cpu_affinity p)
    (start_time p) (completion_time p) (last_executed_time p)
    (waiting_time p) (turnaround_time p) (response_time p)
    (executed_on_core p) (context_switches p) v.

(** [Process.execute(time_slice, current_time, core_id)]: the updated
    object and the returned [actual_time]. *)
Definition execute (p : Process) (time_slice : Time) (current_time : Q)
    (core : Z) : Process * Q :=
  (* first execution bookkeeping *)
  let p :=
    match state p with
    | NEW | READY =>
        let p :=
          match start_time p with
          | None =>
              let p := set_start_time (Some current_time) p in
              set_response_time (current_time - arrival_time p)%Q p
          | Some _ => p
          end in
        set_state RUNNING p
    | _ => p
    end in
  (* track context switches *)
  let p :=
    match executed_on_core p with
    | Some c =>
        if negb (Z.eqb c core)
        then set_context_switches (context_switches p + 1)%Z p
        else p
    | None => p
    end in
  let p := set_executed_on_core (Some core) p in
  (* actual execution time *)
  let actual_time := min_time time_slice (remaining_time p) in
  let p := set_remaining_time (remaining_time p - actual_time)%Q p in
  let p := set_time_quantum_used (time_quantum_used p + actual_time)%Q p in
  let p := set_last_executed_time (Some (current_time + actual_time)%Q) p in
  (* update state *)
  let p :=
    if Qle_bool (remaining_time p) 0 then
      let p := set_state TERMINATED p in
      let p := set_completion_time (Some (current_time + actual_time)%Q) p in
      let p := set_turnaround_time (current_time + actual_time - arrival_time p)%Q p in
      set_waiting_time (turnaround_time p - burst_time p)%Q p
    else set_state READY p in
  (p, actual_time).

Definition is_completed (p : Process) : bool :=
  ProcessState_eqb (state p) TERMINATED.

Definition Heap : Type := ref -> Process.

Definition upd (h : Heap) (r : ref) (p : Process) : Heap :=
  fun r' => if Nat.eqb r' r then p else h r'.

(** The test [remaining_time <= 0] that closes [execute], as a function of
    the process before the call. *)
Definition finishes (p : Process) (ts : Time) : bool :=
  Qle_bool (remaining_time p - min_time ts (remaining_time p))%Q 0.

(** A finished process, for the examples: pid 1, arrival 0, burst 3,
    completed at time 3. *)
Definition finished_process : Process :=
  mkProcess 1 0 3 0 0 MIXED TERMINATED None
    (Some 0%Q) (Some 3%Q) (Some 3%Q) 0 3 0 (Some 0%Z) 0 3.

(* ------------------------------------------------------------------ *)
(** ** core/cpu.py *)

Module CPU.

Record CPUCore : Type := mkCore {
  core_id : Z;
  current_process : option ref;
  total_busy_time : Q;
  total_idle_time : Q;
  processes_executed : Z;
  last_update_time : Q;
  is_busy : bool;
  load_history : list Q;
  current_load : Q
}.

(** [CPUCore.__init__] *)
Definition new_core (i : Z) : CPUCore :=
  mkCore i None 0 0 0 0 false [] 0.

Definition _update_metrics (c : CPUCore) (current_time : Q) : CPUCore :=
  let elapsed := (current_time - last_update_time c)%Q in
  if is_busy c then
    mkCore (core_id c) (current_process c) (total_busy_time c + elapsed)%Q
      (total_idle_time c) (processes_executed c) current_time (is_busy c)
      (load_history c) (current_load c)
  else
    mkCore (core_id c) (current_process c) (total_busy_time c)
      (total_idle_time c + elapsed)%Q (processes_executed c) current_time
      (is_busy c) (load_history c) (current_load c).

Definition _update_idle_time (c : CPUCore) (current_time : Q) : CPUCore :=
  let elapsed := (current_time - last_update_time c)%Q in
  mkCore (core_id c) (current_process c) (total_busy_time c)
    (total_idle_time c + elapsed)%Q (processes_executed c) current_time
    (is_busy c) (load_history c) (current_load c).

Definition assign_process (c : CPUCore) (h : Heap) (process : ref)
    (current_time : Q) : CPUCore :=
  let c :=
    match current_process c with
    | Some r =>
        if negb (is_completed (h r)) then _update_metrics c current_time
        else c
    | None => c
    end in
  mkCore (core_id c) (Some process) (total_busy_time c) (total_idle_time c)
    (processes_executed c + 1)%Z current_time true (load_history c)
    (current_load c).

(** Returns the core, the heap with the executed process updated, and
    the actual time ([None] if no process is running). *)
Definition execute_current_process (c : CPUCore) (h : Heap)
    (time_slice : Time) (current_time : Q) : CPUCore * Heap * option Q :=
  match current_process c with
  | None => (_update_idle_time c current_time, h, None)
  | Some r =>
      let '(p', actual_time) :=
        execute (h r) time_slice current_time (core_id c) in
      let h' := upd h r p' in
      let load := if negb (is_completed p') then remaining_time p' else 0%Q in
      let c :=
        mkCore (core_id c) (current_process c)
          (total_busy_time c + actual_time)%Q (total_idle_time c)
          (processes_executed c) (current_time + actual_time)%Q (is_busy c)
          (load_history c ++ [load]) load in
      let c :=
        if is_completed p' then
          mkCore (core_id c) None (total_busy_time c) (total_idle_time c)
            (processes_executed c) (last_update_time c) false
            (load_history c) (current_load c)
        else c in
      (c, h', Some actual_time)
  end.

Definition preempt_current_process (c : CPUCore) (current_time : Q)
    : CPUCore * option ref :=
  match current_process c with
  | None => (c, None)
  | Some r =>
      let c := _update_metrics c current_time in
      (mkCore (core_id c) None (total_busy_time c) (total_idle_time c)
         (processes_executed c) (last_update_time c) false (load_history c)
         0%Q,
       Some r)
  end.

Definition get_current_process (c : CPUCore) : option ref :=
  current_process c.

Definition is_idle (c : CPUCore) : bool :=
  negb (is_busy c) || match current_process c with None => true | Some _ => false end.

Definition get_utilization (c : CPUCore) (total_time : Q) : Q :=
  if Qeq_bool total_time 0 then 0%Q
  else (total_busy_time c / total_time * 100)%Q.

Definition get_load (c : CPUCore) : Q := current_load c.

Definition reset (c : CPUCore) : CPUCore :=
  mkCore (core_id c) None 0 0 0 0 false [] 0.

End CPU.

(* ------------------------------------------------------------------ *)
(** ** The policies under algorithms/

    Every policy is a module with the state of the Python object as its
    type [t] and the methods the engine calls.  [select_process] receives
    the ready queue (a Python list it may sort in place) and returns the
    queue as the call leaves it together with the selection.  The fields
    [ready_queue] and [total_context_switches] of [BaseScheduler] are only
    touched by [add_process], [remove_process] and [reset]; no policy reads
    them when selecting and the engine never calls the first two, so they
    are left out. *)

Module FCFS.

Definition select_process (h : Heap) (core : CPU.CPUCore)
    (ready_queue : list ref) (current_time : Q)
    : list ref * option ref :=
  match ready_queue with
  | [] => (ready_queue, None)
  | _ =>
      let q := sort_by le_QZ
                 (fun r => (arrival_time (h r), pid (h r))) ready_queue in
      (q, head q)
  end.

Definition is_preemptive : bool := false.

Definition get_time_quantum : Time := Infinity.

End FCFS.

Module SJF.

Record t : Type := mk { _preemptive : bool }.

Definition select_process (s : t) (h : Heap) (core : CPU.CPUCore)
    (ready_queue : list ref) (current_time : Q)
    : list ref * option ref :=
  match ready_queue with
  | [] => (ready_queue, None)
  | _ =>
      let q := sort_by le_QQZ
                 (fun r => (remaining_time (h r), arrival_time (h r),
                            pid (h r))) ready_queue in
      (q, head q)
  end.

Definition is_preemptive (s : t) : bool := _preemptive s.

Definition should_preempt (s : t) (h : Heap) (current_process : ref)
    (ready_queue : list ref) (current_time : Q) : bool :=
  match ready_queue with
  | [] => false
  | r0 :: rest =>
      if negb (_preemptive s) then false
      else
        let shortest_job :=
          min_by_from le_Q (fun r => remaining_time (h r)) r0 rest in
        Qltb (remaining_time (h shortest_job))
             (remaining_time (h current_process))
  end.

Definition get_time_quantum (s : t) : Time :=
  if _preemptive s then Finite 1 else Infinity.

End SJF.

Module RoundRobin.

Record t : Type := mk {
  _time_quantum : Time;
  rr_queue : list ref;
  process_quantum_remaining : gmap Z Time
}.

(** [RoundRobinScheduler.__init__] *)
Definition init (time_quantum : Time) : t := mk time_quantum [] ∅.

(** The loop [for process in ready_queue: if process not in self.rr_queue]. *)
Fixpoint enqueue_new (s : t) (h : Heap) (ready_queue : list ref) : t :=
  match ready_queue with
  | [] => s
  | process :: rest =>
      let s :=
        if negb (py_in process (rr_queue s)) then
          mk (_time_quantum s) (rr_queue s ++ [process])
             (<[pid (h process) := _time_quantum s]>
                (process_quantum_remaining s))
        else s in
      enqueue_new s h rest
  end.

Definition select_process (s : t) (h : Heap) (core : CPU.CPUCore)
    (ready_queue : list ref) (current_time : Q)
    : t * list ref * option ref :=
  let s := enqueue_new s h ready_queue in
  (s, ready_queue, head (rr_queue s)).

Definition on_process_completion (s : t) (h : Heap) (process : ref)
    (current_time : Q) : t :=
  let q := if py_in process (rr_queue s) then py_remove process (rr_queue s)
           else rr_queue s in
  mk (_time_quantum s) q
     (delete (pid (h process)) (process_quantum_remaining s)).

Definition rotate_queue (s : t) (h : Heap) (process : ref) : t :=
  if py_in process (rr_queue s) then
    let q := py_remove process (rr_queue s) in
    if negb (is_completed (h process)) then
      mk (_time_quantum s) (q ++ [process])
         (<[pid (h process) := _time_quantum s]>
            (process_quantum_remaining s))
    else mk (_time_quantum s) q (process_quantum_remaining s)
  else s.

Definition is_preemptive (s : t) : bool := true.

Definition get_time_quantum (s : t) : Time := _time_quantum s.

Definition reset (s : t) : t := mk (_time_quantum s) [] ∅.

End RoundRobin.

Module Priority.

Record t : Type := mk {
  _preemptive : bool;
  _aging : bool;
  aging_factor : Q;
  process_wait_times : gmap Z Q
}.

(** [PriorityScheduler.__init__] *)
Definition init (preemptive aging : bool) : t :=
  mk preemptive aging (1 # 10) ∅.

Definition set_wait_times (w : gmap Z Q) (s : t) : t :=
  mk (_preemptive s) (_aging s) (aging_factor s) w.

(** Records the arrival time as wait start for an unknown pid, then
    computes [max(0, priority - wait_time * aging_factor)]. *)
Definition _get_effective_priority (s : t) (h : Heap) (process : ref)
    (current_time : Q) : t * Q :=
  if negb (_aging s) then (s, inject_Z (priority (h process)))
  else
    let s :=
      match process_wait_times s !! pid (h process) with
      | None =>
          set_wait_times
            (<[pid (h process) := arrival_time (h process)]>
               (process_wait_times s)) s
      | Some _ => s
      end in
    let since := default 0%Q (process_wait_times s !! pid (h process)) in
    let wait_time := (current_time - since)%Q in
    let effective_priority :=
      (inject_Z (priority (h process)) - wait_time * aging_factor s)%Q in
    (s, py_max 0 effective_priority).

Fixpoint _apply_aging (s : t) (h : Heap) (ready_queue : list ref)
    (current_time : Q) : t :=
  match ready_queue with
  | [] => s
  | process :: rest =>
      let s :=
        match process_wait_times s !! pid (h process) with
        | None =>
            set_wait_times
              (<[pid (h process) := current_time]> (process_wait_times s)) s
        | Some _ => s
        end in
      _apply_aging s h rest current_time
  end.

(** The keys of a sort or a [min] are computed once per element, in list
    order; computing one may record a wait start. *)
Fixpoint effective_priorities (s : t) (h : Heap) (l : list ref)
    (current_time : Q) : t * list (Q * ref) :=
  match l with
  | [] => (s, [])
  | r :: rest =>
      let '(s, e) := _get_effective_priority s h r current_time in
      let '(s, es) := effective_priorities s h rest current_time in
      (s, (e, r) :: es)
  end.

Definition select_process (s : t) (h : Heap) (core : CPU.CPUCore)
    (ready_queue : list ref) (current_time : Q)
    : t * list ref * option ref :=
  match ready_queue with
  | [] => (s, ready_queue, None)
  | _ =>
      let s := if _aging s then _apply_aging s h ready_queue current_time
               else s in
      let '(s, keyed) := effective_priorities s h ready_queue current_time in
      let q := map snd
                 (sort_by le_QQZ
                    (fun er : Q * ref =>
                       (fst er, arrival_time (h (snd er)), pid (h (snd er))))
                    keyed) in
      (s, q, head q)
  end.

Definition on_process_arrival (s : t) (h : Heap) (process : ref)
    (current_time : Q) : t :=
  set_wait_times (<[pid (h process) := current_time]> (process_wait_times s)) s.

Definition on_process_completion (s : t) (h : Heap) (process : ref)
    (current_time : Q) : t :=
  set_wait_times (delete (pid (h process)) (process_wait_times s)) s.

Definition is_preemptive (s : t) : bool := _preemptive s.

Definition should_preempt (s : t) (h : Heap) (current_process : ref)
    (ready_queue : list ref) (current_time : Q) : t * bool :=
  match ready_queue with
  | [] => (s, false)
  | _ =>
      if negb (_preemptive s) then (s, false)
      else
        let '(s, current_priority) :=
          _get_effective_priority s h current_process current_time in
        let '(s, keyed) :=
          effective_priorities s h ready_queue current_time in
        match keyed with
        | [] => (s, false)
        | k0 :: rest =>
            let highest_priority_process :=
              snd (min_by_from le_Q (fun er : Q * ref => fst er) k0 rest) in
            let '(s, highest_priority) :=
              _get_effective_priority s h highest_priority_process
                current_time in
            (s, Qltb highest_priority current_priority)
        end
  end.

Definition get_time_quantum (s : t) : Time :=
  if _preemptive s then Finite 1 else Infinity.

Definition reset (s : t) : t := set_wait_times ∅ s.

End Priority.

Module LoadBalancing.

Record t : Type := mk {
  rebalance_threshold : Q;
  core_loads : gmap Z Q;
  process_assignments : gmap Z Z
}.

(** [LoadBalancingScheduler.__init__] *)
Definition init (rebalance_threshold : Q) : t := mk rebalance_threshold ∅ ∅.

(** [self.core_loads.get(c, 0)] *)
Definition load_of (s : t) (c : Z) : Q := default 0%Q (core_loads s !! c).

Definition by_remaining_then_arrival (h : Heap) (l : list ref) : list ref :=
  sort_by le_QQ (fun r => (remaining_time (h r), arrival_time (h r))) l.

(** The candidates of [_try_rebalance], in ready-queue order. *)
Fixpoint rebalance_candidates (s : t) (h : Heap) (requesting_core_load : Q)
    (ready_queue : list ref) : list (ref * Q) :=
  match ready_queue with
  | [] => []
  | process :: rest =>
      let tail := rebalance_candidates s h requesting_core_load rest in
      match process_assignments s !! pid (h process) with
      | None => tail
      | Some assigned_core =>
          let assigned_core_load := load_of s assigned_core in
          let load_difference :=
            (assigned_core_load - requesting_core_load)%Q in
          if Qltb (rebalance_threshold s * assigned_core_load)%Q
                  load_difference
          then (process, load_difference) :: tail
          else tail
      end
  end.

Definition _try_rebalance (s : t) (h : Heap) (requesting_core : CPU.CPUCore)
    (ready_queue : list ref) (current_time : Q)
    : result (t * option ref) :=
  let requesting_core_load := CPU.get_load requesting_core in
  let candidates :=
    rebalance_candidates s h requesting_core_load ready_queue in
  (* sort(key=load_difference, reverse=True) *)
  match sort_by (fun a b : Q => Qle_bool b a)
                (fun c : ref * Q => snd c) candidates with
  | [] => Ok (s, None)
  | (stolen_process, _) :: _ =>
      match process_assignments s !! pid (h stolen_process) with
      | None => Raise (KeyError (pid (h stolen_process)))
      | Some old_core =>
          let assignments :=
            <[pid (h stolen_process) := CPU.core_id requesting_core]>
              (process_assignments s) in
          let loads :=
            <[old_core :=
                py_max 0 (load_of s old_core
                          - remaining_time (h stolen_process))%Q]>
              (core_loads s) in
          let s := mk (rebalance_threshold s) loads assignments in
          let loads :=
            <[CPU.core_id requesting_core :=
                (load_of s (CPU.core_id requesting_core)
                 + remaining_time (h stolen_process))%Q]>
              (core_loads s) in
          Ok (mk (rebalance_threshold s) loads assignments,
              Some stolen_process)
      end
  end.

Definition select_process (s : t) (h : Heap) (core : CPU.CPUCore)
    (ready_queue : list ref) (current_time : Q)
    : result (t * list ref * option ref) :=
  match ready_queue with
  | [] => Ok (s, ready_queue, None)
  | _ =>
      let assigned_processes :=
        filter (fun r =>
                  process_assignments s !! pid (h r) = Some (CPU.core_id core))
               ready_queue in
      match by_remaining_then_arrival h assigned_processes with
      | first :: _ => Ok (s, ready_queue, Some first)
      | [] =>
          let unassigned_processes :=
            filter (fun r => process_assignments s !! pid (h r) = None)
                   ready_queue in
          match by_remaining_then_arrival h unassigned_processes with
          | selected :: _ =>
              let assignments :=
                <[pid (h selected) := CPU.core_id core]>
                  (process_assignments s) in
              let loads :=
                <[CPU.core_id core :=
                    (load_of s (CPU.core_id core)
                     + remaining_time (h selected))%Q]> (core_loads s) in
              Ok (mk (rebalance_threshold s) loads assignments,
                  ready_queue, Some selected)
          | [] =>
              '(s, stolen) ← _try_rebalance s h core ready_queue current_time;
              Ok (s, ready_queue, stolen)
          end
      end
  end.

Definition on_process_completion (s : t) (h : Heap) (process : ref)
    (current_time : Q) : t :=
  match process_assignments s !! pid (h process) with
  | Some assigned_core =>
      mk (rebalance_threshold s)
         (<[assigned_core :=
              py_max 0 (load_of s assigned_core - burst_time (h process))%Q]>
            (core_loads s))
         (delete (pid (h process)) (process_assignments s))
  | None => s
  end.

Definition is_preemptive (s : t) : bool := true.

Definition get_time_quantum (s : t) : Time := Finite 5.

Definition reset (s : t) : t := mk (rebalance_threshold s) ∅ ∅.

End LoadBalancing.

(** The random source of [random.shuffle]: a stream of draws and a cursor.
    [randbelow n] is the next draw reduced below [n]. *)
Record RNG : Type := mkRNG { draws : nat -> nat; cursor : nat }.

Definition randbelow (g : RNG) (n : nat) : nat * RNG :=
  ((draws g (cursor g) mod n)%nat, mkRNG (draws g) (S (cursor g))).

(** [x[i], x[j] = x[j], x[i]] *)
Definition swap (x : list Z) (i j : nat) : list Z :=
  match x !! i, x !! j with
  | Some a, Some b => <[j := a]> (<[i := b]> x)
  | _, _ => x
  end.

(** [random.shuffle]: for [i] from [len(x) - 1] down to 1, swap [x[i]] with
    a random earlier-or-equal position. *)
Fixpoint shuffle_from (i : nat) (x : list Z) (g : RNG) : list Z * RNG :=
  match i with
  | O => (x, g)
  | S i' =>
      let '(j, g) := randbelow g (S i) in
      shuffle_from i' (swap x i j) g
  end.

Definition shuffle (x : list Z) (g : RNG) : list Z * RNG :=
  shuffle_from (length x - 1) x g.

(** [range(n)] for a Python int [n]. *)
Definition range (n : Z) : list Z := map Z.of_nat (seq 0 (Z.to_nat n)).

Module WorkStealing.

(** [core_queues] is a dict created with the keys [0 .. num_cores - 1] in
    that order; the order matters for [min(self.core_queues.keys(), ...)]. *)
Record t : Type := mk {
  num_cores : Z;
  steal_attempts : nat;
  core_queues : list (Z * list ref);
  process_core_map : gmap Z Z;
  global_queue : list ref;
  random : RNG
}.

Definition empty_queues (num_cores : Z) : list (Z * list ref) :=
  map (fun i => (i, [])) (range num_cores).

(** [WorkStealingScheduler.__init__] *)
Definition init (num_cores : Z) (steal_attempts : nat) (g : RNG) : t :=
  mk num_cores steal_attempts (empty_queues num_cores) ∅ [] g.

(** [self.core_queues[c]] *)
Fixpoint queue_of (cq : list (Z * list ref)) (c : Z) : result (list ref) :=
  match cq with
  | [] => Raise (KeyError c)
  | (k, q) :: rest => if Z.eqb k c then Ok q else queue_of rest c
  end.

(** [self.core_queues[c] = q] for a key that is present. *)
Fixpoint set_queue (cq : list (Z * list ref)) (c : Z) (q : list ref)
    : list (Z * list ref) :=
  match cq with
  | [] => []
  | (k, q0) :: rest =>
      if Z.eqb k c then (k, q) :: rest else (k, q0) :: set_queue rest c q
  end.

(** The loop [while self.global_queue] of [_distribute_new_processes]. *)
Fixpoint drain_global (h : Heap) (global : list ref)
    (cq : list (Z * list ref)) (pcm : gmap Z Z)
    : result (list (Z * list ref) * gmap Z Z) :=
  match global with
  | [] => Ok (cq, pcm)
  | process :: rest =>
      match cq with
      | [] => Raise (ValueError "min() arg is an empty sequence")
      | k0 :: ks =>
          let min_queue_core :=
            fst (min_by_from Nat.leb
                   (fun kq : Z * list ref => length (snd kq)) k0 ks) in
          q ← queue_of cq min_queue_core;
          drain_global h rest
            (set_queue cq min_queue_core (q ++ [process]))
            (<[pid (h process) := min_queue_core]> pcm)
      end
  end.

Definition _distribute_new_processes (s : t) (h : Heap)
    (ready_queue : list ref) : result t :=
  let new_processes :=
    List.filter
      (fun p =>
         match process_core_map s !! pid (h p) with
         | None => negb (py_in p (global_queue s))
         | Some _ => false
         end) ready_queue in
  '(cq, pcm) ← drain_global h (global_queue s ++ new_processes)
                 (core_queues s) (process_core_map s);
  Ok (mk (num_cores s) (steal_attempts s) cq pcm [] (random s)).

(** The loop over [cores_to_check] of [_steal_work]. *)
Fixpoint find_victim (cq : list (Z * list ref)) (cores_to_check : list Z)
    (best_victim : option Z) (max_queue_size : nat) : result (option Z) :=
  match cores_to_check with
  | [] => Ok best_victim
  | victim_id :: rest =>
      q ← queue_of cq victim_id;
      if Nat.ltb max_queue_size (length q)
      then find_victim cq rest (Some victim_id) (length q)
      else find_victim cq rest best_victim max_queue_size
  end.

Definition _steal_work (s : t) (h : Heap) (thief_core_id : Z)
    (current_time : Q) : result (t * option ref) :=
  let potential_victims :=
    List.filter (fun i => negb (Z.eqb i thief_core_id)) (range (num_cores s)) in
  match potential_victims with
  | [] => Ok (s, None)
  | _ =>
      let '(shuffled, g) := shuffle potential_victims (random s) in
      let s := mk (num_cores s) (steal_attempts s) (core_queues s)
                  (process_core_map s) (global_queue s) g in
      let cores_to_check := firstn (steal_attempts s) shuffled in
      best_victim ← find_victim (core_queues s) cores_to_check None 0;
      match best_victim with
      | None => Ok (s, None)
      | Some victim =>
          q ← queue_of (core_queues s) victim;
          if Nat.leb 2 (length q) then
            match last q with
            | None => Ok (s, None)
            | Some stolen_process =>
                Ok (mk (num_cores s) (steal_attempts s)
                       (set_queue (core_queues s) victim (removelast q))
                       (<[pid (h stolen_process) := thief_core_id]>
                          (process_core_map s))
                       (global_queue s) (random s),
                    Some stolen_process)
            end
          else Ok (s, None)
      end
  end.

Definition select_process (s : t) (h : Heap) (core : CPU.CPUCore)
    (ready_queue : list ref) (current_time : Q)
    : result (t * list ref * option ref) :=
  let core_id := CPU.core_id core in
  s ← _distribute_new_processes s h ready_queue;
  q ← queue_of (core_queues s) core_id;
  match q with
  | process :: rest =>
      Ok (mk (num_cores s) (steal_attempts s)
             (set_queue (core_queues s) core_id rest)
             (process_core_map s) (global_queue s) (random s),
          ready_queue, Some process)
  | [] =>
      '(s, stolen_process) ← _steal_work s h core_id current_time;
      Ok (s, ready_queue, stolen_process)
  end.

Definition on_process_completion (s : t) (h : Heap) (process : ref)
    (current_time : Q) : t :=
  mk (num_cores s) (steal_attempts s)
     (map (fun kq : Z * list ref =>
             (fst kq,
              if py_in process (snd kq) then py_remove process (snd kq)
              else snd kq))
          (core_queues s))
     (delete (pid (h process)) (process_core_map s))
     (global_queue s) (random s).

Definition is_preemptive (s : t) : bool := false.

Definition get_time_quantum (s : t) : Time := Finite 10.

Definition reset (s : t) : t :=
  mk (num_cores s) (steal_attempts s) (empty_queues (num_cores s)) ∅ []
     (random s).

(** [get_queue_sizes]: the dict of queue lengths, in key order. *)
Definition get_queue_sizes (s : t) : list (Z * nat) :=
  map (fun kq : Z * list ref => (fst kq, length (snd kq))) (core_queues s).

End WorkStealing.

(** The six concrete policies behind the common interface of
    [BaseScheduler]; methods a class does not override are the base ones
    ([on_process_arrival] and [on_process_completion] do nothing,
    [should_preempt] is [False]). *)
Inductive Policy : Type :=
| FCFSScheduler
| SJFScheduler (s : SJF.t)
| RoundRobinScheduler (s : RoundRobin.t)
| PriorityScheduler (s : Priority.t)
| LoadBalancingScheduler (s : LoadBalancing.t)
| WorkStealingScheduler (s : WorkStealing.t).

Module Policy.

Definition select_process (p : Policy) (h : Heap) (core : CPU.CPUCore)
    (ready_queue : list ref) (current_time : Q)
    : result (Policy * list ref * option ref) :=
  match p with
  | FCFSScheduler =>
      let '(q, sel) := FCFS.select_process h core ready_queue current_time in
      Ok (FCFSScheduler, q, sel)
  | SJFScheduler s =>
      let '(q, sel) := SJF.select_process s h core ready_queue current_time in
      Ok (SJFScheduler s, q, sel)
  | RoundRobinScheduler s =>
      let '(s, q, sel) :=
        RoundRobin.select_process s h core ready_queue current_time in
      Ok (RoundRobinScheduler s, q, sel)
  | PriorityScheduler s =>
      let '(s, q, sel) :=
        Priority.select_process s h core ready_queue current_time in
      Ok (PriorityScheduler s, q, sel)
  | LoadBalancingScheduler s =>
      '(s, q, sel) ←
        LoadBalancing.select_process s h core ready_queue current_time;
      Ok (LoadBalancingScheduler s, q, sel)
  | WorkStealingScheduler s =>
      '(s, q, sel) ←
        WorkStealing.select_process s h core ready_queue current_time;
      Ok (WorkStealingScheduler s, q, sel)
  end.

Definition on_process_arrival (p : Policy) (h : Heap) (process : ref)
    (current_time : Q) : Policy :=
  match p with
  | PriorityScheduler s =>
      PriorityScheduler (Priority.on_process_arrival s h process current_time)
  | _ => p
  end.

Definition on_process_completion (p : Policy) (h : Heap) (process : ref)
    (current_time : Q) : Policy :=
  match p with
  | RoundRobinScheduler s =>
      RoundRobinScheduler
        (RoundRobin.on_process_completion s h process current_time)
  | PriorityScheduler s =>
      PriorityScheduler
        (Priority.on_process_completion s h process current_time)
  | LoadBalancingScheduler s =>
      LoadBalancingScheduler
        (LoadBalancing.on_process_completion s h process current_time)
  | WorkStealingScheduler s =>
      WorkStealingScheduler
        (WorkStealing.on_process_completion s h process current_time)
  | _ => p
  end.

Definition is_preemptive (p : Policy) : bool :=
  match p with
  | FCFSScheduler => FCFS.is_preemptive
  | SJFScheduler s => SJF.is_preemptive s
  | RoundRobinScheduler s => RoundRobin.is_preemptive s
  | PriorityScheduler s => Priority.is_preemptive s
  | LoadBalancingScheduler s => LoadBalancing.is_preemptive s
  | WorkStealingScheduler s => WorkStealing.is_preemptive s
  end.

Definition should_preempt (p : Policy) (h : Heap) (current_process : ref)
    (ready_queue : list ref) (current_time : Q) : Policy * bool :=
  match p with
  | SJFScheduler s =>
      (p, SJF.should_preempt s h current_process ready_queue current_time)
  | PriorityScheduler s =>
      let '(s, b) :=
        Priority.should_preempt s h current_process ready_queue
          current_time in
      (PriorityScheduler s, b)
  | _ => (p, false)
  end.

Definition get_time_quantum (p : Policy) : Time :=
  match p with
  | FCFSScheduler => FCFS.get_time_quantum
  | SJFScheduler s => SJF.get_time_quantum s
  | RoundRobinScheduler s => RoundRobin.get_time_quantum s
  | PriorityScheduler s => Priority.get_time_quantum s
  | LoadBalancingScheduler s => LoadBalancing.get_time_quantum s
  | WorkStealingScheduler s => WorkStealing.get_time_quantum s
  end.

Definition reset (p : Policy) : Policy :=
  match p with
  | FCFSScheduler => FCFSScheduler
  | SJFScheduler s => SJFScheduler s
  | RoundRobinScheduler s => RoundRobinScheduler (RoundRobin.reset s)
  | PriorityScheduler s => PriorityScheduler (Priority.reset s)
  | LoadBalancingScheduler s => LoadBalancingScheduler (LoadBalancing.reset s)
  | WorkStealingScheduler s => WorkStealingScheduler (WorkStealing.reset s)
  end.

End Policy.

Module Adaptive.

Inductive SystemState : Type := LOW_LOAD | MEDIUM_LOAD | HIGH_LOAD.

Inductive WorkloadCharacteristic : Type :=
| CPU_INTENSIVE | IO_INTENSIVE | MIXED | SHORT_JOBS | LONG_JOBS.

(** The keys of [self.schedulers]. *)
Inductive Name : Type :=
| fcfs | sjf | round_robin | priority | load_balancing | work_stealing.

Definition Name_eqb (a b : Name) : bool :=
  match a, b with
  | fcfs, fcfs | sjf, sjf | round_robin, round_robin
  | priority, priority | load_balancing, load_balancing
  | work_stealing, work_stealing => true
  | _, _ => false
  end.

(** [d[k] = v] on a dict keyed by the six names. *)
Definition put {V : Type} (d : Name -> V) (k : Name) (v : V) : Name -> V :=
  fun k' => if Name_eqb k' k then v else d k'.

Record t : Type := mk {
  num_cores : Z;
  adaptation_interval : Q;
  last_adaptation_time : Q;
  schedulers : Name -> Policy;
  current_scheduler_name : Name;
  system_state_history : list SystemState;
  workload_history : list WorkloadCharacteristic;
  algorithm_usage : Name -> Z;
  algorithm_performance : Name -> list Q;
  recent_processes : list ref;
  recent_turnaround_times : list Q
}.

(** [self.current_scheduler] is always [self.schedulers[self.current_scheduler_name]]. *)
Definition current_scheduler (a : t) : Policy :=
  schedulers a (current_scheduler_name a).

Definition set_current_scheduler (a : t) (p : Policy) : t :=
  mk (num_cores a) (adaptation_interval a) (last_adaptation_time a)
     (put (schedulers a) (current_scheduler_name a) p)
     (current_scheduler_name a) (system_state_history a)
     (workload_history a) (algorithm_usage a) (algorithm_performance a)
     (recent_processes a) (recent_turnaround_times a).

(** [AdaptiveScheduler.__init__] *)
Definition init (num_cores : Z) (adaptation_interval : Q) (g : RNG) : t :=
  mk num_cores adaptation_interval 0
     (fun name =>
        match name with
        | fcfs => FCFSScheduler
        | sjf => SJFScheduler (SJF.mk true)
        | round_robin => RoundRobinScheduler (RoundRobin.init (Finite 4))
        | priority => PriorityScheduler (Priority.init true true)
        | load_balancing => LoadBalancingScheduler (LoadBalancing.init (3 # 10))
        | work_stealing => WorkStealingScheduler (WorkStealing.init num_cores 3 g)
        end)
     load_balancing [] [] (fun _ => 0%Z) (fun _ => []) [] [].

Definition _analyze_system_state (a : t) (ready_queue : list ref)
    : result SystemState :=
  let queue_length := Z.of_nat (length ready_queue) in
  if Z.eqb (num_cores a) 0 then Raise ZeroDivisionError
  else
    let load_ratio := (inject_Z queue_length / inject_Z (num_cores a))%Q in
    if Qltb load_ratio 1 then Ok LOW_LOAD
    else if Qltb load_ratio 3 then Ok MEDIUM_LOAD
    else Ok HIGH_LOAD.

(** [sum(p.remaining_time for p in ready_queue)] *)
Definition sum_Q (l : list Q) : Q := fold_left Qplus l 0%Q.

Definition _analyze_workload (h : Heap) (ready_queue : list ref)
    : WorkloadCharacteristic :=
  match ready_queue with
  | [] => MIXED
  | _ =>
      let len := inject_Z (Z.of_nat (length ready_queue)) in
      let cpu_intensive_count :=
        length (List.filter
                  (fun p => ProcessType_eqb (process_type (h p)) CPU_BOUND)
                  ready_queue) in
      let io_intensive_count :=
        length (List.filter
                  (fun p => ProcessType_eqb (process_type (h p)) IO_BOUND)
                  ready_queue) in
      let cpu_ratio := (inject_Z (Z.of_nat cpu_intensive_count) / len)%Q in
      let io_ratio := (inject_Z (Z.of_nat io_intensive_count) / len)%Q in
      let avg_burst :=
        (sum_Q (map (fun p => remaining_time (h p)) ready_queue) / len)%Q in
      if Qltb (6 # 10) cpu_ratio then CPU_INTENSIVE
      else if Qltb (6 # 10) io_ratio then IO_INTENSIVE
      else if Qltb avg_burst 10 then SHORT_JOBS
      else if Qltb 50 avg_burst then LONG_JOBS
      else MIXED
  end.

Definition _select_best_algorithm (system_state : SystemState)
    (workload : WorkloadCharacteristic) : Name :=
  match system_state with
  | HIGH_LOAD =>
      match workload with
      | CPU_INTENSIVE => load_balancing
      | LONG_JOBS => round_robin
      | _ => load_balancing
      end
  | MEDIUM_LOAD =>
      match workload with
      | SHORT_JOBS => sjf
      | IO_INTENSIVE => priority
      | _ => work_stealing
      end
  | LOW_LOAD =>
      match workload with
      | SHORT_JOBS => sjf
      | MIXED => work_stealing
      | _ => fcfs
      end
  end.

Definition _adapt_scheduler (a : t) (h : Heap) (ready_queue : list ref)
    (current_time : Q) : result t :=
  system_state ← _analyze_system_state a ready_queue;
  let workload_char := _analyze_workload h ready_queue in
  let new_scheduler_name :=
    _select_best_algorithm system_state workload_char in
  (* switching only moves the "current" name: [_transfer_scheduler_state]
     does nothing *)
  let name :=
    if negb (Name_eqb new_scheduler_name (current_scheduler_name a))
    then new_scheduler_name else current_scheduler_name a in
  Ok (mk (num_cores a) (adaptation_interval a) (last_adaptation_time a)
         (schedulers a) name
         (system_state_history a ++ [system_state])
         (workload_history a ++ [workload_char])
         (put (algorithm_usage a) name (algorithm_usage a name + 1)%Z)
         (algorithm_performance a) (recent_processes a)
         (recent_turnaround_times a)).

Definition set_last_adaptation_time (a : t) (v : Q) : t :=
  mk (num_cores a) (adaptation_interval a) v (schedulers a)
     (current_scheduler_name a) (system_state_history a)
     (workload_history a) (algorithm_usage a) (algorithm_performance a)
     (recent_processes a) (recent_turnaround_times a).

Definition select_process (a : t) (h : Heap) (core : CPU.CPUCore)
    (ready_queue : list ref) (current_time : Q)
    : result (t * list ref * option ref) :=
  a ← (if Qle_bool (adaptation_interval a)
                   (current_time - last_adaptation_time a)%Q
       then a ← _adapt_scheduler a h ready_queue current_time;
            Ok (set_last_adaptation_time a current_time)
       else Ok a);
  '(p, q, sel) ←
    Policy.select_process (current_scheduler a) h core ready_queue
      current_time;
  Ok (set_current_scheduler a p, q, sel).

Definition on_process_arrival (a : t) (h : Heap) (process : ref)
    (current_time : Q) : t :=
  set_current_scheduler a
    (Policy.on_process_arrival (current_scheduler a) h process current_time).

Definition on_process_completion (a : t) (h : Heap) (process : ref)
    (current_time : Q) : t :=
  let recent := recent_processes a ++ [process] in
  let recent_t := recent_turnaround_times a ++ [turnaround_time (h process)] in
  let '(recent, recent_t) :=
    if Nat.ltb 20 (length recent) then (tail recent, tail recent_t)
    else (recent, recent_t) in
  let a :=
    mk (num_cores a) (adaptation_interval a) (last_adaptation_time a)
       (schedulers a) (current_scheduler_name a) (system_state_history a)
       (workload_history a) (algorithm_usage a)
       (put (algorithm_performance a) (current_scheduler_name a)
            (algorithm_performance a (current_scheduler_name a)
             ++ [turnaround_time (h process)]))
       recent recent_t in
  set_current_scheduler a
    (Policy.on_process_completion (current_scheduler a) h process
       current_time).

Definition is_preemptive (a : t) : bool :=
  Policy.is_preemptive (current_scheduler a).

Definition should_preempt (a : t) (h : Heap) (current_process : ref)
    (ready_queue : list ref) (current_time : Q) : t * bool :=
  let '(p, b) :=
    Policy.should_preempt (current_scheduler a) h current_process
      ready_queue current_time in
  (set_current_scheduler a p, b).

Definition get_time_quantum (a : t) : Time :=
  Policy.get_time_quantum (current_scheduler a).

Definition reset (a : t) : t :=
  mk (num_cores a) (adaptation_interval a) 0
     (fun name => Policy.reset (schedulers a name))
     load_balancing [] [] (fun _ => 0%Z) (fun _ => []) [] [].

(** The keys of the dicts [schedulers], [algorithm_usage] and
    [algorithm_performance], in insertion order. *)
Definition names : list Name :=
  [fcfs; sjf; round_robin; priority; load_balancing; work_stealing].

(** [sum(self.algorithm_usage.values())] *)
Definition total_adaptations (a : t) : Z :=
  fold_left Z.add (map (algorithm_usage a) names) 0%Z.

(** [get_algorithm_usage_stats]: the dict of percentages, in key order. *)
Definition get_algorithm_usage_stats (a : t) : list (Name * Q) :=
  if Z.eqb (total_adaptations a) 0 then map (fun name => (name, 0%Q)) names
  else
    map (fun name =>
           (name,
            (inject_Z (algorithm_usage a name)
             / inject_Z (total_adaptations a) * 100)%Q))
        (List.filter (fun name => Z.ltb 0 (algorithm_usage a name)) names).

(** [get_adaptation_history]: [list(zip(...))] of the two histories. *)
Definition get_adaptation_history (a : t)
    : list (SystemState * WorkloadCharacteristic) :=
  combine (system_state_history a) (workload_history a).

End Adaptive.

(** A scheduler object as the engine holds it. *)
Inductive Scheduler : Type :=
| Basic (p : Policy)
| AdaptiveScheduler (a : Adaptive.t).

Module Sched.

Definition select_process (s : Scheduler) (h : Heap) (core : CPU.CPUCore)
    (ready_queue : list ref) (current_time : Q)
    : result (Scheduler * list ref * option ref) :=
  match s with
  | Basic p =>
      '(p, q, sel) ← Policy.select_process p h core ready_queue current_time;
      Ok (Basic p, q, sel)
  | AdaptiveScheduler a =>
      '(a, q, sel) ← Adaptive.select_process a h core ready_queue current_time;
      Ok (AdaptiveScheduler a, q, sel)
  end.

Definition on_process_arrival (s : Scheduler) (h : Heap) (process : ref)
    (current_time : Q) : Scheduler :=
  match s with
  | Basic p => Basic (Policy.on_process_arrival p h process current_time)
  | AdaptiveScheduler a =>
      AdaptiveScheduler (Adaptive.on_process_arrival a h process current_time)
  end.

Definition on_process_completion (s : Scheduler) (h : Heap) (process : ref)
    (current_time : Q) : Scheduler :=
  match s with
  | Basic p => Basic (Policy.on_process_completion p h process current_time)
  | AdaptiveScheduler a =>
      AdaptiveScheduler
        (Adaptive.on_process_completion a h process current_time)
  end.

Definition is_preemptive (s : Scheduler) : bool :=
  match s with
  | Basic p => Policy.is_preemptive p
  | AdaptiveScheduler a => Adaptive.is_preemptive a
  end.

Definition should_preempt (s : Scheduler) (h : Heap) (current_process : ref)
    (ready_queue : list ref) (current_time : Q) : Scheduler * bool :=
  match s with
  | Basic p =>
      let '(p, b) :=
        Policy.should_preempt p h current_process ready_queue current_time in
      (Basic p, b)
  | AdaptiveScheduler a =>
      let '(a, b) :=
        Adaptive.should_preempt a h current_process ready_queue current_time in
      (AdaptiveScheduler a, b)
  end.

Definition get_time_quantum (s : Scheduler) : Time :=
  match s with
  | Basic p => Policy.get_time_quantum p
  | AdaptiveScheduler a => Adaptive.get_time_quantum a
  end.

(** [hasattr(self.scheduler, 'rotate_queue')] holds for Round Robin
    only; the engine then calls [rotate_queue(preempted)]. *)
Definition rotate_queue_if_any (s : Scheduler) (h : Heap) (process : ref)
    : Scheduler :=
  match s with
  | Basic (RoundRobinScheduler r) =>
      Basic (RoundRobinScheduler (RoundRobin.rotate_queue r h process))
  | _ => s
  end.

Definition reset (s : Scheduler) : Scheduler :=
  match s with
  | Basic p => Basic (Policy.reset p)
  | AdaptiveScheduler a => AdaptiveScheduler (Adaptive.reset a)
  end.

End Sched.

(* ------------------------------------------------------------------ *)
(** ** core/metrics.py *)

Module Metrics.

(** [statistics.stdev]: the sample standard deviation,
    [sqrt (sum (x - mean)^2 / (n - 1))]. *)
Definition sum_R (l : list R) : R := fold_right Rplus 0%R l.

Definition mean (l : list R) : R := (sum_R l / INR (length l))%R.

Definition stdev (l : list R) : R :=
  sqrt (sum_R (map (fun x => (x - mean l) * (x - mean l))%R l)
        / INR (length l - 1))%R.

(** The algorithm name of the snapshot is a formatted string and is left
    out. *)
Record PerformanceMetrics : Type := mk {
  average_turnaround_time : Q;
  average_waiting_time : Q;
  average_response_time : Q;
  cpu_utilization : Q;
  throughput : Q;
  total_context_switches : Z;
  load_balance_score : R;
  num_cores : nat;
  num_processes : nat;
  total_simulation_time : Q
}.

Definition sum_Q (l : list Q) : Q := fold_left Qplus l 0%Q.

Definition sum_Z (l : list Z) : Z := fold_left Z.add l 0%Z.

(** The branch [len(core_utilizations) > 1] and its alternative. *)
Definition balance_of (core_utilizations : list Q) : R :=
  if Nat.ltb 1 (length core_utilizations) then
    let std_dev := stdev (map Q2R core_utilizations) in
    Rmax 0 (1 - std_dev / 100)
  else 1%R.

Definition core_utilizations (cores : list CPU.CPUCore) (total_time : Q)
    : list Q :=
  map (fun core => CPU.get_utilization core total_time) cores.

(** The keyword argument [context_switches] is [engine_switches] here
    (the name is a field of [Process]). *)
Definition calculate_metrics (h : Heap) (processes : list ref)
    (cores : list CPU.CPUCore) (total_time : Q) (engine_switches : Z)
    : PerformanceMetrics :=
  let completed_processes :=
    List.filter (fun p => is_completed (h p)) processes in
  match completed_processes with
  | [] =>
      mk 0 0 0 0 0 engine_switches 0%R (length cores) (length processes)
         total_time
  | _ =>
      let n := inject_Z (Z.of_nat (length completed_processes)) in
      let avg_turnaround :=
        (sum_Q (map (fun p => turnaround_time (h p)) completed_processes) / n)%Q in
      let avg_waiting :=
        (sum_Q (map (fun p => waiting_time (h p)) completed_processes) / n)%Q in
      let avg_response :=
        (sum_Q (map (fun p => response_time (h p)) completed_processes) / n)%Q in
      let total_busy_time := sum_Q (map CPU.total_busy_time cores) in
      let total_possible_time :=
        (total_time * inject_Z (Z.of_nat (length cores)))%Q in
      let cpu_utilization :=
        if Qltb 0 total_possible_time
        then (total_busy_time / total_possible_time * 100)%Q else 0%Q in
      let throughput :=
        if Qltb 0 total_time then (n / total_time * 1000)%Q else 0%Q in
      let load_balance_score :=
        balance_of (core_utilizations cores total_time) in
      let total_context_switches :=
        (sum_Z (map (fun p => context_switches (h p)) completed_processes)
         + engine_switches)%Z in
      mk avg_turnaround avg_waiting avg_response cpu_utilization throughput
         total_context_switches load_balance_score (length cores)
         (length processes) total_time
  end.

End Metrics.

(* ------------------------------------------------------------------ *)
(** ** scheduler_simulator.py *)

Module Sim.

Record Simulator : Type := mk {
  num_cores : Z;
  cores : list CPU.CPUCore;
  all_processes : list ref;
  ready_queue : list ref;
  completed_processes : list ref;
  scheduler : option Scheduler;
  current_time : Q;
  total_context_switches : Z;
  metrics : option Metrics.PerformanceMetrics;
  heap : Heap
}.

(** [MulticoreSchedulerSimulator.__init__]; [h] holds the process
    objects the caller has created. *)
Definition init (num_cores : Z) (h : Heap) : Simulator :=
  mk num_cores (map CPU.new_core (range num_cores)) [] [] [] None 0 0 None h.

Definition set_scheduler (sim : Simulator) (s : Scheduler) : Simulator :=
  mk (num_cores sim) (cores sim) (all_processes sim) (ready_queue sim)
     (completed_processes sim) (Some s) (current_time sim)
     (total_context_switches sim) (metrics sim) (heap sim).

Definition add_process (sim : Simulator) (process : ref) : Simulator :=
  mk (num_cores sim) (cores sim) (all_processes sim ++ [process])
     (ready_queue sim) (completed_processes sim) (scheduler sim)
     (current_time sim) (total_context_switches sim) (metrics sim)
     (heap sim).

(** Attribute updates used by the loop. *)
Definition with_cores (v : list CPU.CPUCore) (sim : Simulator) : Simulator :=
  mk (num_cores sim) v (all_processes sim) (ready_queue sim)
     (completed_processes sim) (scheduler sim) (current_time sim)
     (total_context_switches sim) (metrics sim) (heap sim).

Definition with_ready_queue (v : list ref) (sim : Simulator) : Simulator :=
  mk (num_cores sim) (cores sim) (all_processes sim) v
     (completed_processes sim) (scheduler sim) (current_time sim)
     (total_context_switches sim) (metrics sim) (heap sim).

Definition with_completed (v : list ref) (sim : Simulator) : Simulator :=
  mk (num_cores sim) (cores sim) (all_processes sim) (ready_queue sim) v
     (scheduler sim) (current_time sim) (total_context_switches sim)
     (metrics sim) (heap sim).

Definition with_scheduler (v : Scheduler) (sim : Simulator) : Simulator :=
  mk (num_cores sim) (cores sim) (all_processes sim) (ready_queue sim)
     (completed_processes sim) (Some v) (current_time sim)
     (total_context_switches sim) (metrics sim) (heap sim).

Definition with_current_time (v : Q) (sim : Simulator) : Simulator :=
  mk (num_cores sim) (cores sim) (all_processes sim) (ready_queue sim)
     (completed_processes sim) (scheduler sim) v
     (total_context_switches sim) (metrics sim) (heap sim).

Definition with_context_switches (v : Z) (sim : Simulator) : Simulator :=
  mk (num_cores sim) (cores sim) (all_processes sim) (ready_queue sim)
     (completed_processes sim) (scheduler sim) (current_time sim) v
     (metrics sim) (heap sim).

Definition with_metrics (v : Metrics.PerformanceMetrics) (sim : Simulator)
    : Simulator :=
  mk (num_cores sim) (cores sim) (all_processes sim) (ready_queue sim)
     (completed_processes sim) (scheduler sim) (current_time sim)
     (total_context_switches sim) (Some v) (heap sim).

Definition with_heap (v : Heap) (sim : Simulator) : Simulator :=
  mk (num_cores sim) (cores sim) (all_processes sim) (ready_queue sim)
     (completed_processes sim) (scheduler sim) (current_time sim)
     (total_context_switches sim) (metrics sim) v.

Definition with_all_processes (v : list ref) (sim : Simulator) : Simulator :=
  mk (num_cores sim) (cores sim) v (ready_queue sim)
     (completed_processes sim) (scheduler sim) (current_time sim)
     (total_context_switches sim) (metrics sim) (heap sim).

(** The loop [for process in self.all_processes] of [_reset_simulation]. *)
Definition reset_process (p : Process) : Process :=
  let p := set_state NEW p in
  let p := set_remaining_time (burst_time p) p in
  let p := set_start_time None p in
  let p := set_completion_time None p in
  let p := set_waiting_time 0 p in
  let p := set_turnaround_time 0 p in
  set_response_time 0 p.

Definition reset_processes (h : Heap) (l : list ref) : Heap :=
  fold_left (fun h r => upd h r (reset_process (h r))) l h.

Definition _reset_simulation (sim : Simulator) : Simulator :=
  mk (num_cores sim) (map CPU.reset (cores sim)) (all_processes sim) [] []
     (option_map Sched.reset (scheduler sim)) 0 0 (metrics sim)
     (reset_processes (heap sim) (all_processes sim)).

(** The scheduler of a running simulation; [None] cannot be called. *)
Definition the_scheduler (sim : Simulator) : result Scheduler :=
  match scheduler sim with
  | Some s => Ok s
  | None => Raise AttributeError
  end.

(** The inner [while] of [run_simulation]: enqueue the processes that have
    arrived, starting at [process_index]; [pending] is
    [self.all_processes[process_index:]]. *)
Fixpoint add_arrivals (sim : Simulator) (process_index : nat) (pending : list ref)
    : result (Simulator * nat) :=
  match pending with
  | [] => Ok (sim, process_index)
  | process :: rest =>
      if Qle_bool (arrival_time (heap sim process)) (current_time sim) then
        let sim :=
          with_heap (upd (heap sim) process
                       (set_state READY (heap sim process))) sim in
        let sim := with_ready_queue (ready_queue sim ++ [process]) sim in
        s ← the_scheduler sim;
        let sim :=
          with_scheduler
            (Sched.on_process_arrival s (heap sim) process (current_time sim))
            sim in
        add_arrivals sim (S process_index) rest
      else Ok (sim, process_index)
  end.

(** The body of the loop of [_assign_processes_to_cores] for one core. *)
Definition assign_one (sim : Simulator) (core : CPU.CPUCore)
    : result (Simulator * CPU.CPUCore) :=
  if CPU.is_idle core
     && match ready_queue sim with [] => false | _ => true end
  then
    s ← the_scheduler sim;
    '(s, q, selected_process) ←
      Sched.select_process s (heap sim) core (ready_queue sim)
        (current_time sim);
    let sim := with_ready_queue q (with_scheduler s sim) in
    match selected_process with
    | Some selected =>
        let sim :=
          if py_in selected (ready_queue sim)
          then with_ready_queue (py_remove selected (ready_queue sim)) sim
          else sim in
        let core :=
          CPU.assign_process core (heap sim) selected (current_time sim) in
        Ok (with_context_switches (total_context_switches sim + 1)%Z sim,
            core)
    | None => Ok (sim, core)
    end
  else Ok (sim, core).

(** [for core in self.cores] with the cores already visited in [done]. *)
Fixpoint assign_loop (sim : Simulator) (done todo : list CPU.CPUCore)
    : result (Simulator * list CPU.CPUCore) :=
  match todo with
  | [] => Ok (sim, done)
  | core :: rest =>
      '(sim, core) ← assign_one sim core;
      assign_loop sim (done ++ [core]) rest
  end.

Definition _assign_processes_to_cores (sim : Simulator) : result Simulator :=
  '(sim, cs) ← assign_loop sim [] (cores sim);
  Ok (with_cores cs sim).

(** [min(min_time_slice, actual_time)] where [None] is [float('inf')]. *)
Definition min_slice (min_time_slice : option Q) (actual_time : Q) : option Q :=
  match min_time_slice with
  | None => Some actual_time
  | Some m => Some (py_min m actual_time)
  end.

(** The body of the loop of [_execute_all_cores] for one core.  A core
    that is not idle has an occupant ([is_idle] holds when
    [current_process] is [None]), so the [None] branch below is never
    taken. *)
Definition execute_one (sim : Simulator) (time_quantum : Time)
    (min_time_slice : option Q) (core : CPU.CPUCore)
    : result (Simulator * option Q * CPU.CPUCore) :=
  if negb (CPU.is_idle core) then
    match CPU.get_current_process core with
    | None => Raise AttributeError
    | Some current_process =>
        s ← the_scheduler sim;
        let '(s, preempt) :=
          Sched.should_preempt s (heap sim) current_process
            (ready_queue sim) (current_time sim) in
        let sim := with_scheduler s sim in
        if preempt then
          let '(core, preempted) :=
            CPU.preempt_current_process core (current_time sim) in
          let sim :=
            match preempted with
            | Some r =>
                if negb (is_completed (heap sim r))
                then with_ready_queue (ready_queue sim ++ [r]) sim
                else sim
            | None => sim
            end in
          Ok (sim, min_time_slice, core)
        else
          let '(core, h, actual) :=
            CPU.execute_current_process core (heap sim) time_quantum
              (current_time sim) in
          let sim := with_heap h sim in
          match actual with
          | None => Ok (sim, min_time_slice, core)
          | Some actual_time =>
              let min_time_slice := min_slice min_time_slice actual_time in
              if is_completed (heap sim current_process) then
                let sim :=
                  with_completed
                    (completed_processes sim ++ [current_process]) sim in
                let sim :=
                  with_scheduler
                    (Sched.on_process_completion s (heap sim)
                       current_process (current_time sim + actual_time)%Q)
                    sim in
                Ok (sim, min_time_slice, core)
              else if Sched.is_preemptive s then
                let '(core, preempted) :=
                  CPU.preempt_current_process core
                    (current_time sim + actual_time)%Q in
                match preempted with
                | Some r =>
                    let sim :=
                      with_ready_queue (ready_queue sim ++ [r]) sim in
                    let sim :=
                      with_scheduler
                        (Sched.rotate_queue_if_any s (heap sim) r) sim in
                    Ok (sim, min_time_slice, core)
                | None => Ok (sim, min_time_slice, core)
                end
              else Ok (sim, min_time_slice, core)
          end
    end
  else Ok (sim, min_time_slice, core).

Fixpoint execute_loop (sim : Simulator) (time_quantum : Time)
    (min_time_slice : option Q) (done todo : list CPU.CPUCore)
    : result (Simulator * option Q * list CPU.CPUCore) :=
  match todo with
  | [] => Ok (sim, min_time_slice, done)
  | core :: rest =>
      '(sim, min_time_slice, core) ←
        execute_one sim time_quantum min_time_slice core;
      execute_loop sim time_quantum min_time_slice (done ++ [core]) rest
  end.

(** Returns the minimum slice, 0 when nothing ran. *)
Definition _execute_all_cores (sim : Simulator) : result (Simulator * Q) :=
  s ← the_scheduler sim;
  let time_quantum := Sched.get_time_quantum s in
  '(sim, min_time_slice, cs) ←
    execute_loop sim time_quantum None [] (cores sim);
  Ok (with_cores cs sim, default 0%Q min_time_slice).

(** The outcome of the main loop. *)
Inductive loop_result : Type :=
| Finished (sim : Simulator)
| Failed (e : exn)
| OutOfFuel.

(** One iteration of [while True]: either the loop ends or it goes on
    from a new state and process index. *)
Definition iteration (sim : Simulator) (process_index : nat)
    (max_time : option Q) : result (Simulator * option nat) :=
  if match max_time with
     | Some m => Qle_bool m (current_time sim)
     | None => false
     end
  then Ok (sim, None)
  else if Nat.leb (length (all_processes sim))
                  (length (completed_processes sim))
  then Ok (sim, None)
  else
    '(sim, process_index) ←
      add_arrivals sim process_index (drop process_index (all_processes sim));
    sim ← _assign_processes_to_cores sim;
    '(sim, min_time_slice) ← _execute_all_cores sim;
    if Qltb 0 min_time_slice then
      Ok (with_current_time (current_time sim + min_time_slice)%Q sim,
          Some process_index)
    else
      match all_processes sim !! process_index with
      | Some next =>
          Ok (with_current_time (arrival_time (heap sim next)) sim,
              Some process_index)
      | None => Ok (sim, None)
      end.

Fixpoint main_loop (fuel : nat) (sim : Simulator) (process_index : nat)
    (max_time : option Q) : loop_result :=
  match fuel with
  | O => OutOfFuel
  | S fuel =>
      match iteration sim process_index max_time with
      | Raise e => Failed e
      | Ok (sim, None) => Finished sim
      | Ok (sim, Some process_index) =>
          main_loop fuel sim process_index max_time
      end
  end.

(** [self.all_processes.sort(key=lambda p: p.arrival_time)] *)
Definition sort_by_arrival (sim : Simulator) : Simulator :=
  with_all_processes
    (sort_by le_Q (fun r => arrival_time (heap sim r)) (all_processes sim))
    sim.

Definition final_metrics (sim : Simulator) : Simulator :=
  with_metrics
    (Metrics.calculate_metrics (heap sim) (all_processes sim) (cores sim)
       (current_time sim) (total_context_switches sim))
    sim.

(** What a call of [run_simulation] does: it returns the metrics (the
    simulator is left in state [sim]), or raises one of its two
    configuration errors with the simulator in state [sim], or an
    exception escapes from the loop.  [Diverges] is the model running out
    of fuel. *)
Inductive outcome : Type :=
| Returns (sim : Simulator) (m : Metrics.PerformanceMetrics)
| ConfigurationError (msg : string) (sim : Simulator)
| Escapes (e : exn)
| Diverges.

Definition no_scheduler_msg : string :=
  "No scheduler set. Use set_scheduler() first.".

Definition no_processes_msg : string :=
  "No processes to simulate. Use generate_processes() or add_process() first.".

Definition run_simulation (fuel : nat) (sim : Simulator)
    (max_time : option Q) : outcome :=
  match scheduler sim with
  | None => ConfigurationError no_scheduler_msg sim
  | Some _ =>
      match all_processes sim with
      | [] => ConfigurationError no_processes_msg sim
      | _ =>
          let sim := _reset_simulation sim in
          let sim := sort_by_arrival sim in
          match main_loop fuel sim 0 max_time with
          | Finished sim =>
              let sim := final_metrics sim in
              match metrics sim with
              | Some m => Returns sim m
              | None => Escapes AttributeError
              end
          | Failed e => Escapes e
          | OutOfFuel => Diverges
          end
      end
  end.

End Sim.

(* ------------------------------------------------------------------ *)
(** ** The adaptation rule as the specification words it

    These definitions follow the text of the specification, not the
    source; they are compared with [Adaptive._adapt_scheduler] below. *)

Module AdaptiveSpec.

Import Adaptive.

(** "LOW if queueLength/numCores < 1.0, MEDIUM if < 3.0, else HIGH" *)
Definition load (queue_length : nat) (num_cores : Z) : SystemState :=
  let ratio := (inject_Z (Z.of_nat queue_length) / inject_Z num_cores)%Q in
  if Qlt_le_dec ratio 1 then LOW_LOAD
  else if Qlt_le_dec ratio 3 then MEDIUM_LOAD
  else HIGH_LOAD.

(** "more than 60% of queued processes are ...": [k] out of [n]. *)
Definition more_than_60_percent (k n : nat) : bool :=
  (60 * n <? 100 * k)%nat.

Definition count_type (h : Heap) (ty : ProcessType) (queue : list ref) : nat :=
  length (List.filter (fun r => ProcessType_eqb (process_type (h r)) ty) queue).

Definition average_remaining (h : Heap) (queue : list ref) : Q :=
  (fold_right Qplus 0 (map (fun r => remaining_time (h r)) queue)
   / inject_Z (Z.of_nat (length queue)))%Q.

Definition workload (h : Heap) (queue : list ref) : WorkloadCharacteristic :=
  match queue with
  | [] => MIXED
  | _ =>
      if more_than_60_percent (count_type h CPU_BOUND queue) (length queue)
      then CPU_INTENSIVE
      else if more_than_60_percent (count_type h IO_BOUND queue) (length queue)
      then IO_INTENSIVE
      else if Qlt_le_dec (average_remaining h queue) 10 then SHORT_JOBS
      else if Qlt_le_dec 50 (average_remaining h queue) then LONG_JOBS
      else MIXED
  end.

(** The fixed decision table. *)
Definition table (l : SystemState) (w : WorkloadCharacteristic) : Name :=
  match l, w with
  | HIGH_LOAD, LONG_JOBS => round_robin
  | HIGH_LOAD, _ => load_balancing
  | MEDIUM_LOAD, SHORT_JOBS => sjf
  | MEDIUM_LOAD, IO_INTENSIVE => priority
  | MEDIUM_LOAD, _ => work_stealing
  | LOW_LOAD, SHORT_JOBS => sjf
  | LOW_LOAD, MIXED => work_stealing
  | LOW_LOAD, _ => fcfs
  end.

Definition choice (h : Heap) (queue : list ref) (num_cores : Z) : Name :=
  table (load (length queue) num_cores) (workload h queue).

End AdaptiveSpec.

(* ------------------------------------------------------------------ *)
(** ** The load-balance score as the specification words it

    "1 - coefficient of variation of per-core utilization, clamped to
    [0,1]; defined as 1.0 when only one core or zero variance".  Follows
    the text of the specification, not the source. *)

Module MetricsSpec.

Definition variance (l : list R) : R :=
  (Metrics.sum_R
     (map (fun x => (x - Metrics.mean l) * (x - Metrics.mean l))%R l)
   / INR (length l - 1))%R.

Definition coefficient_of_variation (l : list R) : R :=
  (sqrt (variance l) / Metrics.mean l)%R.

Definition clamp01 (x : R) : R := Rmax 0 (Rmin 1 x).

Definition score (utilizations : list Q) : R :=
  let l := map Q2R utilizations in
  if Nat.leb (length l) 1 then 1%R
  else if Req_dec_T (variance l) 0 then 1%R
  else clamp01 (1 - coefficient_of_variation l).

(** "all per-core utilizations are numerically equal" *)
Definition all_equal (utilizations : list Q) : Prop :=
  forall u v, In u utilizations -> In v utilizations -> (u == v)%Q.

End MetricsSpec.

(* ------------------------------------------------------------------ *)
(** ** Inputs of the examples *)

Module Examples.

(** Two processes, pids 0 and 1, arriving at time 0 with the given burst
    times; every other reference denotes the second one. *)
Definition two_jobs (burst0 burst1 : Q) : Heap := fun r =>
  match r with
  | O => new_process 0 0 burst0 0 MIXED None
  | _ => new_process 1 0 burst1 0 MIXED None
  end.

(** A simulator with [n] cores, the scheduler set and the processes
    added in order. *)
Definition simulator (n : Z) (h : Heap) (s : Scheduler) (procs : list ref)
    : Sim.Simulator :=
  fold_left Sim.add_process procs (Sim.set_scheduler (Sim.init n h) s).

Definition no_draws : RNG := mkRNG (fun _ => O) O.

End Examples.

(* ------------------------------------------------------------------ *)
(** ** The load bookkeeping as the specification words it

    "[coreLoads[coreId]] (sum of remaining time of processes currently
    bound to that core)".  Follows the text of the specification, not the
    source. *)

Module LoadBalancingSpec.

(** The processes among [procs] that are bound to core [c]. *)
Definition bound_to (s : LoadBalancing.t) (h : Heap) (c : Z)
    (procs : list ref) : list ref :=
  List.filter
    (fun r =>
       match LoadBalancing.process_assignments s !! pid (h r) with
       | Some c' => Z.eqb c' c
       | None => false
       end) procs.

Definition loads_are_remaining_sums (s : LoadBalancing.t) (h : Heap)
    (procs : list ref) : Prop :=
  forall c : Z,
    (LoadBalancing.load_of s c
     == fold_right Qplus 0
          (map (fun r => remaining_time (h r)) (bound_to s h c procs)))%Q.

End LoadBalancingSpec.

(* ------------------------------------------------------------------ *)
(** ** Invariants of a run (used in the proofs of Part II) *)

(** The timing fields of a process object are consistent: it is not left
    in RUNNING or WAITING between engine steps; a recorded start time is at
    or after the arrival and the response time was computed from it; a
    terminated process has a start time and a completion time, from which
    turnaround and waiting time were computed. *)
Definition timing_ok (p : Process) : Prop :=
  (state p = NEW \/ state p = READY \/ state p = TERMINATED) /\
  (forall s, start_time p = Some s ->
     (response_time p == s - arrival_time p)%Q /\ (arrival_time p <= s)%Q) /\
  (state p = TERMINATED ->
     (exists s, start_time p = Some s) /\
     exists c, completion_time p = Some c /\
       (turnaround_time p == c - arrival_time p)%Q /\
       (waiting_time p == turnaround_time p - burst_time p)%Q).

(** The process references a policy object holds in its own queues. *)
Definition policy_knows (p : Policy) (r : ref) : Prop :=
  match p with
  | RoundRobinScheduler s => In r (RoundRobin.rr_queue s)
  | WorkStealingScheduler s =>
      In r (concat (map snd (WorkStealing.core_queues s)))
      \/ In r (WorkStealing.global_queue s)
  | _ => False
  end.

Definition knows (s : Scheduler) (r : ref) : Prop :=
  match s with
  | Basic p => policy_knows p r
  | AdaptiveScheduler a =>
      exists name, policy_knows (Adaptive.schedulers a name) r
  end.

(** The state of the loop of [run_simulation] between two steps, for the
    sorted list [procs] of submitted processes of which the first
    [process_index] have entered the ready queue: every submitted process object is
    [timing_ok]; whatever sits in the ready queue or in the policy's own
    queues has arrived; and an arrived process has an arrival time
    no later than the clock. *)
Definition arrived (procs : list ref) (process_index : nat) (r : ref) : Prop :=
  In r (take process_index procs).

Record engine_ok (procs : list ref) (process_index : nat)
    (sim : Sim.Simulator) : Prop := {
  ok_all : Sim.all_processes sim = procs;
  ok_timing : forall r, In r procs -> timing_ok (Sim.heap sim r);
  ok_arrived : forall r, arrived procs process_index r ->
                 (arrival_time (Sim.heap sim r) <= Sim.current_time sim)%Q;
  ok_ready : forall r, In r (Sim.ready_queue sim) ->
               arrived procs process_index r;
  ok_sched : exists s, Sim.scheduler sim = Some s /\
               forall r, knows s r -> arrived procs process_index r
}.

(** The processes on the cores have arrived. *)
Definition cores_ok (procs : list ref) (process_index : nat)
    (cs : list CPU.CPUCore) : Prop :=
  forall c r, In c cs -> CPU.current_process c = Some r ->
    arrived procs process_index r.

(** What a step of the engine leaves alone: the list of submitted
    processes, the clock and the arrival times. *)
Definition same_frame (sim sim' : Sim.Simulator) : Prop :=
  Sim.all_processes sim' = Sim.all_processes sim /\
  Sim.current_time sim' = Sim.current_time sim /\
  forall r, arrival_time (Sim.heap sim' r) = arrival_time (Sim.heap sim r).

(** The references held in the per-core queues of Work Stealing. *)
Definition in_queues (cq : list (Z * list ref)) (r : ref) : Prop :=
  In r (concat (map snd cq)).

(** A core whose occupant, if any, has arrived. *)
Definition core_ok (procs : list ref) (process_index : nat) (c : CPU.CPUCore)
    : Prop :=
  forall r, CPU.current_process c = Some r -> arrived procs process_index r.

(* ------------------------------------------------------------------ *)
(** ** Predicates used to state further properties of the policies *)

(** [priority_extends s s']: the flags of the Priority policy agree and
    every wait start recorded in [s] is recorded with the same value in
    [s']. *)
Definition priority_extends (s s' : Priority.t) : Prop :=
  Priority._preemptive s' = Priority._preemptive s /\
  Priority._aging s' = Priority._aging s /\
  Priority.aging_factor s' = Priority.aging_factor s /\
  forall k w, Priority.process_wait_times s !! k = Some w ->
              Priority.process_wait_times s' !! k = Some w.

(** The number of entries in all local queues of Work Stealing. *)
Definition queued (cq : list (Z * list ref)) : nat :=
  list_sum (map (fun kq : Z * list ref => length (snd kq)) cq).

(** Local queues whose lengths differ by at most one. *)
Definition balanced (cq : list (Z * list ref)) : Prop :=
  forall a b, In a cq -> In b cq -> (length (snd a) <= S (length (snd b)))%nat.

(** The bookkeeping of the Adaptive scheduler is consistent: the two
    histories have one entry per adaptation, and the usage counts are
    non-negative and add up to the number of adaptations. *)
Definition adaptive_consistent (a : Adaptive.t) : Prop :=
  length (Adaptive.system_state_history a)
  = length (Adaptive.workload_history a) /\
  (forall name, (0 <= Adaptive.algorithm_usage a name)%Z) /\
  Adaptive.total_adaptations a
  = Z.of_nat (length (Adaptive.system_state_history a)).

(** The window of recently completed processes of the Adaptive scheduler
    holds at most 20 entries, with one turnaround time each. *)
Definition recent_window_ok (a : Adaptive.t) : Prop :=
  length (Adaptive.recent_turnaround_times a)
  = length (Adaptive.recent_processes a) /\
  (length (Adaptive.recent_processes a) <= 20)%nat.

(** The exceptions Work Stealing can raise. *)
Definition work_stealing_error (e : exn) : Prop :=
  (exists k, e = KeyError k) \/ (exists msg, e = ValueError msg).

(* ------------------------------------------------------------------ *)
(** ** Conservation of processes by the engine

    The policies that select from the ready queue they are given: FCFS,
    SJF, Priority and Load Balancing (Round Robin and Work Stealing select
    from queues of their own, and the Adaptive scheduler may switch to
    them). *)
Definition queue_selecting (s : Scheduler) : Prop :=
  match s with
  | Basic FCFSScheduler
  | Basic (SJFScheduler _)
  | Basic (PriorityScheduler _)
  | Basic (LoadBalancingScheduler _) => True
  | _ => False
  end.

(** The process a core holds, as a list. *)
Definition occupant (c : CPU.CPUCore) : list ref :=
  match CPU.current_process c with
  | Some r => [r]
  | None => []
  end.

Definition occupants (cs : list CPU.CPUCore) : list ref := flat_map occupant cs.

(** Every process the engine currently holds: ready, on a core, or
    completed. *)
Definition pool (sim : Sim.Simulator) (cs : list CPU.CPUCore) : list ref :=
  Sim.ready_queue sim ++ occupants cs ++ Sim.completed_processes sim.

(** The state of the loop of [run_simulation] with the cores [cs], for
    the sorted list [procs] of submitted processes of which the first
    [process_index] have arrived: no process is held twice, every held
    process has arrived, the completed list holds exactly the submitted
    processes that are TERMINATED, an idle core holds no process, and the
    scheduler selects from the ready queue. *)
Record conserved (procs : list ref) (process_index : nat)
    (sim : Sim.Simulator) (cs : list CPU.CPUCore) : Prop := {
  c_procs : Sim.all_processes sim = procs;
  c_nodup : List.NoDup (pool sim cs);
  c_arrived : forall r, In r (pool sim cs) -> In r (take process_index procs);
  c_done : forall r, In r (Sim.completed_processes sim) ->
             is_completed (Sim.heap sim r) = true;
  c_all : forall r, In r procs -> is_completed (Sim.heap sim r) = true ->
            In r (Sim.completed_processes sim);
  c_idle : forall c, In c cs -> CPU.is_idle c = true ->
             CPU.current_process c = None;
  c_sched : exists s, Sim.scheduler sim = Some s /\ queue_selecting s
}.

(* ================================================================== *)
(** * Part II: properties *)
(* ================================================================== *)

(** ** Arithmetic of the built-ins *)

Lemma Qltb_lt (a b : Q) : Qltb a b = true <-> (a < b)%Q.
Proof.
  unfold Qltb. rewrite negb_true_iff. split.
  - intros H. apply Qnot_le_lt. intros Hle.
    apply Qle_bool_iff in Hle. congruence.
  - intros H. destruct (Qle_bool b a) eqn:E; [|reflexivity].
    apply Qle_bool_iff in E. exfalso. apply (Qlt_not_le _ _ H E).
Qed.

Lemma Qltb_ge (a b : Q) : Qltb a b = false <-> (b <= a)%Q.
Proof.
  unfold Qltb. rewrite negb_false_iff. apply Qle_bool_iff.
Qed.

(** The remaining time after a slice is never negative, whatever the sign
    of the slice: [r - min(t, r) = max(r - t, 0)]. *)
Lemma min_time_le (t : Time) (r : Q) : (min_time t r <= r)%Q.
Proof.
  destruct t as [q|]; simpl; [|apply Qle_refl].
  unfold py_min. destruct (Qltb r q) eqn:E.
  - apply Qle_refl.
  - apply Qltb_ge in E. exact E.
Qed.

Lemma py_min_Qmin (a b : Q) : (py_min a b == Qmin a b)%Q.
Proof.
  unfold py_min. destruct (Qltb b a) eqn:E.
  - apply Qltb_lt in E. symmetry. apply Q.min_r. apply Qlt_le_weak, E.
  - apply Qltb_ge in E. symmetry. apply Q.min_l. exact E.
Qed.

(** ** Process.execute *)

(** Case analysis on the three branches of [execute]. *)
Ltac execute_cases p core :=
  let st := fresh "st" in
  let stt := fresh "stt" in
  let eoc := fresh "eoc" in
  let c := fresh "c" in
  destruct p as [? ? ? ? ? ? st ? stt ? ? ? ? ? eoc ? ?];
  unfold execute, finishes in *; simpl in *;
  destruct st, stt, eoc as [c|]; simpl in *;
  try destruct (negb (c =? core)%Z); simpl in *;
  try match goal with
      | |- context [Qle_bool ?x ?y] => destruct (Qle_bool x y) eqn:?
      end;
  simpl in *.

Lemma execute_snd (p : Process) (ts : Time) (ct : Q) (core : Z) :
  snd (execute p ts ct core) = min_time ts (remaining_time p).
Proof. execute_cases p core; reflexivity. Qed.

Lemma execute_remaining (p : Process) (ts : Time) (ct : Q) (core : Z) :
  remaining_time (fst (execute p ts ct core))
  = (remaining_time p - min_time ts (remaining_time p))%Q.
Proof. execute_cases p core; reflexivity. Qed.

Lemma execute_state (p : Process) (ts : Time) (ct : Q) (core : Z) :
  state (fst (execute p ts ct core))
  = if finishes p ts then TERMINATED else READY.
Proof. execute_cases p core; reflexivity. Qed.

Lemma execute_finished (p : Process) (ts : Time) (ct : Q) (core : Z) :
  finishes p ts = true ->
  let p' := fst (execute p ts ct core) in
  let a := min_time ts (remaining_time p) in
  completion_time p' = Some (ct + a)%Q /\
  turnaround_time p' = (ct + a - arrival_time p)%Q /\
  waiting_time p' = (ct + a - arrival_time p - burst_time p)%Q.
Proof.
  intros H. execute_cases p core; try discriminate; repeat split; reflexivity.
Qed.

Lemma execute_start (p : Process) (ts : Time) (ct : Q) (core : Z) :
  let p' := fst (execute p ts ct core) in
  match state p, start_time p with
  | (NEW | READY), None =>
      start_time p' = Some ct /\ response_time p' = (ct - arrival_time p)%Q
  | _, _ => start_time p' = start_time p /\ response_time p' = response_time p
  end.
Proof. execute_cases p core; split; reflexivity. Qed.

Lemma execute_frame (p : Process) (ts : Time) (ct : Q) (core : Z) :
  let p' := fst (execute p ts ct core) in
  pid p' = pid p /\ arrival_time p' = arrival_time p /\
  burst_time p' = burst_time p /\ priority p' = priority p /\
  process_type p' = process_type p.
Proof. execute_cases p core; repeat split; reflexivity. Qed.

Lemma remaining_after_nonneg (p : Process) (ts : Time) :
  (0 <= remaining_time p - min_time ts (remaining_time p))%Q.
Proof. pose proof (min_time_le ts (remaining_time p)). lra. Qed.

Lemma finishes_iff (p : Process) (ts : Time) :
  finishes p ts = true
  <-> (remaining_time p - min_time ts (remaining_time p) == 0)%Q.
Proof.
  unfold finishes. rewrite Qle_bool_iff.
  pose proof (remaining_after_nonneg p ts). split; intros; lra.
Qed.

(** C1. For a process in state NEW or READY with remaining time [r],
    [execute] returns exactly [min(timeSlice, r)] (which is [r] under the
    unbounded quantum) and decreases the remaining time by that amount; on
    the first execution it records the start time [currentTime] and the
    response time [currentTime - arrival]; afterwards the process is
    TERMINATED with completion time [currentTime + actual] if the remaining
    time reached zero, and READY otherwise. *)
Theorem execute_from_new_or_ready
    (p : Process) (time_slice : Time) (current_time : Q) (core : Z) :
  state p = NEW \/ state p = READY ->
  let r := remaining_time p in
  let p' := fst (execute p time_slice current_time core) in
  let actual := snd (execute p time_slice current_time core) in
  match time_slice with
  | Finite t => (actual == Qmin t r)%Q
  | Infinity => actual = r
  end /\
  remaining_time p' = (r - actual)%Q /\
  (start_time p = None ->
     start_time p' = Some current_time /\
     response_time p' = (current_time - arrival_time p)%Q) /\
  ((remaining_time p' == 0)%Q ->
     state p' = TERMINATED /\
     completion_time p' = Some (current_time + actual)%Q) /\
  (~ (remaining_time p' == 0)%Q -> state p' = READY).
Proof.
  intros Hst r p' actual. subst r p' actual.
  rewrite execute_snd, execute_remaining, execute_state.
  split; [|split; [|split; [|split]]].
  - destruct time_slice as [t|]; simpl; [apply py_min_Qmin | reflexivity].
  - reflexivity.
  - intros Hnone. pose proof (execute_start p time_slice current_time core) as H.
    cbv zeta in H. rewrite Hnone in H.
    destruct Hst as [E|E]; rewrite E in H; exact H.
  - intros Hz. apply finishes_iff in Hz. rewrite Hz. split; [reflexivity|].
    apply (execute_finished p time_slice current_time core Hz).
  - intros Hnz. destruct (finishes p time_slice) eqn:E; [|reflexivity].
    exfalso. apply Hnz, finishes_iff, E.
Qed.

Lemma execute_from_new_or_ready_witness :
  let p := new_process 7 2 3 0 MIXED None in
  let p' := fst (execute p (Finite 4) 5 0) in
  let actual := snd (execute p (Finite 4) 5 0) in
  (state p = NEW \/ state p = READY) /\
  (actual == Qmin 4 3)%Q /\
  remaining_time p' = (3 - actual)%Q /\
  (start_time p = None ->
     start_time p' = Some 5%Q /\ response_time p' = (5 - 2)%Q) /\
  ((remaining_time p' == 0)%Q ->
     state p' = TERMINATED /\ completion_time p' = Some (5 + actual)%Q) /\
  (~ (remaining_time p' == 0)%Q -> state p' = READY).
Proof.
  split; [left; reflexivity|].
  apply (execute_from_new_or_ready (new_process 7 2 3 0 MIXED None)
           (Finite 4) 5 0).
  left; reflexivity.
Defined.

(** C10, as stated, fails for a negative time slice: [min(-1, 0)] is [-1],
    the remaining time becomes 1 and the process goes back to READY. *)
Lemma execute_terminated_negative_slice :
  let p := finished_process in
  let p' := fst (execute p (Finite (-1)) 5 0) in
  state p = TERMINATED /\ (remaining_time p == 0)%Q /\
  ~ (snd (execute p (Finite (-1)) 5 0) == 0)%Q /\
  ~ (remaining_time p' == 0)%Q /\
  state p' <> TERMINATED.
Proof.
  cbv zeta. repeat split; try reflexivity; vm_compute; discriminate.
Qed.

(** C10 (amended). For a non-negative time slice (or the unbounded
    quantum), [execute] on a TERMINATED process whose remaining time is zero
    returns 0 and leaves the remaining time at zero and the state
    TERMINATED, but it overwrites the completion time with the call's
    [currentTime] and recomputes turnaround and waiting time from it: a
    turnaround time recorded for another completion instant is lost. *)
Theorem execute_terminated
    (p : Process) (time_slice : Time) (current_time : Q) (core : Z) :
  state p = TERMINATED ->
  (remaining_time p == 0)%Q ->
  match time_slice with Finite t => (0 <= t)%Q | Infinity => True end ->
  let p' := fst (execute p time_slice current_time core) in
  let actual := snd (execute p time_slice current_time core) in
  (actual == 0)%Q /\
  (remaining_time p' == 0)%Q /\
  state p' = TERMINATED /\
  (exists c, completion_time p' = Some c /\ (c == current_time)%Q) /\
  (turnaround_time p' == current_time - arrival_time p)%Q /\
  (waiting_time p' == current_time - arrival_time p - burst_time p)%Q /\
  (~ (turnaround_time p == current_time - arrival_time p)%Q ->
   ~ (turnaround_time p' == turnaround_time p)%Q).
Proof.
  intros Hst Hrem Hts p' actual. subst p' actual.
  assert (Ha : (min_time time_slice (remaining_time p) == 0)%Q).
  { destruct time_slice as [t|]; simpl; [|exact Hrem].
    unfold py_min. destruct (Qltb (remaining_time p) t) eqn:E; [exact Hrem|].
    apply Qltb_ge in E. lra. }
  assert (Hfin : finishes p time_slice = true).
  { apply finishes_iff. lra. }
  rewrite execute_snd, execute_remaining, execute_state, Hfin.
  destruct (execute_finished p time_slice current_time core Hfin)
    as (Hc & Ht & Hw).
  rewrite Hc, Ht, Hw.
  split; [lra|]. split; [lra|]. split; [reflexivity|].
  split; [eexists; split; [reflexivity | lra]|].
  split; [lra|]. split; [lra|].
  intros Hne Heq. apply Hne. lra.
Qed.

Lemma execute_terminated_witness :
  let p := finished_process in
  let p' := fst (execute p (Finite 4) 5 1) in
  (snd (execute p (Finite 4) 5 1) == 0)%Q /\
  (remaining_time p' == 0)%Q /\
  state p' = TERMINATED /\
  (exists c, completion_time p' = Some c /\ (c == 5)%Q) /\
  (turnaround_time p' == 5 - arrival_time p)%Q /\
  (waiting_time p' == 5 - arrival_time p - burst_time p)%Q /\
  (~ (turnaround_time p == 5 - arrival_time p)%Q ->
   ~ (turnaround_time p' == turnaround_time p)%Q).
Proof.
  apply (execute_terminated finished_process (Finite 4) 5 1).
  - reflexivity.
  - reflexivity.
  - simpl. lra.
Defined.

(** ** The adaptive policy's choice *)

Lemma Qltb_dec (a b : Q) :
  Qltb a b = if Qlt_le_dec a b then true else false.
Proof.
  destruct (Qlt_le_dec a b) as [H|H].
  - apply Qltb_lt, H.
  - apply Qltb_ge, H.
Qed.

Lemma fold_left_Qplus_acc (l : list Q) (a : Q) :
  (fold_left Qplus l a == a + fold_right Qplus 0 l)%Q.
Proof.
  revert a. induction l as [|x l IH]; intros a; simpl.
  - lra.
  - rewrite IH. lra.
Qed.

Lemma sum_Q_fold_right (l : list Q) :
  (Adaptive.sum_Q l == fold_right Qplus 0 l)%Q.
Proof. unfold Adaptive.sum_Q. rewrite fold_left_Qplus_acc. lra. Qed.

(** A ratio [k / n] exceeds 60% exactly when [60 n < 100 k]. *)
Lemma ratio_over_60_percent (k n : nat) :
  (0 < n)%nat ->
  Qltb (6 # 10) (inject_Z (Z.of_nat k) / inject_Z (Z.of_nat n))
  = AdaptiveSpec.more_than_60_percent k n.
Proof.
  intros Hn. unfold AdaptiveSpec.more_than_60_percent.
  assert (Hpos : (0 < inject_Z (Z.of_nat n))%Q).
  { unfold Qlt; simpl. lia. }
  assert (Hne : ~ (inject_Z (Z.of_nat n) == 0)%Q) by lra.
  assert (Hiff : ((6 # 10) < inject_Z (Z.of_nat k) / inject_Z (Z.of_nat n))%Q
                 <-> (60 * n < 100 * k)%nat).
  { split.
    - intros H.
      apply (Qmult_lt_r _ _ _ Hpos) in H.
      unfold Qdiv in H. rewrite <- Qmult_assoc in H.
      rewrite (Qmult_comm (/ _)) in H. rewrite Qmult_inv_r in H by exact Hne.
      rewrite Qmult_1_r in H. unfold Qlt in H; simpl in H. lia.
    - intros H. apply Qlt_shift_div_l; [exact Hpos|].
      unfold Qlt; simpl. lia. }
  destruct (60 * n <? 100 * k)%nat eqn:E.
  - apply Qltb_lt, Hiff, Nat.ltb_lt, E.
  - apply Nat.ltb_ge in E. apply Qltb_ge.
    apply Qnot_lt_le. intros H. apply Hiff in H. lia.
Qed.

Lemma analyze_system_state_spec (a : Adaptive.t) (ready_queue : list ref) :
  Adaptive.num_cores a <> 0%Z ->
  Adaptive._analyze_system_state a ready_queue
  = Ok (AdaptiveSpec.load (length ready_queue) (Adaptive.num_cores a)).
Proof.
  intros Hn. unfold Adaptive._analyze_system_state, AdaptiveSpec.load.
  destruct (Z.eqb_spec (Adaptive.num_cores a) 0) as [E|_]; [contradiction|].
  rewrite !Qltb_dec.
  destruct (Qlt_le_dec _ 1); [reflexivity|].
  destruct (Qlt_le_dec _ 3); reflexivity.
Qed.

Lemma analyze_workload_spec (h : Heap) (ready_queue : list ref) :
  Adaptive._analyze_workload h ready_queue = AdaptiveSpec.workload h ready_queue.
Proof.
  destruct ready_queue as [|r0 rest]; [reflexivity|].
  unfold Adaptive._analyze_workload, AdaptiveSpec.workload.
  set (q := r0 :: rest).
  assert (Hlen : (0 < length q)%nat) by (simpl; lia).
  rewrite !ratio_over_60_percent by exact Hlen.
  fold (AdaptiveSpec.count_type h CPU_BOUND q).
  fold (AdaptiveSpec.count_type h IO_BOUND q).
  destruct (AdaptiveSpec.more_than_60_percent _ _); [reflexivity|].
  destruct (AdaptiveSpec.more_than_60_percent _ _); [reflexivity|].
  assert (Havg :
    (Adaptive.sum_Q (map (fun p => remaining_time (h p)) q)
       / inject_Z (Z.of_nat (length q))
     == AdaptiveSpec.average_remaining h q)%Q).
  { unfold AdaptiveSpec.average_remaining. rewrite sum_Q_fold_right.
    reflexivity. }
  rewrite !Qltb_dec.
  destruct (Qlt_le_dec _ 10) as [H1|H1];
    destruct (Qlt_le_dec (AdaptiveSpec.average_remaining h q) 10) as [H2|H2];
    try reflexivity; try (exfalso; rewrite Havg in H1; lra).
  destruct (Qlt_le_dec 50 _) as [H3|H3];
    destruct (Qlt_le_dec 50 (AdaptiveSpec.average_remaining h q)) as [H4|H4];
    try reflexivity; exfalso; rewrite Havg in H3; lra.
Qed.

Lemma select_best_algorithm_table
    (l : Adaptive.SystemState) (w : Adaptive.WorkloadCharacteristic) :
  Adaptive._select_best_algorithm l w = AdaptiveSpec.table l w.
Proof. destruct l, w; reflexivity. Qed.

(** C4. The adaptation step chooses the policy that the specification's
    classification and decision table give for the ready queue and the
    core count: the choice does not depend on the time of the call or on
    anything else in the scheduler's state.  (The load ratio divides by the
    core count, so the count is not zero.) *)
Theorem adapt_scheduler_choice
    (a : Adaptive.t) (h : Heap) (ready_queue : list ref) (current_time : Q) :
  Adaptive.num_cores a <> 0%Z ->
  exists a',
    Adaptive._adapt_scheduler a h ready_queue current_time = Ok a' /\
    Adaptive.current_scheduler_name a'
    = AdaptiveSpec.choice h ready_queue (Adaptive.num_cores a).
Proof.
  intros Hn. unfold Adaptive._adapt_scheduler.
  rewrite (analyze_system_state_spec a ready_queue Hn). simpl.
  eexists. split; [reflexivity|]. simpl.
  rewrite analyze_workload_spec, select_best_algorithm_table.
  unfold AdaptiveSpec.choice.
  destruct (Adaptive.Name_eqb _ _) eqn:E; simpl; [|reflexivity].
  destruct (AdaptiveSpec.table _ _), (Adaptive.current_scheduler_name a);
    simpl in E; try discriminate; reflexivity.
Qed.

Lemma adapt_scheduler_choice_witness :
  let a := Adaptive.init 2 50 Examples.no_draws in
  let h := Examples.two_jobs 4 6 in
  exists a',
    Adaptive._adapt_scheduler a h [0%nat; 1%nat] 50 = Ok a' /\
    Adaptive.current_scheduler_name a'
    = AdaptiveSpec.choice h [0%nat; 1%nat] 2.
Proof.
  intros a h. apply (adapt_scheduler_choice a h [0%nat; 1%nat] 50).
  discriminate.
Defined.

(** Two short jobs on two cores: medium load, short jobs, hence SJF. *)
Example adapt_two_short_jobs :
  AdaptiveSpec.choice (Examples.two_jobs 4 6) [0%nat; 1%nat] 2 = Adaptive.sjf.
Proof. vm_compute. reflexivity. Qed.

(** ** The load-balance score *)

Lemma stdev_sqrt_variance (l : list R) :
  Metrics.stdev l = sqrt (MetricsSpec.variance l).
Proof. reflexivity. Qed.

Lemma sum_R_constant (x : R) (l : list R) :
  (forall y, In y l -> y = x) ->
  Metrics.sum_R l = (INR (length l) * x)%R.
Proof.
  induction l as [|y l IH]; intros H.
  - simpl. ring.
  - change (Metrics.sum_R (y :: l)) with (y + Metrics.sum_R l)%R.
    rewrite IH by (intros z Hz; apply H; right; exact Hz).
    rewrite (H y) by (left; reflexivity).
    cbn [length]. rewrite S_INR. ring.
Qed.

Lemma sum_R_zero (l : list R) :
  (forall y, In y l -> y = 0%R) -> Metrics.sum_R l = 0%R.
Proof. intros H. rewrite (sum_R_constant 0 l H). ring. Qed.

Lemma mean_constant (x : R) (l : list R) :
  l <> [] -> (forall y, In y l -> y = x) -> Metrics.mean l = x.
Proof.
  intros Hne H. unfold Metrics.mean. rewrite (sum_R_constant x l H).
  assert (INR (length l) <> 0%R).
  { apply not_0_INR. destruct l; [contradiction | discriminate]. }
  field. assumption.
Qed.

Lemma variance_constant (x : R) (l : list R) :
  l <> [] -> (forall y, In y l -> y = x) -> MetricsSpec.variance l = 0%R.
Proof.
  intros Hne H. unfold MetricsSpec.variance.
  rewrite (mean_constant x l Hne H).
  rewrite sum_R_zero.
  - unfold Rdiv. apply Rmult_0_l.
  - intros y Hy. apply in_map_iff in Hy as (z & <- & Hz).
    rewrite (H z Hz). ring.
Qed.

Lemma balance_of_range (utilizations : list Q) :
  (0 <= Metrics.balance_of utilizations <= 1)%R.
Proof.
  unfold Metrics.balance_of.
  destruct (Nat.ltb 1 (length utilizations)); [|Lra.lra].
  pose proof (sqrt_pos (MetricsSpec.variance (map Q2R utilizations))) as Hs.
  rewrite stdev_sqrt_variance.
  split.
  - apply Rmax_l.
  - apply Rmax_lub; Lra.lra.
Qed.

Lemma all_equal_Q2R (utilizations : list Q) (u : Q) :
  MetricsSpec.all_equal utilizations -> In u utilizations ->
  forall y, In y (map Q2R utilizations) -> y = Q2R u.
Proof.
  intros Heq Hu y Hy. apply in_map_iff in Hy as (v & <- & Hv).
  apply Qeq_eqR. apply Heq; assumption.
Qed.

Lemma balance_of_all_equal (utilizations : list Q) :
  MetricsSpec.all_equal utilizations -> Metrics.balance_of utilizations = 1%R.
Proof.
  intros Heq. unfold Metrics.balance_of.
  destruct (Nat.ltb 1 (length utilizations)) eqn:E; [|reflexivity].
  destruct utilizations as [|u rest]; [discriminate|].
  rewrite stdev_sqrt_variance.
  rewrite (variance_constant (Q2R u)).
  - rewrite sqrt_0. unfold Rdiv. rewrite Rmult_0_l, Rminus_0_r.
    apply Rmax_right. Lra.lra.
  - discriminate.
  - apply all_equal_Q2R; [exact Heq | left; reflexivity].
Qed.

Lemma score_cases (h : Heap) (processes : list ref)
    (cores : list CPU.CPUCore) (total_time : Q) (switches : Z) :
  Metrics.load_balance_score
    (Metrics.calculate_metrics h processes cores total_time switches)
  = match List.filter (fun p => is_completed (h p)) processes with
    | [] => 0%R
    | _ => Metrics.balance_of (Metrics.core_utilizations cores total_time)
    end.
Proof.
  unfold Metrics.calculate_metrics.
  destruct (List.filter _ processes); reflexivity.
Qed.

Lemma sum_R_nonneg (l : list R) :
  (forall y, In y l -> (0 <= y)%R) -> (0 <= Metrics.sum_R l)%R.
Proof.
  induction l as [|y l IH]; intros H; simpl.
  - Lra.lra.
  - assert (0 <= y)%R by (apply H; left; reflexivity).
    assert (0 <= Metrics.sum_R l)%R by (apply IH; intros z Hz; apply H; right; exact Hz).
    Lra.lra.
Qed.

Lemma variance_nonneg (l : list R) :
  (1 < length l)%nat -> (0 <= MetricsSpec.variance l)%R.
Proof.
  intros Hlen. unfold MetricsSpec.variance.
  apply Rmult_le_pos.
  - apply sum_R_nonneg. intros y Hy.
    apply in_map_iff in Hy as (z & <- & _). apply Rle_0_sqr.
  - apply Rlt_le, Rinv_0_lt_compat. apply lt_0_INR. lia.
Qed.

Lemma run_simulation_Returns_inv (fuel : nat) (sim : Sim.Simulator)
    (max_time : option Q) (sim' : Sim.Simulator) (m : Metrics.PerformanceMetrics) :
  Sim.run_simulation fuel sim max_time = Sim.Returns sim' m ->
  exists s,
    Sim.main_loop fuel (Sim.sort_by_arrival (Sim._reset_simulation sim)) 0 max_time
    = Sim.Finished s /\
    sim' = Sim.final_metrics s /\
    m = Metrics.calculate_metrics (Sim.heap s) (Sim.all_processes s)
          (Sim.cores s) (Sim.current_time s) (Sim.total_context_switches s).
Proof.
  unfold Sim.run_simulation.
  destruct (Sim.scheduler sim) as [sch|]; [|discriminate].
  destruct (Sim.all_processes sim) as [|r0 rest]; [discriminate|].
  destruct (Sim.main_loop _ _ _ _) as [s| |]; try discriminate.
  simpl. intros H. injection H as <- <-. exists s. repeat split.
Qed.

Lemma run_simulation_returns (fuel : nat) (sim : Sim.Simulator)
    (max_time : option Q) (s : Sim.Simulator) :
  Sim.scheduler sim <> None ->
  Sim.all_processes sim <> [] ->
  Sim.main_loop fuel (Sim.sort_by_arrival (Sim._reset_simulation sim)) 0 max_time
  = Sim.Finished s ->
  Sim.run_simulation fuel sim max_time
  = Sim.Returns (Sim.final_metrics s)
      (Metrics.calculate_metrics (Sim.heap s) (Sim.all_processes s)
         (Sim.cores s) (Sim.current_time s) (Sim.total_context_switches s)).
Proof.
  intros Hs Hp Hl. unfold Sim.run_simulation.
  destruct (Sim.scheduler sim) as [sch|]; [|contradiction].
  destruct (Sim.all_processes sim) as [|r0 rest]; [contradiction|].
  rewrite Hl. reflexivity.
Qed.

Lemma completed_filter_nonempty (h : Heap) (processes : list ref) (r : ref) :
  In r processes -> is_completed (h r) = true ->
  List.filter (fun p => is_completed (h p)) processes <> [].
Proof.
  intros Hin Hc Hnil.
  assert (In r (List.filter (fun p => is_completed (h p)) processes)) as H.
  { apply filter_In. split; assumption. }
  rewrite Hnil in H. exact H.
Qed.

(** C5 (amended). The load-balance score of the snapshot is 0 when no
    process has completed.  Otherwise it is 1 for at most one core, and for
    several cores it is [max(0, 1 - s/100)], where [s] is the sample
    standard deviation of the per-core utilization percentages (the
    non-negative root of their variance; it is divided by 100, not by the
    mean); it is 1 when the variance is zero and always lies in [0,1]. *)
Theorem load_balance_score_formula (h : Heap) (processes : list ref)
    (cores : list CPU.CPUCore) (total_time : Q) (switches : Z) :
  let score :=
    Metrics.load_balance_score
      (Metrics.calculate_metrics h processes cores total_time switches) in
  let u := map Q2R (Metrics.core_utilizations cores total_time) in
  ((forall r, In r processes -> is_completed (h r) = false) -> score = 0%R) /\
  ((exists r, In r processes /\ is_completed (h r) = true) ->
     ((length cores <= 1)%nat -> score = 1%R) /\
     ((1 < length cores)%nat ->
        exists s, (0 <= s)%R /\ (s * s)%R = MetricsSpec.variance u /\
                  score = Rmax 0 (1 - s / 100)) /\
     (MetricsSpec.variance u = 0%R -> score = 1%R) /\
     (0 <= score <= 1)%R).
Proof.
  intros score u. subst score. rewrite score_cases. split.
  - intros Hnone.
    destruct (List.filter _ processes) as [|r l] eqn:E; [reflexivity|].
    assert (In r (List.filter (fun p => is_completed (h p)) processes)) as H
      by (rewrite E; left; reflexivity).
    apply filter_In in H as [Hin Hc]. rewrite (Hnone r Hin) in Hc. discriminate.
  - intros (r & Hin & Hc).
    pose proof (completed_filter_nonempty h processes r Hin Hc) as Hne.
    destruct (List.filter _ processes) as [|r0 l]; [contradiction|].
    assert (Hlen : length (Metrics.core_utilizations cores total_time)
                   = length cores)
      by (unfold Metrics.core_utilizations; apply length_map).
    unfold Metrics.balance_of. rewrite Hlen.
    fold u. rewrite stdev_sqrt_variance.
    split; [|split; [|split]].
    + intros Hle. destruct (Nat.ltb_spec 1 (length cores)); [lia|reflexivity].
    + intros Hlt. destruct (Nat.ltb_spec 1 (length cores)); [|lia].
      exists (sqrt (MetricsSpec.variance u)). split; [apply sqrt_pos|].
      split; [|reflexivity].
      apply sqrt_sqrt, variance_nonneg. subst u. rewrite length_map, Hlen.
      exact Hlt.
    + intros Hz. destruct (Nat.ltb 1 (length cores)); [|reflexivity].
      rewrite Hz, sqrt_0. unfold Rdiv. rewrite Rmult_0_l, Rminus_0_r.
      apply Rmax_right. Lra.lra.
    + pose proof (balance_of_range (Metrics.core_utilizations cores total_time))
        as Hr.
      unfold Metrics.balance_of in Hr. rewrite Hlen in Hr. fold u in Hr.
      rewrite stdev_sqrt_variance in Hr. exact Hr.
Qed.

(** C6 (amended). For every run that returns, the load-balance score lies
    in [0,1]; and if at least one process has completed, it equals 1
    whenever all per-core utilizations are equal, in particular when there
    is a single core. *)
Theorem load_balance_score_of_run (fuel : nat) (sim : Sim.Simulator)
    (max_time : option Q) (sim' : Sim.Simulator) (m : Metrics.PerformanceMetrics) :
  Sim.run_simulation fuel sim max_time = Sim.Returns sim' m ->
  let completed_some :=
    exists r, In r (Sim.all_processes sim')
              /\ is_completed (Sim.heap sim' r) = true in
  (0 <= Metrics.load_balance_score m <= 1)%R /\
  (completed_some ->
   MetricsSpec.all_equal
     (Metrics.core_utilizations (Sim.cores sim') (Sim.current_time sim')) ->
   Metrics.load_balance_score m = 1%R) /\
  (completed_some -> length (Sim.cores sim') = 1%nat ->
   Metrics.load_balance_score m = 1%R).
Proof.
  intros Hrun completed_some. subst completed_some.
  apply run_simulation_Returns_inv in Hrun as (s & _ & -> & ->).
  simpl. rewrite score_cases.
  split; [|split].
  - destruct (List.filter _ _); [Lra.lra | apply balance_of_range].
  - intros (r & Hin & Hc) Heq.
    pose proof (completed_filter_nonempty _ _ r Hin Hc) as Hne.
    destruct (List.filter _ _); [contradiction|].
    apply balance_of_all_equal, Heq.
  - intros (r & Hin & Hc) Hone.
    pose proof (completed_filter_nonempty _ _ r Hin Hc) as Hne.
    destruct (List.filter _ _); [contradiction|].
    unfold Metrics.balance_of, Metrics.core_utilizations.
    rewrite length_map, Hone. reflexivity.
Qed.

(** C6, as stated, fails on a run in which no process completes: with
    [max_time = 0] on a single core the score is 0, not 1. *)
Lemma score_zero_when_nothing_completed :
  exists sim' m,
    Sim.run_simulation 1
      (Examples.simulator 1 (Examples.two_jobs 10 10) (Basic FCFSScheduler) [0%nat])
      (Some 0%Q)
    = Sim.Returns sim' m /\
    length (Sim.cores sim') = 1%nat /\
    MetricsSpec.all_equal
      (Metrics.core_utilizations (Sim.cores sim') (Sim.current_time sim')) /\
    Metrics.load_balance_score m = 0%R /\
    Metrics.load_balance_score m <> 1%R.
Proof.
  eexists. eexists. split.
  { apply run_simulation_returns;
      [discriminate | discriminate | vm_compute; reflexivity]. }
  split; [reflexivity|]. split.
  { intros u v [<-|[]] [<-|[]]. reflexivity. }
  rewrite score_cases.
  match goal with
  | |- context [List.filter ?f ?l] =>
      replace (List.filter f l) with (@nil ref) by (vm_compute; reflexivity)
  end.
  split; [reflexivity | Lra.lra].
Qed.

Lemma variance_100_0 (a b : Q) :
  Q2R a = 100%R -> Q2R b = 0%R ->
  MetricsSpec.variance (map Q2R [a; b]) = 5000%R.
Proof.
  intros Ha Hb. unfold MetricsSpec.variance, Metrics.mean. simpl.
  rewrite Ha, Hb. field.
Qed.

Lemma sqrt_5000_bounds : (50 < sqrt 5000 < 100)%R.
Proof.
  split.
  - replace 50%R with (sqrt (50 * 50)) by (apply sqrt_square; Lra.lra).
    apply sqrt_lt_1; Lra.lra.
  - replace 100%R with (sqrt (100 * 100)) by (apply sqrt_square; Lra.lra).
    apply sqrt_lt_1; Lra.lra.
Qed.

(** C5, as stated, fails: FCFS on two cores with one process of burst 10
    leaves the utilizations 100 and 0; the code's score is
    [1 - sqrt 5000 / 100 > 0] while one minus the coefficient of variation,
    clamped, is 0. *)
Lemma score_is_not_coefficient_of_variation :
  exists sim' m,
    Sim.run_simulation 2
      (Examples.simulator 2 (Examples.two_jobs 10 10) (Basic FCFSScheduler) [0%nat])
      None
    = Sim.Returns sim' m /\
    Metrics.load_balance_score m
    <> MetricsSpec.score
         (Metrics.core_utilizations (Sim.cores sim') (Sim.current_time sim')).
Proof.
  eexists. eexists. split.
  { apply run_simulation_returns;
      [discriminate | discriminate | vm_compute; reflexivity]. }
  rewrite score_cases.
  match goal with
  | |- context [List.filter ?f ?l] =>
      replace (List.filter f l) with [0%nat] by (vm_compute; reflexivity)
  end.
  repeat match goal with
  | |- context [Metrics.core_utilizations ?c ?t] =>
      let v := eval vm_compute in (Metrics.core_utilizations c t) in
      replace (Metrics.core_utilizations c t) with v by (vm_compute; reflexivity)
  end.
  assert (Ha : Q2R (1000 # 10) = 100%R) by (unfold Q2R; simpl; field).
  assert (Hb : Q2R (0 # 10) = 0%R) by (unfold Q2R; simpl; field).
  pose proof (variance_100_0 _ _ Ha Hb) as Hv.
  pose proof sqrt_5000_bounds as [Hlo Hhi].
  unfold Metrics.balance_of, MetricsSpec.score.
  rewrite stdev_sqrt_variance.
  change (Nat.ltb 1 (length [(1000 # 10)%Q; (0 # 10)%Q])) with true.
  change (Nat.leb (length (map Q2R [(1000 # 10)%Q; (0 # 10)%Q])) 1) with false.
  cbv iota.
  destruct (Req_dec_T _ _) as [E|_]; [rewrite Hv in E; Lra.lra|].
  unfold MetricsSpec.coefficient_of_variation, MetricsSpec.clamp01.
  rewrite Hv.
  assert (Hm : Metrics.mean (map Q2R [(1000 # 10)%Q; (0 # 10)%Q]) = 50%R).
  { unfold Metrics.mean. simpl. rewrite Ha, Hb. field. }
  rewrite Hm.
  rewrite (Rmax_right 0 (1 - sqrt 5000 / 100)) by Lra.lra.
  rewrite (Rmin_right 1 (1 - sqrt 5000 / 50)) by Lra.lra.
  rewrite (Rmax_left 0 (1 - sqrt 5000 / 50)) by Lra.lra.
  intros Heq. Lra.lra.
Qed.

Lemma load_balance_score_of_run_witness :
  let sim :=
    Examples.simulator 1 (Examples.two_jobs 10 10) (Basic FCFSScheduler)
      [0%nat] in
  exists sim' m,
    Sim.run_simulation 2 sim None = Sim.Returns sim' m /\
    let completed_some :=
      exists r, In r (Sim.all_processes sim')
                /\ is_completed (Sim.heap sim' r) = true in
    (0 <= Metrics.load_balance_score m <= 1)%R /\
    (completed_some ->
     MetricsSpec.all_equal
       (Metrics.core_utilizations (Sim.cores sim') (Sim.current_time sim')) ->
     Metrics.load_balance_score m = 1%R) /\
    (completed_some -> length (Sim.cores sim') = 1%nat ->
     Metrics.load_balance_score m = 1%R).
Proof.
  intros sim. eexists. eexists.
  match goal with |- ?A /\ _ => assert (H : A) end.
  { apply run_simulation_returns;
      [discriminate | discriminate | vm_compute; reflexivity]. }
  split; [exact H|].
  exact (load_balance_score_of_run _ _ _ _ _ H).
Defined.


(** ** Configuration errors of run_simulation *)

(** C7. [run_simulation] raises one of its two descriptive configuration
    errors if and only if no scheduler has been set or the list of
    submitted processes is empty, and then the simulator is exactly as it
    was before the call: current time, ready queue, completed list, cores,
    process objects and scheduler state are untouched. *)
Theorem run_simulation_configuration_error
    (fuel : nat) (sim : Sim.Simulator) (max_time : option Q) :
  ((exists msg sim',
      Sim.run_simulation fuel sim max_time = Sim.ConfigurationError msg sim')
   <-> (Sim.scheduler sim = None \/ Sim.all_processes sim = [])) /\
  (forall msg sim',
      Sim.run_simulation fuel sim max_time = Sim.ConfigurationError msg sim' ->
      sim' = sim /\
      (msg = Sim.no_scheduler_msg \/ msg = Sim.no_processes_msg)).
Proof.
  unfold Sim.run_simulation. split; [split|].
  - intros (msg & sim' & H).
    destruct (Sim.scheduler sim) as [sch|]; [|left; reflexivity].
    destruct (Sim.all_processes sim) as [|r0 rest]; [right; reflexivity|].
    exfalso. destruct (Sim.main_loop _ _ _ _); simpl in H; discriminate.
  - intros [Hs | Hp].
    + rewrite Hs. eauto.
    + destruct (Sim.scheduler sim) as [sch|]; [|eauto]. rewrite Hp. eauto.
  - intros msg sim' H.
    destruct (Sim.scheduler sim) as [sch|].
    + destruct (Sim.all_processes sim) as [|r0 rest].
      * injection H as <- <-. split; [reflexivity | right; reflexivity].
      * exfalso. destruct (Sim.main_loop _ _ _ _); simpl in H; discriminate.
    + injection H as <- <-. split; [reflexivity | left; reflexivity].
Qed.

(** ** Sorting *)

Section SortFacts.
Context {A K : Type} (leb : K -> K -> bool) (key : A -> K).

Lemma insert_by_Permutation (x : A) (l : list A) :
  Permutation (insert_by leb key x l) (x :: l).
Proof.
  induction l as [|y l IH]; simpl.
  - reflexivity.
  - destruct (leb (key x) (key y)).
    + reflexivity.
    + rewrite IH. apply perm_swap.
Qed.

Lemma sort_by_Permutation (l : list A) : Permutation (sort_by leb key l) l.
Proof.
  induction l as [|x l IH]; simpl.
  - reflexivity.
  - rewrite insert_by_Permutation. constructor. exact IH.
Qed.

Lemma sort_by_In (x : A) (l : list A) : In x (sort_by leb key l) <-> In x l.
Proof.
  split; apply Permutation_in;
    [|symmetry]; apply sort_by_Permutation.
Qed.

Lemma min_by_from_In (best : A) (l : list A) :
  In (min_by_from leb key best l) (best :: l).
Proof.
  revert best. induction l as [|y l IH]; intros best; simpl.
  - left; reflexivity.
  - destruct (leb (key best) (key y)).
    + destruct (IH best) as [H|H]; [left; exact H | right; right; exact H].
    + right. apply IH.
Qed.
End SortFacts.

Lemma head_In {A : Type} (l : list A) (x : A) : head l = Some x -> In x l.
Proof. destruct l; simpl; [discriminate|]. intros [= ->]. left; reflexivity. Qed.

Lemma py_in_In (r : ref) (l : list ref) : py_in r l = true <-> In r l.
Proof.
  unfold py_in. rewrite existsb_exists. split.
  - intros (x & Hx & E). apply Nat.eqb_eq in E. subst. exact Hx.
  - intros H. exists r. split; [exact H | apply Nat.eqb_refl].
Qed.

Lemma py_remove_In (r x : ref) (l : list ref) :
  In x (py_remove r l) -> In x l.
Proof.
  induction l as [|y l IH]; simpl; [tauto|].
  destruct (Nat.eqb r y); simpl; tauto.
Qed.

(** ** Load Balancing bookkeeping *)

Lemma py_max_Qmax (a b : Q) : (py_max a b == Qmax a b)%Q.
Proof.
  unfold py_max. destruct (Qltb a b) eqn:E.
  - apply Qltb_lt in E. symmetry. apply Q.max_r. apply Qlt_le_weak, E.
  - apply Qltb_ge in E. symmetry. apply Q.max_l. exact E.
Qed.

Lemma load_of_insert_eq (s : LoadBalancing.t) (c : Z) (v : Q) (a : gmap Z Z) :
  LoadBalancing.load_of
    (LoadBalancing.mk (LoadBalancing.rebalance_threshold s)
       (<[c := v]> (LoadBalancing.core_loads s)) a) c = v.
Proof. unfold LoadBalancing.load_of. simpl. rewrite lookup_insert_eq. reflexivity. Qed.

Lemma load_of_insert_ne (s : LoadBalancing.t) (c c' : Z) (v : Q) (a : gmap Z Z) :
  c <> c' ->
  LoadBalancing.load_of
    (LoadBalancing.mk (LoadBalancing.rebalance_threshold s)
       (<[c := v]> (LoadBalancing.core_loads s)) a) c'
  = LoadBalancing.load_of s c'.
Proof.
  intros H. unfold LoadBalancing.load_of. simpl.
  rewrite lookup_insert_ne by exact H. reflexivity.
Qed.

Lemma rebalance_candidates_assigned (s : LoadBalancing.t) (h : Heap)
    (load : Q) (ready_queue : list ref) (r : ref) (d : Q) :
  In (r, d) (LoadBalancing.rebalance_candidates s h load ready_queue) ->
  In r ready_queue /\
  exists c, LoadBalancing.process_assignments s !! pid (h r) = Some c.
Proof.
  induction ready_queue as [|p rest IH]; simpl; [tauto|].
  destruct (LoadBalancing.process_assignments s !! pid (h p)) as [c|] eqn:E.
  - destruct (Qltb _ _).
    + intros [[= <- <-] | H]; [eauto | destruct (IH H); eauto].
    + intros H. destruct (IH H); eauto.
  - intros H. destruct (IH H); eauto.
Qed.

(** What [select_process] returns, by branch. *)
Lemma load_balancing_select_cases (s : LoadBalancing.t) (h : Heap)
    (core : CPU.CPUCore) (ready_queue : list ref) (current_time : Q)
    (s' : LoadBalancing.t) (q : list ref) (sel : ref) :
  LoadBalancing.select_process s h core ready_queue current_time
  = Ok (s', q, Some sel) ->
  q = ready_queue /\ In sel ready_queue /\
  ((LoadBalancing.process_assignments s !! pid (h sel)
    = Some (CPU.core_id core) /\ s' = s)
   \/ (LoadBalancing.process_assignments s !! pid (h sel) = None /\
       s' = LoadBalancing.mk (LoadBalancing.rebalance_threshold s)
              (<[CPU.core_id core :=
                   (LoadBalancing.load_of s (CPU.core_id core)
                    + remaining_time (h sel))%Q]> (LoadBalancing.core_loads s))
              (<[pid (h sel) := CPU.core_id core]>
                 (LoadBalancing.process_assignments s)))
   \/ (exists old, LoadBalancing.process_assignments s !! pid (h sel) = Some old
         /\ LoadBalancing.process_assignments s' !! pid (h sel)
            = Some (CPU.core_id core))).
Proof.
  unfold LoadBalancing.select_process.
  destruct ready_queue as [|r0 rest]; [discriminate|].
  set (rq := r0 :: rest).
  destruct (LoadBalancing.by_remaining_then_arrival h
              (filter (fun r => _ = Some _) rq)) as [|first l1] eqn:E1.
  - destruct (LoadBalancing.by_remaining_then_arrival h
                (filter (fun r => _ = None) rq)) as [|selected l2] eqn:E2.
    + unfold LoadBalancing._try_rebalance.
      destruct (sort_by _ _ _) as [|[stolen d] l3] eqn:E3; [cbn; discriminate|].
      assert (Hin : In (stolen, d)
                (LoadBalancing.rebalance_candidates s h (CPU.get_load core) rq)).
      { apply (sort_by_In (fun a b : Q => Qle_bool b a) (fun c : ref * Q => snd c)).
        rewrite E3. left; reflexivity. }
      apply rebalance_candidates_assigned in Hin as (Hin & c & Hc).
      rewrite Hc. simpl. intros [= <- <- <-].
      split; [reflexivity|]. split; [exact Hin|].
      right; right. exists c. split; [exact Hc|]. simpl.
      apply lookup_insert_eq.
    + intros [= <- <- <-]. split; [reflexivity|].
      assert (Hin : In selected
                (filter (fun r => LoadBalancing.process_assignments s !! pid (h r) = None) rq)).
      { apply (sort_by_In le_QQ (fun r => (remaining_time (h r), arrival_time (h r)))).
        unfold LoadBalancing.by_remaining_then_arrival in E2. rewrite E2.
        left; reflexivity. }
      apply list_elem_of_In, list_elem_of_filter in Hin as [Hnone Hin].
      apply list_elem_of_In in Hin.
      split; [exact Hin|]. right; left. split; [exact Hnone | reflexivity].
  - intros [= <- <- <-]. split; [reflexivity|].
    assert (Hin : In first
              (filter (fun r => LoadBalancing.process_assignments s !! pid (h r)
                                = Some (CPU.core_id core)) rq)).
    { apply (sort_by_In le_QQ (fun r => (remaining_time (h r), arrival_time (h r)))).
      unfold LoadBalancing.by_remaining_then_arrival in E1. rewrite E1.
      left; reflexivity. }
    apply list_elem_of_In, list_elem_of_filter in Hin as [Hsome Hin].
    apply list_elem_of_In in Hin.
    split; [exact Hin|]. left. split; [exact Hsome | reflexivity].
Qed.

(** C9, as stated, fails: after Load Balancing has run a process of burst
    10 for one quantum of 5 on its core, the recorded load of the core is
    still 10 while the process bound to it has 5 left. *)
Lemma core_load_is_not_remaining_sum :
  exists sim' m s,
    Sim.run_simulation 3
      (Examples.simulator 1 (Examples.two_jobs 10 10)
         (Basic (LoadBalancingScheduler (LoadBalancing.init (3 # 10))))
         [0%nat])
      (Some 5%Q)
    = Sim.Returns sim' m /\
    Sim.scheduler sim' = Some (Basic (LoadBalancingScheduler s)) /\
    ~ LoadBalancingSpec.loads_are_remaining_sums s (Sim.heap sim')
        (Sim.all_processes sim').
Proof.
  eexists. eexists. eexists. split.
  { apply run_simulation_returns;
      [discriminate | discriminate | vm_compute; reflexivity]. }
  split; [reflexivity|].
  intros H. specialize (H 0%Z). vm_compute in H. discriminate.
Qed.

(** C9 (amended). When the Load Balancing policy binds a so far unassigned
    process to the requesting core, it records the assignment and adds the
    remaining time the process has at that moment to the core's load; when
    a bound process completes, [on_process_completion] replaces the load of
    its bound core by [max(0, load - burst time)], leaves the other loads
    alone and removes the assignment entry (it does nothing for a process
    without an entry). *)
Theorem load_balancing_bookkeeping (s : LoadBalancing.t) (h : Heap) :
  (forall core ready_queue current_time s' q sel,
     LoadBalancing.select_process s h core ready_queue current_time
     = Ok (s', q, Some sel) ->
     LoadBalancing.process_assignments s !! pid (h sel) = None ->
     LoadBalancing.process_assignments s' !! pid (h sel)
     = Some (CPU.core_id core) /\
     LoadBalancing.load_of s' (CPU.core_id core)
     = (LoadBalancing.load_of s (CPU.core_id core) + remaining_time (h sel))%Q /\
     (forall c, c <> CPU.core_id core ->
        LoadBalancing.load_of s' c = LoadBalancing.load_of s c)) /\
  (forall process current_time,
     let s' := LoadBalancing.on_process_completion s h process current_time in
     match LoadBalancing.process_assignments s !! pid (h process) with
     | Some c =>
         (LoadBalancing.load_of s' c
          == Qmax 0 (LoadBalancing.load_of s c - burst_time (h process)))%Q /\
         (forall c', c' <> c ->
            LoadBalancing.load_of s' c' = LoadBalancing.load_of s c') /\
         LoadBalancing.process_assignments s' !! pid (h process) = None
     | None => s' = s
     end).
Proof.
  split.
  - intros core rq t s' q sel Hsel Hnone.
    apply load_balancing_select_cases in Hsel
      as (_ & _ & [(Hs & _) | [(_ & ->) | (old & Hs & _)]]);
      try congruence.
    split; [apply lookup_insert_eq|]. split.
    + apply load_of_insert_eq.
    + intros c Hc. apply load_of_insert_ne. congruence.
  - intros process t s'. subst s'. unfold LoadBalancing.on_process_completion.
    destruct (LoadBalancing.process_assignments s !! pid (h process))
      as [c|]; [|reflexivity].
    split; [|split].
    + rewrite load_of_insert_eq. apply py_max_Qmax.
    + intros c' Hc. apply load_of_insert_ne. congruence.
    + simpl. apply lookup_delete_eq.
Qed.

Lemma load_balancing_bookkeeping_witness :
  let s := LoadBalancing.init (3 # 10) in
  let h := Examples.two_jobs 10 10 in
  let core := CPU.new_core 0 in
  exists s',
    LoadBalancing.select_process s h core [0%nat] 0 = Ok (s', [0%nat], Some 0%nat) /\
    LoadBalancing.process_assignments s' !! 0%Z = Some 0%Z /\
    LoadBalancing.load_of s' 0 = (LoadBalancing.load_of s 0 + 10)%Q.
Proof.
  intros s h core. eexists.
  match goal with |- ?A /\ _ => assert (H : A) by (vm_compute; reflexivity) end.
  split; [exact H|].
  destruct (proj1 (load_balancing_bookkeeping s h) core [0%nat] 0%Q _ _ _ H
              eq_refl) as (Ha & Hl & _).
  split; [exact Ha | exact Hl].
Defined.

(** ** Round Robin on several cores *)

(** C8 at its failing input.  Round Robin, two processes in the ready
    queue.  The first call (for core 0) returns process 0, which the engine
    removes from the ready queue; the second call (for core 1, ready queue
    now holding process 1 only) returns process 0 again, head of
    [rr_queue], which is not an element of the ready queue it was given. *)
Theorem round_robin_selects_outside_ready_queue :
  let h := Examples.two_jobs 3 3 in
  let rr := Basic (RoundRobinScheduler (RoundRobin.init (Finite 4))) in
  exists rr1 rr2,
    Sched.select_process rr h (CPU.new_core 0) [0%nat; 1%nat] 0
    = Ok (rr1, [0%nat; 1%nat], Some 0%nat) /\
    Sched.select_process rr1 h (CPU.new_core 1)
      (py_remove 0%nat [0%nat; 1%nat]) 0
    = Ok (rr2, [1%nat], Some 0%nat) /\
    ~ In 0%nat [1%nat].
Proof.
  intros h rr. eexists. eexists.
  split; [vm_compute; reflexivity|].
  split; [vm_compute; reflexivity|].
  intros [H|[]]. discriminate.
Qed.

(** C2 at its failing input.  Round Robin (quantum 4) on three cores with
    two processes arriving at time 0, burst 3 each, no time bound: process
    0 is dispatched to all three cores and appended to the completed list
    three times, more entries than processes were submitted, and the run
    ends with process 1 never executed. *)
Theorem round_robin_completes_a_process_thrice :
  let sim :=
    Examples.simulator 3 (Examples.two_jobs 3 3)
      (Basic (RoundRobinScheduler (RoundRobin.init (Finite 4))))
      [0%nat; 1%nat] in
  exists sim' m,
    Sim.run_simulation 2 sim None = Sim.Returns sim' m /\
    Sim.all_processes sim' = [0%nat; 1%nat] /\
    Sim.completed_processes sim' = [0%nat; 0%nat; 0%nat] /\
    (length (Sim.all_processes sim') < length (Sim.completed_processes sim'))%nat /\
    ~ NoDup (Sim.completed_processes sim') /\
    is_completed (Sim.heap sim' 1%nat) = false.
Proof.
  intros sim. eexists. eexists. split.
  { apply run_simulation_returns;
      [discriminate | discriminate | vm_compute; reflexivity]. }
  split; [reflexivity|]. split; [reflexivity|].
  split; [simpl; lia|]. split.
  - simpl. intros H. inversion H as [|x l Hnotin _]; subst.
    apply Hnotin. left; reflexivity.
  - vm_compute. reflexivity.
Qed.

(** ** What the policies return and remember *)

Lemma bind_Ok {A B : Type} (m : result A) (k : A -> result B) (b : B) :
  m ≫= k = Ok b -> exists a, m = Ok a /\ k a = Ok b.
Proof. destruct m as [a|e]; [eauto | discriminate]. Qed.

(** Inversion of a monadic step in a hypothesis. *)
Ltac inv_bind H :=
  let a := fresh "a" in
  let E := fresh "E" in
  apply bind_Ok in H as (a & E & H).

Lemma fcfs_select (h : Heap) (core : CPU.CPUCore) (rq : list ref) (t : Q)
    (q : list ref) (sel : option ref) :
  FCFS.select_process h core rq t = (q, sel) ->
  Permutation q rq /\ (forall r, sel = Some r -> In r rq).
Proof.
  unfold FCFS.select_process. destruct rq as [|r0 rest].
  - intros [= <- <-]. split; [reflexivity | discriminate].
  - remember (r0 :: rest) as l eqn:El. intros [= <- <-].
    split; [apply sort_by_Permutation|].
    intros r Hr. apply head_In in Hr. apply sort_by_In in Hr. exact Hr.
Qed.

Lemma sjf_select (s : SJF.t) (h : Heap) (core : CPU.CPUCore) (rq : list ref)
    (t : Q) (q : list ref) (sel : option ref) :
  SJF.select_process s h core rq t = (q, sel) ->
  Permutation q rq /\ (forall r, sel = Some r -> In r rq).
Proof.
  unfold SJF.select_process. destruct rq as [|r0 rest].
  - intros [= <- <-]. split; [reflexivity | discriminate].
  - remember (r0 :: rest) as l eqn:El. intros [= <- <-].
    split; [apply sort_by_Permutation|].
    intros r Hr. apply head_In in Hr. apply sort_by_In in Hr. exact Hr.
Qed.

Lemma enqueue_new_In (s : RoundRobin.t) (h : Heap) (rq : list ref) (r : ref) :
  In r (RoundRobin.rr_queue (RoundRobin.enqueue_new s h rq)) ->
  In r (RoundRobin.rr_queue s) \/ In r rq.
Proof.
  revert s. induction rq as [|p rest IH]; intros s; simpl; [tauto|].
  intros H. apply IH in H as [H|H]; [|tauto].
  destruct (negb (py_in p (RoundRobin.rr_queue s))); simpl in H; [|tauto].
  apply in_app_iff in H as [H|[<-|[]]]; tauto.
Qed.

Lemma round_robin_select (s : RoundRobin.t) (h : Heap) (core : CPU.CPUCore)
    (rq : list ref) (t : Q) (s' : RoundRobin.t) (q : list ref)
    (sel : option ref) :
  RoundRobin.select_process s h core rq t = (s', q, sel) ->
  q = rq /\
  (forall r, sel = Some r -> In r rq \/ In r (RoundRobin.rr_queue s)) /\
  (forall r, In r (RoundRobin.rr_queue s') ->
     In r (RoundRobin.rr_queue s) \/ In r rq).
Proof.
  unfold RoundRobin.select_process. intros [= <- <- <-].
  split; [reflexivity|]. split.
  - intros r Hr. apply head_In, enqueue_new_In in Hr. tauto.
  - intros r. apply enqueue_new_In.
Qed.

Lemma effective_priorities_snd (s : Priority.t) (h : Heap) (l : list ref) (t : Q) :
  map snd (snd (Priority.effective_priorities s h l t)) = l.
Proof.
  revert s. induction l as [|r rest IH]; intros s; simpl; [reflexivity|].
  destruct (Priority._get_effective_priority s h r t) as [s1 e].
  specialize (IH s1).
  destruct (Priority.effective_priorities s1 h rest t) as [s2 es].
  simpl in *. rewrite IH. reflexivity.
Qed.

Lemma priority_select (s : Priority.t) (h : Heap) (core : CPU.CPUCore)
    (rq : list ref) (t : Q) (s' : Priority.t) (q : list ref)
    (sel : option ref) :
  Priority.select_process s h core rq t = (s', q, sel) ->
  Permutation q rq /\ (forall r, sel = Some r -> In r rq).
Proof.
  unfold Priority.select_process. destruct rq as [|r0 rest].
  - intros [= <- <- <-]. split; [reflexivity | discriminate].
  - set (rq := r0 :: rest).
    set (s1 := if Priority._aging s then _ else s).
    pose proof (effective_priorities_snd s1 h rq t) as Hsnd.
    destruct (Priority.effective_priorities s1 h rq t) as [s2 keyed].
    simpl in Hsnd. intros [= <- <- <-].
    assert (Hperm : Permutation
              (map snd (sort_by le_QQZ
                 (fun er : Q * ref =>
                    (fst er, arrival_time (h (snd er)), pid (h (snd er))))
                 keyed)) rq).
    { rewrite <- Hsnd. apply Permutation_map, sort_by_Permutation. }
    split; [exact Hperm|].
    intros r Hr. apply head_In in Hr.
    eapply Permutation_in; [exact Hperm | exact Hr].
Qed.

Lemma load_balancing_select (s : LoadBalancing.t) (h : Heap)
    (core : CPU.CPUCore) (rq : list ref) (t : Q) (s' : LoadBalancing.t)
    (q : list ref) (sel : option ref) :
  LoadBalancing.select_process s h core rq t = Ok (s', q, sel) ->
  q = rq /\ (forall r, sel = Some r -> In r rq).
Proof.
  intros H. destruct sel as [r0|].
  - apply load_balancing_select_cases in H as (-> & Hin & _).
    split; [reflexivity|]. intros r [= <-]. exact Hin.
  - split; [|discriminate].
    unfold LoadBalancing.select_process in H.
    destruct rq as [|r0 rest]; [injection H as _ <- ; reflexivity|].
    destruct (LoadBalancing.by_remaining_then_arrival h
                (filter (fun r => _ = Some _) (r0 :: rest))); [|congruence].
    destruct (LoadBalancing.by_remaining_then_arrival h
                (filter (fun r => _ = None) (r0 :: rest))); [|congruence].
    inv_bind H. destruct a as [s1 st]. cbn in H. congruence.
Qed.

(** Work stealing: the local queues only ever receive processes from the
    ready queue or the staging queue. *)

Lemma queue_of_In (cq : list (Z * list ref)) (c : Z) (q : list ref) (r : ref) :
  WorkStealing.queue_of cq c = Ok q -> In r q -> in_queues cq r.
Proof.
  unfold in_queues.
  induction cq as [|[k q0] rest IH]; simpl; [discriminate|].
  destruct (Z.eqb k c).
  - intros [= ->] Hr. apply in_app_iff. left; exact Hr.
  - intros H Hr. apply in_app_iff. right. apply IH; assumption.
Qed.

Lemma set_queue_In (cq : list (Z * list ref)) (c : Z) (q : list ref) (r : ref) :
  in_queues (WorkStealing.set_queue cq c q) r -> in_queues cq r \/ In r q.
Proof.
  unfold in_queues.
  induction cq as [|[k q0] rest IH]; simpl; [tauto|].
  destruct (Z.eqb k c); simpl; rewrite !in_app_iff; tauto.
Qed.

Lemma drain_global_In (h : Heap) (g : list ref) (cq : list (Z * list ref))
    (pcm : gmap Z Z) (cq' : list (Z * list ref)) (pcm' : gmap Z Z) (r : ref) :
  WorkStealing.drain_global h g cq pcm = Ok (cq', pcm') ->
  in_queues cq' r -> in_queues cq r \/ In r g.
Proof.
  revert cq pcm. induction g as [|p rest IH]; intros cq pcm; simpl.
  - intros [= <- <-]. tauto.
  - destruct cq as [|k0 ks]; [discriminate|].
    intros H Hr. inv_bind H.
    apply (IH _ _ H) in Hr as [Hr|Hr]; [|tauto].
    apply set_queue_In in Hr as [Hr|Hr]; [tauto|].
    apply in_app_iff in Hr as [Hr|[<-|[]]]; [|tauto].
    left. eapply queue_of_In; eassumption.
Qed.

Lemma distribute_knows (s : WorkStealing.t) (h : Heap) (rq : list ref)
    (s' : WorkStealing.t) (r : ref) :
  WorkStealing._distribute_new_processes s h rq = Ok s' ->
  policy_knows (WorkStealingScheduler s') r ->
  policy_knows (WorkStealingScheduler s) r \/ In r rq.
Proof.
  unfold WorkStealing._distribute_new_processes. intros H.
  inv_bind H. destruct a as [cq pcm]. cbn in H. revert H; intros [= <-]. simpl.
  intros [Hr|[]].
  apply (drain_global_In _ _ _ _ _ _ _ E) in Hr as [Hr|Hr]; [tauto|].
  apply in_app_iff in Hr as [Hr|Hr]; [tauto|].
  apply filter_In in Hr. tauto.
Qed.

Lemma last_In {A : Type} (l : list A) (x : A) : last l = Some x -> In x l.
Proof.
  induction l as [|y l IH]; simpl; [discriminate|].
  destruct l as [|z l']; [intros [= ->]; tauto|].
  intros H. right. apply IH. exact H.
Qed.

Lemma removelast_In {A : Type} (l : list A) (x : A) :
  In x (removelast l) -> In x l.
Proof.
  induction l as [|y l IH]; simpl; [tauto|].
  destruct l as [|z l']; [tauto|]. simpl. simpl in IH. tauto.
Qed.

Lemma steal_work_knows (s : WorkStealing.t) (h : Heap) (thief : Z) (t : Q)
    (s' : WorkStealing.t) (sel : option ref) :
  WorkStealing._steal_work s h thief t = Ok (s', sel) ->
  (forall r, sel = Some r -> policy_knows (WorkStealingScheduler s) r) /\
  (forall r, policy_knows (WorkStealingScheduler s') r ->
     policy_knows (WorkStealingScheduler s) r).
Proof.
  unfold WorkStealing._steal_work.
  destruct (List.filter _ _) as [|v0 vs].
  { intros [= <- <-]. split; [intros ? [=] | tauto]. }
  destruct (shuffle (v0 :: vs) (WorkStealing.random s)) as [shuffled g].
  intros H. inv_bind H.
  destruct a as [victim|]; cbv beta iota zeta in H.
  2: { simplify_eq. split; [intros ? [=] | intros r Hr; exact Hr]. }
  inv_bind H. rename a into vq. rename E0 into Hq.
  destruct (Nat.leb 2 (length vq)).
  2: { simplify_eq. split; [intros ? [=] | intros r Hr; exact Hr]. }
  destruct (last vq) as [stolen|] eqn:El.
  2: { simplify_eq. split; [intros ? [=] | intros r Hr; exact Hr]. }
  simplify_eq. simpl. split.
  - intros r [= <-]. left. eapply queue_of_In; [exact Hq|].
    apply last_In, El.
  - intros r [Hr|Hr]; [|tauto].
    apply set_queue_In in Hr as [Hr|Hr]; [tauto|].
    left. eapply queue_of_In; [exact Hq|]. apply removelast_In, Hr.
Qed.

Lemma work_stealing_select (s : WorkStealing.t) (h : Heap)
    (core : CPU.CPUCore) (rq : list ref) (t : Q) (s' : WorkStealing.t)
    (q : list ref) (sel : option ref) :
  WorkStealing.select_process s h core rq t = Ok (s', q, sel) ->
  q = rq /\
  (forall r, sel = Some r ->
     In r rq \/ policy_knows (WorkStealingScheduler s) r) /\
  (forall r, policy_knows (WorkStealingScheduler s') r ->
     policy_knows (WorkStealingScheduler s) r \/ In r rq).
Proof.
  unfold WorkStealing.select_process. intros H.
  inv_bind H. rename a into s1. rename E into Hd. inv_bind H.
  rename a into lq. rename E into Hq.
  destruct lq as [|p rest].
  - inv_bind H. destruct a as [s2 stolen]. cbn in H. simplify_eq.
    apply steal_work_knows in E as [Hsel Hk].
    split; [reflexivity|]. split.
    + intros r Hr. apply Hsel in Hr.
      apply (distribute_knows _ _ _ _ _ Hd) in Hr. tauto.
    + intros r Hr. apply Hk in Hr. apply (distribute_knows _ _ _ _ _ Hd) in Hr.
      exact Hr.
  - simplify_eq. split; [reflexivity|]. split.
    + intros r [= <-].
      assert (policy_knows (WorkStealingScheduler s1) p) as Hr.
      { left. eapply queue_of_In; [exact Hq | left; reflexivity]. }
      apply (distribute_knows _ _ _ _ _ Hd) in Hr. tauto.
    + simpl. intros r [Hr|Hr].
      * apply set_queue_In in Hr as [Hr|Hr].
        -- apply (distribute_knows _ _ _ _ r Hd). left; exact Hr.
        -- apply (distribute_knows _ _ _ _ r Hd). left.
           eapply queue_of_In; [exact Hq | right; exact Hr].
      * apply (distribute_knows _ _ _ _ r Hd). right; exact Hr.
Qed.

Lemma policy_select (p : Policy) (h : Heap) (core : CPU.CPUCore)
    (rq : list ref) (t : Q) (p' : Policy) (q : list ref) (sel : option ref) :
  Policy.select_process p h core rq t = Ok (p', q, sel) ->
  Permutation q rq /\
  (forall r, sel = Some r -> In r rq \/ policy_knows p r) /\
  (forall r, policy_knows p' r -> policy_knows p r \/ In r rq).
Proof.
  destruct p as [|s|s|s|s|s]; unfold Policy.select_process.
  - destruct (FCFS.select_process h core rq t) as [q0 sel0] eqn:E.
    intros [= <- <- <-]. apply fcfs_select in E as [Hp Hs].
    split; [exact Hp|]. split; [intros r Hr; left; auto | simpl; tauto].
  - destruct (SJF.select_process s h core rq t) as [q0 sel0] eqn:E.
    intros [= <- <- <-]. apply sjf_select in E as [Hp Hs].
    split; [exact Hp|]. split; [intros r Hr; left; auto | simpl; tauto].
  - destruct (RoundRobin.select_process s h core rq t) as [[s0 q0] sel0] eqn:E.
    intros [= <- <- <-]. apply round_robin_select in E as (-> & Hs & Hk).
    split; [reflexivity|]. split; [exact Hs | exact Hk].
  - destruct (Priority.select_process s h core rq t) as [[s0 q0] sel0] eqn:E.
    intros [= <- <- <-]. apply priority_select in E as [Hp Hs].
    split; [exact Hp|]. split; [intros r Hr; left; auto | simpl; tauto].
  - intros H. inv_bind H. destruct a as [[s0 q0] sel0].
    cbv beta iota zeta in H. simplify_eq.
    apply load_balancing_select in E as [-> Hs].
    split; [reflexivity|]. split; [intros r Hr; left; auto | simpl; tauto].
  - intros H. inv_bind H. destruct a as [[s0 q0] sel0].
    cbv beta iota zeta in H. simplify_eq.
    apply work_stealing_select in E as (-> & Hs & Hk).
    split; [reflexivity|]. split; [exact Hs | exact Hk].
Qed.

Lemma knows_set_current (a : Adaptive.t) (p : Policy) (r : ref) :
  knows (AdaptiveScheduler (Adaptive.set_current_scheduler a p)) r ->
  policy_knows p r \/ knows (AdaptiveScheduler a) r.
Proof.
  simpl. intros [name H]. unfold Adaptive.put in H.
  destruct (Adaptive.Name_eqb name (Adaptive.current_scheduler_name a)).
  - left; exact H.
  - right. exists name. exact H.
Qed.

Lemma knows_current (a : Adaptive.t) (r : ref) :
  policy_knows (Adaptive.current_scheduler a) r ->
  knows (AdaptiveScheduler a) r.
Proof. intros H. exists (Adaptive.current_scheduler_name a). exact H. Qed.

Lemma adapt_scheduler_schedulers (a : Adaptive.t) (h : Heap) (rq : list ref)
    (t : Q) (a' : Adaptive.t) :
  Adaptive._adapt_scheduler a h rq t = Ok a' ->
  Adaptive.schedulers a' = Adaptive.schedulers a.
Proof.
  unfold Adaptive._adapt_scheduler. intros H. inv_bind H.
  simplify_eq. reflexivity.
Qed.

Lemma adaptive_select (a : Adaptive.t) (h : Heap) (core : CPU.CPUCore)
    (rq : list ref) (t : Q) (a' : Adaptive.t) (q : list ref)
    (sel : option ref) :
  Adaptive.select_process a h core rq t = Ok (a', q, sel) ->
  Permutation q rq /\
  (forall r, sel = Some r -> In r rq \/ knows (AdaptiveScheduler a) r) /\
  (forall r, knows (AdaptiveScheduler a') r ->
     knows (AdaptiveScheduler a) r \/ In r rq).
Proof.
  unfold Adaptive.select_process. intros H. inv_bind H.
  rename a0 into a1. rename E into Ha.
  assert (Hsch : Adaptive.schedulers a1 = Adaptive.schedulers a).
  { destruct (Qle_bool _ _).
    - inv_bind Ha. simplify_eq. simpl.
      eapply adapt_scheduler_schedulers; eassumption.
    - simplify_eq. reflexivity. }
  inv_bind H. destruct a0 as [[p q0] sel0]. cbv beta iota zeta in H.
  simplify_eq. apply policy_select in E as (Hp & Hs & Hk).
  assert (Hsame : forall r, knows (AdaptiveScheduler a1) r
                            -> knows (AdaptiveScheduler a) r).
  { intros r [name Hr]. exists name. rewrite <- Hsch. exact Hr. }
  split; [exact Hp|]. split.
  - intros r Hr. destruct (Hs r Hr) as [H|H]; [tauto|].
    right. apply Hsame, knows_current, H.
  - intros r Hr. apply knows_set_current in Hr as [Hr|Hr].
    + destruct (Hk r Hr) as [H|H]; [|tauto].
      left. apply Hsame, knows_current, H.
    + left. apply Hsame, Hr.
Qed.

Lemma sched_select (s : Scheduler) (h : Heap) (core : CPU.CPUCore)
    (rq : list ref) (t : Q) (s' : Scheduler) (q : list ref)
    (sel : option ref) :
  Sched.select_process s h core rq t = Ok (s', q, sel) ->
  Permutation q rq /\
  (forall r, sel = Some r -> In r rq \/ knows s r) /\
  (forall r, knows s' r -> knows s r \/ In r rq).
Proof.
  destruct s as [p|ad]; unfold Sched.select_process; intros H; inv_bind H;
    destruct a as [[x q0] sel0]; cbv beta iota zeta in H; simplify_eq.
  - apply policy_select in E. exact E.
  - apply adaptive_select in E. exact E.
Qed.

Lemma policy_on_arrival_knows (p : Policy) (h : Heap) (process : ref) (t : Q)
    (r : ref) :
  policy_knows (Policy.on_process_arrival p h process t) r -> policy_knows p r.
Proof. destruct p; simpl; tauto. Qed.

Lemma concat_map_remove_In (process : ref) (cq : list (Z * list ref)) (r : ref) :
  In r (concat (map snd
          (map (fun kq : Z * list ref =>
                  (fst kq,
                   if py_in process (snd kq) then py_remove process (snd kq)
                   else snd kq)) cq))) ->
  In r (concat (map snd cq)).
Proof.
  induction cq as [|[k q] rest IH]; simpl; [tauto|].
  rewrite !in_app_iff. intros [H|H]; [left | right; apply IH, H].
  destruct (py_in process q); [eapply py_remove_In; exact H | exact H].
Qed.

Lemma policy_on_completion_knows (p : Policy) (h : Heap) (process : ref)
    (t : Q) (r : ref) :
  policy_knows (Policy.on_process_completion p h process t) r ->
  policy_knows p r.
Proof.
  destruct p as [|s|s|s|s|s]; simpl; try tauto.
  - destruct (py_in process (RoundRobin.rr_queue s)); [|tauto].
    apply py_remove_In.
  - intros [H|H]; [left; eapply concat_map_remove_In; exact H | tauto].
Qed.

Lemma policy_should_preempt_knows (p : Policy) (h : Heap) (cur : ref)
    (rq : list ref) (t : Q) (r : ref) :
  policy_knows (fst (Policy.should_preempt p h cur rq t)) r -> policy_knows p r.
Proof.
  destruct p as [|s|s|s|s|s]; simpl; try tauto.
  destruct (Priority.should_preempt s h cur rq t); simpl. tauto.
Qed.

Lemma sched_on_arrival_knows (s : Scheduler) (h : Heap) (process : ref) (t : Q)
    (r : ref) :
  knows (Sched.on_process_arrival s h process t) r -> knows s r.
Proof.
  destruct s as [p|a]; simpl.
  - apply policy_on_arrival_knows.
  - intros H. apply (knows_set_current a) in H as [H|H]; [|exact H].
    apply policy_on_arrival_knows in H. apply knows_current, H.
Qed.

Lemma sched_on_completion_knows (s : Scheduler) (h : Heap) (process : ref)
    (t : Q) (r : ref) :
  knows (Sched.on_process_completion s h process t) r -> knows s r.
Proof.
  destruct s as [p|a]; simpl.
  - apply policy_on_completion_knows.
  - unfold Adaptive.on_process_completion.
    destruct (Nat.ltb 20 _); cbv beta iota zeta; intros H;
      apply knows_set_current in H as [H|H].
    + apply policy_on_completion_knows in H. apply knows_current, H.
    + exact H.
    + apply policy_on_completion_knows in H. apply knows_current, H.
    + exact H.
Qed.

Lemma sched_should_preempt_knows (s : Scheduler) (h : Heap) (cur : ref)
    (rq : list ref) (t : Q) (r : ref) :
  knows (fst (Sched.should_preempt s h cur rq t)) r -> knows s r.
Proof.
  destruct s as [p|a]; unfold Sched.should_preempt.
  - pose proof (policy_should_preempt_knows p h cur rq t r) as H.
    destruct (Policy.should_preempt p h cur rq t). exact H.
  - unfold Adaptive.should_preempt.
    pose proof (policy_should_preempt_knows (Adaptive.current_scheduler a)
                  h cur rq t r) as H.
    destruct (Policy.should_preempt (Adaptive.current_scheduler a) h cur rq t)
      as [p b].
    simpl in *. intros Hk.
    apply (knows_set_current a p r) in Hk as [Hk|Hk]; [|exact Hk].
    apply knows_current, H, Hk.
Qed.

Lemma sched_rotate_knows (s : Scheduler) (h : Heap) (process : ref) (r : ref) :
  knows (Sched.rotate_queue_if_any s h process) r -> knows s r.
Proof.
  destruct s as [p|a]; [|tauto].
  destruct p as [|s|s|s|s|s]; try tauto.
  simpl. unfold RoundRobin.rotate_queue.
  destruct (py_in process (RoundRobin.rr_queue s)) eqn:E; [|tauto].
  apply py_in_In in E.
  destruct (negb (is_completed (h process))); simpl.
  - intros H. apply in_app_iff in H as [H|[<-|[]]]; [|exact E].
    eapply py_remove_In; exact H.
  - apply py_remove_In.
Qed.

Lemma sched_reset_knows (s : Scheduler) (r : ref) :
  ~ knows (Sched.reset s) r.
Proof.
  assert (Hq : forall n, concat (map snd (WorkStealing.empty_queues n)) = []).
  { intros n. unfold WorkStealing.empty_queues.
    induction (range n) as [|i l IH]; simpl; [reflexivity | exact IH]. }
  assert (Hp : forall p, ~ policy_knows (Policy.reset p) r).
  { intros p. destruct p as [|x|x|x|x|x]; simpl; try tauto.
    rewrite Hq. simpl. tauto. }
  destruct s as [p|a]; simpl.
  - apply Hp.
  - intros [name H]. exact (Hp _ H).
Qed.

(** ** Timing fields under the engine's operations *)

Lemma timing_ok_execute (p : Process) (ts : Time) (ct : Q) (core : Z) :
  timing_ok p -> (arrival_time p <= ct)%Q ->
  timing_ok (fst (execute p ts ct core)).
Proof.
  intros (Hst & Hstart & Hterm) Harr.
  pose proof (execute_state p ts ct core) as Es.
  pose proof (execute_start p ts ct core) as Est. cbv zeta in Est.
  pose proof (execute_frame p ts ct core) as (_ & Ea & Eb & _).
  unfold timing_ok. rewrite Ea, Eb, Es.
  assert (Hstart' : forall s,
            start_time (fst (execute p ts ct core)) = Some s ->
            (response_time (fst (execute p ts ct core)) == s - arrival_time p)%Q
            /\ (arrival_time p <= s)%Q).
  { intros s Hs.
    destruct (state p) eqn:E1, (start_time p) as [s0|] eqn:E2;
      destruct Est as [Est1 Est2]; rewrite Est2;
      rewrite Est1 in Hs;
      first [ discriminate Hs
            | injection Hs as <-;
              first [ apply Hstart; reflexivity
                    | split; [reflexivity | exact Harr] ] ]. }
  assert (Hsome : exists s, start_time (fst (execute p ts ct core)) = Some s).
  { destruct (state p) eqn:E1, (start_time p) as [s0|] eqn:E2;
      destruct Est as [Est1 _]; rewrite Est1; eauto;
      destruct Hst as [Hc | [Hc | Hc]]; try discriminate Hc;
      destruct (Hterm eq_refl) as [[s1 Hs1] _]; discriminate Hs1. }
  split; [|split].
  - destruct (finishes p ts); tauto.
  - exact Hstart'.
  - intros Ht. split; [exact Hsome|].
    destruct (finishes p ts) eqn:Ef; [|discriminate Ht].
    destruct (execute_finished p ts ct core Ef) as (Hc & Htt & Hw).
    eexists. split; [exact Hc|]. rewrite Htt, Hw. split; lra.
Qed.

Lemma timing_ok_ready (p : Process) :
  timing_ok p -> timing_ok (set_state READY p).
Proof.
  intros (Hst & Hstart & Hterm). unfold timing_ok. simpl.
  split; [tauto|]. split; [exact Hstart | discriminate].
Qed.

Lemma timing_ok_reset (p : Process) : timing_ok (Sim.reset_process p).
Proof.
  unfold timing_ok, Sim.reset_process. simpl.
  split; [tauto|]. split; [discriminate | discriminate].
Qed.

(** ** The engine keeps its invariant *)

Arguments upd : simpl never.

Lemma arrived_mono (procs : list ref) (n n' : nat) (r : ref) :
  (n <= n')%nat -> arrived procs n r -> arrived procs n' r.
Proof.
  unfold arrived. revert n n'.
  induction procs as [|x l IH]; intros n n' Hle; [destruct n, n'; simpl; tauto|].
  destruct n as [|n]; [simpl; tauto|].
  destruct n' as [|n']; [lia|]. simpl.
  intros [H|H]; [left; exact H | right; apply (IH n n'); [lia | exact H]].
Qed.

Lemma arrived_In (procs : list ref) (n : nat) (r : ref) :
  arrived procs n r -> In r procs.
Proof.
  unfold arrived. intros H. rewrite <- (take_drop n procs).
  apply in_app_iff. left; exact H.
Qed.

Lemma arrived_S (procs : list ref) (n : nat) (x r : ref) :
  procs !! n = Some x ->
  arrived procs (S n) r <-> arrived procs n r \/ r = x.
Proof.
  intros Hx. unfold arrived. rewrite (take_S_r _ _ _ Hx), in_app_iff.
  simpl. intuition.
Qed.

Lemma drop_head_lookup (procs : list ref) (n : nat) (x : ref) (rest : list ref) :
  drop n procs = x :: rest -> procs !! n = Some x /\ drop (S n) procs = rest.
Proof.
  intros H.
  assert (Hx : procs !! n = Some x).
  { pose proof (lookup_drop procs n 0) as E. rewrite H in E. simpl in E.
    rewrite Nat.add_0_r in E. symmetry. exact E. }
  split; [exact Hx|].
  rewrite (drop_S _ _ _ Hx) in H. congruence.
Qed.

Lemma drop_nil_lookup (procs : list ref) (n : nat) :
  drop n procs = [] -> procs !! n = None.
Proof.
  intros H. pose proof (lookup_drop procs n 0) as E. rewrite H in E.
  simpl in E. rewrite Nat.add_0_r in E. symmetry. exact E.
Qed.

Lemma upd_same (h : Heap) (r : ref) (p : Process) : upd h r p r = p.
Proof. unfold upd. rewrite Nat.eqb_refl. reflexivity. Qed.

Lemma upd_cases (h : Heap) (r r' : ref) (p : Process) :
  (r' = r /\ upd h r p r' = p) \/ (r' <> r /\ upd h r p r' = h r').
Proof.
  unfold upd. destruct (Nat.eqb_spec r' r); [left | right]; tauto.
Qed.

Lemma same_frame_refl (sim : Sim.Simulator) : same_frame sim sim.
Proof. repeat split. Qed.

Lemma same_frame_trans (a b c : Sim.Simulator) :
  same_frame a b -> same_frame b c -> same_frame a c.
Proof.
  intros (H1 & H2 & H3) (H4 & H5 & H6).
  split; [congruence|]. split; [congruence|].
  intros r. rewrite H6. apply H3.
Qed.

Lemma cpu_preempt_spec (c : CPU.CPUCore) (t : Q) :
  CPU.current_process (fst (CPU.preempt_current_process c t)) = None /\
  snd (CPU.preempt_current_process c t) = CPU.current_process c.
Proof.
  unfold CPU.preempt_current_process.
  destruct (CPU.current_process c) eqn:E; simpl; [split; reflexivity|].
  split; [exact E | reflexivity].
Qed.

Lemma cpu_execute_spec (c : CPU.CPUCore) (h : Heap) (ts : Time) (ct : Q) :
  let '(c', h', actual) := CPU.execute_current_process c h ts ct in
  (forall r, CPU.current_process c' = Some r -> CPU.current_process c = Some r) /\
  match CPU.current_process c with
  | Some r => h' = upd h r (fst (execute (h r) ts ct (CPU.core_id c)))
  | None => h' = h /\ actual = None
  end.
Proof.
  unfold CPU.execute_current_process.
  destruct (CPU.current_process c) as [r|] eqn:E.
  - destruct (execute (h r) ts ct (CPU.core_id c)) as [p' a]. simpl.
    destruct (is_completed p'); simpl; split; try reflexivity;
      try (intros r0 Hr0; congruence).
  - simpl. split; [intros r Hr; congruence | split; reflexivity].
Qed.

Section Engine.
Variable procs : list ref.

Lemma add_arrivals_ok (pending : list ref) :
  forall (sim : Sim.Simulator) (n : nat) (sim' : Sim.Simulator) (n' : nat),
  drop n procs = pending ->
  engine_ok procs n sim ->
  Sim.add_arrivals sim n pending = Ok (sim', n') ->
  engine_ok procs n' sim' /\ (n <= n')%nat /\
  Sim.cores sim' = Sim.cores sim /\
  Sim.current_time sim' = Sim.current_time sim /\
  (forall next, procs !! n' = Some next ->
     (Sim.current_time sim' < arrival_time (Sim.heap sim' next))%Q).
Proof.
  induction pending as [|process rest IH]; intros sim n sim' n' Hd Hok; simpl.
  - intros [= <- <-]. split; [assumption|]. split; [lia|].
    split; [reflexivity|]. split; [reflexivity|].
    intros next Hn. rewrite (drop_nil_lookup _ _ Hd) in Hn. discriminate.
  - apply drop_head_lookup in Hd as [Hx Hrest].
    destruct (Qle_bool (arrival_time (Sim.heap sim process))
                (Sim.current_time sim)) eqn:Earr.
    + destruct Hok as [Hall Htim Harr Hrq (s & Hs & Hk)].
      unfold Sim.the_scheduler. simpl. rewrite Hs. simpl.
      intros H. apply IH in H; [|exact Hrest|].
      * destruct H as (H1 & H2 & H3 & H4 & H5).
        split; [assumption|]. split; [lia|].
        split; [assumption|]. split; assumption.
      * apply Qle_bool_iff in Earr.
        split; simpl.
        -- exact Hall.
        -- intros r Hr.
           destruct (upd_cases (Sim.heap sim) process r
                       (set_state READY (Sim.heap sim process)))
             as [[-> ->] | [_ ->]];
             [apply timing_ok_ready|]; apply Htim; try exact Hr.
        -- intros r Hr. apply (arrived_S _ _ _ _ Hx) in Hr.
           destruct (upd_cases (Sim.heap sim) process r
                       (set_state READY (Sim.heap sim process)))
             as [[-> ->] | [Hne ->]]; simpl; [exact Earr|].
           destruct Hr as [Hr | ->]; [apply Harr, Hr | contradiction].
        -- intros r Hr. apply (arrived_S _ _ _ _ Hx).
           apply in_app_iff in Hr as [Hr|[<-|[]]]; [left; apply Hrq, Hr | tauto].
        -- eexists. split; [reflexivity|].
           intros r Hr. apply sched_on_arrival_knows in Hr.
           apply (arrived_S _ _ _ _ Hx). left. apply Hk, Hr.
    + intros [= <- <-]. split; [assumption|]. split; [lia|].
      split; [reflexivity|]. split; [reflexivity|].
      intros next Hn. rewrite Hx in Hn. injection Hn as <-.
      apply Qnot_le_lt. intros Hle. apply Qle_bool_iff in Hle. congruence.
Qed.

Lemma assign_one_ok (sim : Sim.Simulator) (n : nat) (core : CPU.CPUCore)
    (sim' : Sim.Simulator) (core' : CPU.CPUCore) :
  engine_ok procs n sim -> core_ok procs n core ->
  Sim.assign_one sim core = Ok (sim', core') ->
  engine_ok procs n sim' /\ core_ok procs n core' /\ same_frame sim sim' /\
  Sim.cores sim' = Sim.cores sim.
Proof.
  intros Hok Hcore. unfold Sim.assign_one.
  destruct (CPU.is_idle core && _).
  2: { intros [= <- <-]. split; [exact Hok|]. split; [exact Hcore|].
       split; [apply same_frame_refl | reflexivity]. }
  destruct Hok as [Hall Htim Harr Hrq (s & Hs & Hk)].
  unfold Sim.the_scheduler. rewrite Hs. intros H. inv_bind H.
  injection E as <-. inv_bind H.
  destruct a as [[s1 q] sel]. cbv beta iota zeta in H.
  apply sched_select in E as (Hperm & Hsel & Hknows).
  assert (Hq : forall r, In r q -> arrived procs n r).
  { intros r Hr. apply Hrq. eapply Permutation_in; [exact Hperm | exact Hr]. }
  assert (Hk1 : forall r, knows s1 r -> arrived procs n r).
  { intros r Hr. destruct (Hknows r Hr) as [H1|H1]; [apply Hk, H1 | apply Hrq, H1]. }
  destruct sel as [selected|].
  - assert (Harrd : arrived procs n selected).
    { destruct (Hsel selected eq_refl) as [H1|H1]; [apply Hrq, H1 | apply Hk, H1]. }
    simpl in H. destruct (py_in selected q); injection H as <- <-.
    + split.
      { split; simpl; try assumption.
        - intros r Hr. apply Hq. eapply py_remove_In; exact Hr.
        - eauto. }
      split; [intros r; simpl; intros [= <-]; exact Harrd|].
      split; [repeat split | reflexivity].
    + split.
      { split; simpl; try assumption. eauto. }
      split; [intros r; simpl; intros [= <-]; exact Harrd|].
      split; [repeat split | reflexivity].
  - injection H as <- <-. split.
    { split; simpl; try assumption. eauto. }
    split; [exact Hcore|]. split; [repeat split | reflexivity].
Qed.

Lemma assign_loop_ok (todo : list CPU.CPUCore) :
  forall (sim : Sim.Simulator) (n : nat) (done : list CPU.CPUCore)
         (sim' : Sim.Simulator) (cs : list CPU.CPUCore),
  engine_ok procs n sim -> cores_ok procs n done -> cores_ok procs n todo ->
  Sim.assign_loop sim done todo = Ok (sim', cs) ->
  engine_ok procs n sim' /\ cores_ok procs n cs /\ same_frame sim sim'.
Proof.
  induction todo as [|core rest IH]; intros sim n done sim' cs Hok Hd Ht; simpl.
  - intros [= <- <-]. split; [exact Hok|]. split; [exact Hd|].
    apply same_frame_refl.
  - intros H. inv_bind H. destruct a as [sim1 core1].
    cbv beta iota zeta in H.
    apply assign_one_ok with (n := n) in E as (Hok1 & Hc1 & Hf1 & _);
      [|exact Hok | intros r Hr; apply (Ht core r); [left; reflexivity | exact Hr]].
    apply IH with (n := n) in H as (Hok2 & Hcs & Hf2); [| exact Hok1 | |].
    + split; [exact Hok2|]. split; [exact Hcs|].
      eapply same_frame_trans; eassumption.
    + intros c r Hc Hr. apply in_app_iff in Hc as [Hc|[<-|[]]];
        [apply (Hd c r Hc Hr) | apply Hc1, Hr].
    + intros c r Hc Hr. apply (Ht c r); [right; exact Hc | exact Hr].
Qed.

Lemma assign_processes_ok (sim : Sim.Simulator) (n : nat)
    (sim' : Sim.Simulator) :
  engine_ok procs n sim -> cores_ok procs n (Sim.cores sim) ->
  Sim._assign_processes_to_cores sim = Ok sim' ->
  engine_ok procs n sim' /\ cores_ok procs n (Sim.cores sim') /\
  same_frame sim sim'.
Proof.
  intros Hok Hc. unfold Sim._assign_processes_to_cores. intros H.
  inv_bind H. destruct a as [sim1 cs]. cbv beta iota zeta in H.
  injection H as <-.
  apply assign_loop_ok with (n := n) in E as (Hok1 & Hcs & Hf);
    [|exact Hok | intros c r [] | exact Hc].
  destruct Hok1 as [Hall Htim Harr Hrq Hs].
  split; [split; simpl; assumption|]. split; [exact Hcs|].
  destruct Hf as (F1 & F2 & F3). repeat split; assumption.
Qed.

Lemma engine_ok_ready (sim : Sim.Simulator) (n : nat) (q : list ref) :
  engine_ok procs n sim -> (forall r, In r q -> arrived procs n r) ->
  engine_ok procs n (Sim.with_ready_queue q sim).
Proof. intros [Hall Htim Harr Hrq Hs] Hq. split; simpl; assumption. Qed.

Lemma engine_ok_ready_app (sim : Sim.Simulator) (n : nat) (r : ref) :
  engine_ok procs n sim -> arrived procs n r ->
  engine_ok procs n (Sim.with_ready_queue (Sim.ready_queue sim ++ [r]) sim).
Proof.
  intros Hok Hr. apply engine_ok_ready; [exact Hok|].
  intros x Hx. apply in_app_iff in Hx as [Hx|[<-|[]]]; [|exact Hr].
  apply (ok_ready _ _ _ Hok), Hx.
Qed.

Lemma engine_ok_sched (sim : Sim.Simulator) (n : nat) (s : Scheduler) :
  engine_ok procs n sim -> (forall r, knows s r -> arrived procs n r) ->
  engine_ok procs n (Sim.with_scheduler s sim).
Proof.
  intros [Hall Htim Harr Hrq Hs] Hk. split; simpl; try assumption. eauto.
Qed.

Lemma engine_ok_completed (sim : Sim.Simulator) (n : nat) (l : list ref) :
  engine_ok procs n sim -> engine_ok procs n (Sim.with_completed l sim).
Proof. intros [Hall Htim Harr Hrq Hs]. split; simpl; assumption. Qed.

Lemma engine_ok_execute (sim : Sim.Simulator) (n : nat) (r : ref)
    (ts : Time) (c : Z) :
  engine_ok procs n sim -> arrived procs n r ->
  let sim' :=
    Sim.with_heap
      (upd (Sim.heap sim) r
         (fst (execute (Sim.heap sim r) ts (Sim.current_time sim) c))) sim in
  engine_ok procs n sim' /\ same_frame sim sim'.
Proof.
  intros [Hall Htim Harr Hrq Hs] Hr sim'. subst sim'.
  pose proof (execute_frame (Sim.heap sim r) ts (Sim.current_time sim) c)
    as (_ & Ea & _).
  assert (Hframe : forall x,
            arrival_time
              (upd (Sim.heap sim) r
                 (fst (execute (Sim.heap sim r) ts (Sim.current_time sim) c)) x)
            = arrival_time (Sim.heap sim x)).
  { intros x.
    destruct (upd_cases (Sim.heap sim) r x
                (fst (execute (Sim.heap sim r) ts (Sim.current_time sim) c)))
      as [[E1 E2] | [_ E2]]; rewrite E2; [subst x; exact Ea | reflexivity]. }
  split.
  - split; [exact Hall | | | exact Hrq | exact Hs].
    + intros x Hx. cbn [Sim.heap Sim.with_heap].
      destruct (upd_cases (Sim.heap sim) r x
                  (fst (execute (Sim.heap sim r) ts (Sim.current_time sim) c)))
        as [[E1 E2] | [_ E2]]; rewrite E2; [|apply Htim, Hx].
      subst x. apply timing_ok_execute; [apply Htim, Hx | apply Harr, Hr].
    + intros x Hx. cbn [Sim.heap Sim.with_heap Sim.current_time].
      rewrite Hframe. apply Harr, Hx.
  - split; [reflexivity|]. split; [reflexivity|]. exact Hframe.
Qed.

Lemma same_frame_fields (sim sim' : Sim.Simulator) :
  Sim.all_processes sim' = Sim.all_processes sim ->
  Sim.current_time sim' = Sim.current_time sim ->
  Sim.heap sim' = Sim.heap sim ->
  same_frame sim sim'.
Proof. intros H1 H2 H3. split; [|split]; try assumption. intros r. rewrite H3. reflexivity. Qed.

Lemma execute_one_ok (sim : Sim.Simulator) (n : nat) (tq : Time)
    (m : option Q) (core : CPU.CPUCore) (sim' : Sim.Simulator)
    (m' : option Q) (core' : CPU.CPUCore) :
  engine_ok procs n sim -> core_ok procs n core ->
  Sim.execute_one sim tq m core = Ok (sim', m', core') ->
  engine_ok procs n sim' /\ core_ok procs n core' /\ same_frame sim sim'.
Proof.
  intros Hok Hcore. unfold Sim.execute_one.
  destruct (negb (CPU.is_idle core)).
  2: { intros [= <- <- <-]. split; [exact Hok|]. split; [exact Hcore|].
       apply same_frame_refl. }
  unfold CPU.get_current_process.
  destruct (CPU.current_process core) as [cur|] eqn:Ecur; [|discriminate].
  pose proof (Hcore cur Ecur) as Hcur.
  destruct (ok_sched _ _ _ Hok) as (s & Hs & Hk).
  unfold Sim.the_scheduler. rewrite Hs. intros H. inv_bind H.
  injection E as <-.
  pose proof (sched_should_preempt_knows s (Sim.heap sim) cur
                (Sim.ready_queue sim) (Sim.current_time sim)) as Hsp.
  destruct (Sched.should_preempt s (Sim.heap sim) cur (Sim.ready_queue sim)
              (Sim.current_time sim)) as [s1 preempt].
  simpl in Hsp.
  assert (Hok1 : engine_ok procs n (Sim.with_scheduler s1 sim)).
  { apply engine_ok_sched; [exact Hok|]. intros r Hr. apply Hk, Hsp, Hr. }
  set (sim1 := Sim.with_scheduler s1 sim) in *.
  assert (Hf1 : same_frame sim sim1) by (apply same_frame_fields; reflexivity).
  clearbody sim1.
  destruct preempt.
  - pose proof (cpu_preempt_spec core (Sim.current_time sim1)) as [Hp1 Hp2].
    destruct (CPU.preempt_current_process core (Sim.current_time sim1))
      as [core1 pre].
    simpl in Hp1, Hp2. rewrite Ecur in Hp2. subst pre.
    destruct (negb (is_completed (Sim.heap sim1 cur)));
      injection H as <- <- <-.
    + split; [exact (engine_ok_ready_app sim1 n cur Hok1 Hcur)|].
      split; [intros r Hr; congruence|].
      eapply same_frame_trans; [exact Hf1|].
      apply same_frame_fields; reflexivity.
    + split; [exact Hok1|]. split; [intros r Hr; congruence | exact Hf1].
  - pose proof (cpu_execute_spec core (Sim.heap sim1) tq
                  (Sim.current_time sim1)) as Hex.
    destruct (CPU.execute_current_process core (Sim.heap sim1) tq
                (Sim.current_time sim1)) as [[core1 h] actual].
    destruct Hex as [Hc1 Hh]. rewrite Ecur in Hh. subst h.
    destruct (engine_ok_execute sim1 n cur tq (CPU.core_id core) Hok1 Hcur)
      as [Hok2 Hf2].
    set (sim2 := Sim.with_heap _ sim1) in *.
    assert (Hcore1 : core_ok procs n core1).
    { intros r Hr. apply Hcore, Hc1, Hr. }
    assert (Hf : same_frame sim sim2)
      by (exact (same_frame_trans _ _ _ Hf1 Hf2)).
    clearbody sim2.
    destruct actual as [actual_time|].
    2: { injection H as <- <- <-. split; [exact Hok2|].
         split; [exact Hcore1 | exact Hf]. }
    destruct (is_completed (Sim.heap sim2 cur)).
    + injection H as <- <- <-. split.
      * apply engine_ok_sched; [apply engine_ok_completed, Hok2|].
        intros r Hr. apply sched_on_completion_knows in Hr.
        apply Hk, Hsp, Hr.
      * split; [exact Hcore1|].
        eapply same_frame_trans; [exact Hf|].
        apply same_frame_fields; reflexivity.
    + destruct (Sched.is_preemptive s1).
      2: { injection H as <- <- <-. split; [exact Hok2|].
           split; [exact Hcore1 | exact Hf]. }
      pose proof (cpu_preempt_spec core1
                    (Sim.current_time sim2 + actual_time)%Q) as [Hp1 Hp2].
      destruct (CPU.preempt_current_process core1
                  (Sim.current_time sim2 + actual_time)%Q) as [core2 pre].
      simpl in Hp1, Hp2.
      destruct pre as [r|]; injection H as <- <- <-.
      * assert (Hr : arrived procs n r).
        { apply Hcore1. symmetry. exact Hp2. }
        split.
        -- apply engine_ok_sched; [exact (engine_ok_ready_app sim2 n r Hok2 Hr)|].
           intros x Hx. apply sched_rotate_knows in Hx.
           apply Hk, Hsp, Hx.
        -- split; [intros x Hx; congruence|].
           eapply same_frame_trans; [exact Hf|].
           apply same_frame_fields; reflexivity.
      * split; [exact Hok2|].
        split; [intros x Hx; congruence | exact Hf].
Qed.

Lemma execute_loop_ok (todo : list CPU.CPUCore) :
  forall (sim : Sim.Simulator) (n : nat) (tq : Time) (m : option Q)
         (done : list CPU.CPUCore) (sim' : Sim.Simulator) (m' : option Q)
         (cs : list CPU.CPUCore),
  engine_ok procs n sim -> cores_ok procs n done -> cores_ok procs n todo ->
  Sim.execute_loop sim tq m done todo = Ok (sim', m', cs) ->
  engine_ok procs n sim' /\ cores_ok procs n cs /\ same_frame sim sim'.
Proof.
  induction todo as [|core rest IH];
    intros sim n tq m done sim' m' cs Hok Hd Ht; simpl.
  - intros [= <- <- <-]. split; [exact Hok|]. split; [exact Hd|].
    apply same_frame_refl.
  - intros H. inv_bind H. destruct a as [[sim1 m1] core1].
    cbv beta iota zeta in H.
    apply execute_one_ok with (n := n) in E as (Hok1 & Hc1 & Hf1);
      [|exact Hok | intros r Hr; apply (Ht core r); [left; reflexivity | exact Hr]].
    apply IH with (n := n) in H as (Hok2 & Hcs & Hf2); [| exact Hok1 | |].
    + split; [exact Hok2|]. split; [exact Hcs|].
      exact (same_frame_trans _ _ _ Hf1 Hf2).
    + intros c r Hc Hr. apply in_app_iff in Hc as [Hc|[<-|[]]];
        [apply (Hd c r Hc Hr) | apply Hc1, Hr].
    + intros c r Hc Hr. apply (Ht c r); [right; exact Hc | exact Hr].
Qed.

Lemma execute_all_cores_ok (sim : Sim.Simulator) (n : nat)
    (sim' : Sim.Simulator) (slice : Q) :
  engine_ok procs n sim -> cores_ok procs n (Sim.cores sim) ->
  Sim._execute_all_cores sim = Ok (sim', slice) ->
  engine_ok procs n sim' /\ cores_ok procs n (Sim.cores sim') /\
  same_frame sim sim'.
Proof.
  intros Hok Hc. unfold Sim._execute_all_cores. intros H.
  inv_bind H. inv_bind H. destruct a0 as [[sim1 m1] cs].
  cbv beta iota zeta in H. injection H as <- <-.
  apply execute_loop_ok with (n := n) in E0 as (Hok1 & Hcs & Hf);
    [|exact Hok | intros c r [] | exact Hc].
  destruct Hok1 as [Hall Htim Harr Hrq Hs].
  split; [split; simpl; assumption|]. split; [exact Hcs|].
  destruct Hf as (F1 & F2 & F3). split; [|split]; assumption.
Qed.

Lemma cores_ok_mono (n n' : nat) (cs : list CPU.CPUCore) :
  (n <= n')%nat -> cores_ok procs n cs -> cores_ok procs n' cs.
Proof.
  intros Hle H c r Hc Hr. eapply arrived_mono; [exact Hle|].
  exact (H c r Hc Hr).
Qed.

Lemma engine_ok_time (sim : Sim.Simulator) (n : nat) (t : Q) :
  engine_ok procs n sim -> (Sim.current_time sim <= t)%Q ->
  engine_ok procs n (Sim.with_current_time t sim).
Proof.
  intros [Hall Htim Harr Hrq Hs] Ht. split; simpl; try assumption.
  intros r Hr. specialize (Harr r Hr). lra.
Qed.

Lemma iteration_ok (sim : Sim.Simulator) (n : nat) (max_time : option Q)
    (sim' : Sim.Simulator) (next : option nat) :
  engine_ok procs n sim -> cores_ok procs n (Sim.cores sim) ->
  Sim.iteration sim n max_time = Ok (sim', next) ->
  exists n', (forall k, next = Some k -> k = n') /\
             engine_ok procs n' sim' /\ cores_ok procs n' (Sim.cores sim').
Proof.
  intros Hok Hc. unfold Sim.iteration.
  destruct (match max_time with Some m => _ | None => false end).
  { intros [= <- <-]. exists n. split; [discriminate|]. split; assumption. }
  destruct (Nat.leb _ _).
  { intros [= <- <-]. exists n. split; [discriminate|]. split; assumption. }
  intros H. inv_bind H. destruct a as [sim1 n1]. cbv beta iota zeta in H.
  rewrite (ok_all _ _ _ Hok) in E.
  apply add_arrivals_ok with (n := n) in E
    as (Hok1 & Hle & Hcs1 & Ht1 & Hnext); [|reflexivity | exact Hok].
  assert (Hc1 : cores_ok procs n1 (Sim.cores sim1)).
  { rewrite Hcs1. eapply cores_ok_mono; eassumption. }
  inv_bind H. rename a into sim2.
  apply assign_processes_ok with (n := n1) in E as (Hok2 & Hc2 & Hf2);
    [|exact Hok1 | exact Hc1].
  inv_bind H. destruct a as [sim3 slice]. cbv beta iota zeta in H.
  apply execute_all_cores_ok with (n := n1) in E as (Hok3 & Hc3 & Hf3);
    [|exact Hok2 | exact Hc2].
  pose proof (same_frame_trans _ _ _ Hf2 Hf3) as (F1 & F2 & F3).
  exists n1.
  destruct (Qltb 0 slice) eqn:Eslice.
  - injection H as <- <-. split; [intros k [= <-]; reflexivity|].
    split; [|exact Hc3].
    apply engine_ok_time; [exact Hok3|]. apply Qltb_lt in Eslice. lra.
  - destruct (Sim.all_processes sim3 !! n1) as [nxt|] eqn:En.
    + injection H as <- <-. split; [intros k [= <-]; reflexivity|].
      split; [|exact Hc3].
      apply engine_ok_time; [exact Hok3|].
      rewrite (ok_all _ _ _ Hok3) in En.
      specialize (Hnext nxt En). rewrite F2, F3. lra.
    + injection H as <- <-. split; [discriminate|]. split; assumption.
Qed.

Lemma main_loop_ok (fuel : nat) :
  forall (sim : Sim.Simulator) (n : nat) (max_time : option Q)
         (final : Sim.Simulator),
  engine_ok procs n sim -> cores_ok procs n (Sim.cores sim) ->
  Sim.main_loop fuel sim n max_time = Sim.Finished final ->
  exists n', engine_ok procs n' final.
Proof.
  induction fuel as [|fuel IH]; intros sim n max_time final Hok Hc; simpl;
    [discriminate|].
  destruct (Sim.iteration sim n max_time) as [[sim1 next]|e] eqn:E;
    [|discriminate].
  apply iteration_ok in E as (n' & Hn & Hok1 & Hc1); [|exact Hok | exact Hc].
  destruct next as [k|].
  - rewrite (Hn k eq_refl). intros H. eapply IH; eassumption.
  - intros [= <-]. exists n'. exact Hok1.
Qed.
End Engine.

Lemma reset_processes_other (l : list ref) (h : Heap) (r : ref) :
  ~ In r l -> Sim.reset_processes h l r = h r.
Proof.
  unfold Sim.reset_processes. revert h.
  induction l as [|x l IH]; intros h Hn; simpl; [reflexivity|].
  rewrite IH by (intros H; apply Hn; right; exact H).
  destruct (upd_cases h x r (Sim.reset_process (h x))) as [[E _] | [_ E]];
    [|exact E].
  exfalso. apply Hn. left. symmetry. exact E.
Qed.

Lemma reset_processes_timing (l : list ref) (h : Heap) (r : ref) :
  In r l -> timing_ok (Sim.reset_processes h l r).
Proof.
  unfold Sim.reset_processes. revert h.
  induction l as [|x l IH]; intros h; simpl; [tauto|].
  intros [<- | Hin].
  - destruct (in_dec Nat.eq_dec x l) as [Hl|Hl]; [apply IH, Hl|].
    fold (Sim.reset_processes (upd h x (Sim.reset_process (h x))) l).
    rewrite (reset_processes_other l _ x Hl), upd_same.
    apply timing_ok_reset.
  - apply IH, Hin.
Qed.

Lemma engine_ok_initial (sim : Sim.Simulator) (s : Scheduler) :
  Sim.scheduler sim = Some s ->
  let start := Sim.sort_by_arrival (Sim._reset_simulation sim) in
  engine_ok (Sim.all_processes start) 0 start /\
  cores_ok (Sim.all_processes start) 0 (Sim.cores start).
Proof.
  intros Hs start. subst start. split.
  - split; simpl.
    + reflexivity.
    + intros r Hr. apply sort_by_In in Hr.
      apply reset_processes_timing, Hr.
    + intros r [].
    + intros r [].
    + rewrite Hs. simpl. eexists. split; [reflexivity|].
      intros r Hr. exfalso. exact (sched_reset_knows s r Hr).
  - intros c r Hc Hr. simpl in Hc. apply in_map_iff in Hc as (c0 & <- & _).
    discriminate Hr.
Qed.

Lemma is_completed_state (p : Process) :
  is_completed p = true <-> state p = TERMINATED.
Proof.
  unfold is_completed. destruct (state p); simpl; split;
    intros H; try reflexivity; discriminate H.
Qed.

(** C3. The claim says that every completed process has a waiting time
    that is not negative.  The engine breaks it: the clock advances by the
    smallest slice run on any core, so a process that ran a longer slice
    is dispatched again before its own slice is over.  Preemptive SJF
    (quantum 1) on two cores, bursts 1/2 and 2, both arriving at 0: the
    long process is executed at clock 0 and again at clock 1/2, completes
    at 3/2 with turnaround time 3/2, and its waiting time is
    3/2 - 2 = -1/2, although the run returns and the process is
    completed. *)
Lemma waiting_time_negative_under_srtf :
  exists sim' m,
    Sim.run_simulation 4
      (Examples.simulator 2 (Examples.two_jobs (1 # 2) 2)
         (Basic (SJFScheduler (SJF.mk true))) [0%nat; 1%nat])
      None
    = Sim.Returns sim' m /\
    In 1%nat (Sim.all_processes sim') /\
    is_completed (Sim.heap sim' 1%nat) = true /\
    (waiting_time (Sim.heap sim' 1%nat) < 0)%Q /\
    (exists c, completion_time (Sim.heap sim' 1%nat) = Some c /\
               (c == 3 # 2)%Q) /\
    (turnaround_time (Sim.heap sim' 1%nat) == 3 # 2)%Q /\
    (burst_time (Sim.heap sim' 1%nat) == 2)%Q /\
    (waiting_time (Sim.heap sim' 1%nat) == - (1 # 2))%Q.
Proof.
  eexists. eexists. split.
  { apply run_simulation_returns;
      [discriminate | discriminate | vm_compute; reflexivity]. }
  split; [right; left; reflexivity|].
  split; [vm_compute; reflexivity|].
  split; [vm_compute; reflexivity|].
  split; [eexists; split; [vm_compute; reflexivity | vm_compute; reflexivity]|].
  split; [vm_compute; reflexivity|].
  split; vm_compute; reflexivity.
Qed.

(** The other timing results of a completed process are as the code
    computes them for every scheduler: when [run_simulation] returns, the
    completion and start times of a completed process are set, turnaround
    time = completion time - arrival time, waiting time = turnaround time
    - burst time, and response time = start time - arrival time >= 0 (a
    process is only ever executed at a simulated time no earlier than its
    arrival). *)
Theorem completed_process_timing (fuel : nat) (sim : Sim.Simulator)
    (max_time : option Q) (sim' : Sim.Simulator)
    (m : Metrics.PerformanceMetrics) :
  Sim.run_simulation fuel sim max_time = Sim.Returns sim' m ->
  forall r, In r (Sim.all_processes sim') ->
    is_completed (Sim.heap sim' r) = true ->
    let p := Sim.heap sim' r in
    exists c s,
      completion_time p = Some c /\ start_time p = Some s /\
      (turnaround_time p == c - arrival_time p)%Q /\
      (waiting_time p == turnaround_time p - burst_time p)%Q /\
      (response_time p == s - arrival_time p)%Q /\
      (0 <= response_time p)%Q /\ (arrival_time p <= s)%Q.
Proof.
  intros Hrun r Hin Hc p. subst p.
  destruct (Sim.scheduler sim) as [s0|] eqn:Hs.
  2: { unfold Sim.run_simulation in Hrun. rewrite Hs in Hrun. discriminate. }
  apply run_simulation_Returns_inv in Hrun as (final & Hloop & -> & _).
  destruct (engine_ok_initial sim s0 Hs) as [Hok0 Hc0].
  destruct (main_loop_ok _ _ _ _ _ _ Hok0 Hc0 Hloop) as (n' & Hok).
  simpl in Hin, Hc |- *.
  rewrite (ok_all _ _ _ Hok) in Hin.
  destruct (ok_timing _ _ _ Hok r Hin) as (_ & Hstart & Hterm).
  apply is_completed_state in Hc.
  destruct (Hterm Hc) as ((s & Es) & c & Ec & Ht & Hw).
  destruct (Hstart s Es) as [Hr Ha].
  exists c, s. repeat split; try assumption. lra.
Qed.

Lemma completed_process_timing_witness :
  exists sim' m,
    Sim.run_simulation 2
      (Examples.simulator 1 (Examples.two_jobs 10 10) (Basic FCFSScheduler)
         [0%nat])
      None
    = Sim.Returns sim' m /\
    let p := Sim.heap sim' 0%nat in
    exists c s,
      completion_time p = Some c /\ start_time p = Some s /\
      (turnaround_time p == c - arrival_time p)%Q /\
      (waiting_time p == turnaround_time p - burst_time p)%Q /\
      (response_time p == s - arrival_time p)%Q /\
      (0 <= response_time p)%Q /\ (arrival_time p <= s)%Q.
Proof.
  eexists. eexists.
  match goal with |- ?A /\ _ => assert (H : A) end.
  { apply run_simulation_returns;
      [discriminate | discriminate | vm_compute; reflexivity]. }
  split; [exact H|].
  refine (completed_process_timing _ _ _ _ _ H 0%nat _ _).
  - left; reflexivity.
  - vm_compute. reflexivity.
Defined.

(* ================================================================== *)
(** * Part III: further properties of the code *)
(* ================================================================== *)

(** ** Process and core accounting *)

Lemma min_time_nonneg (ts : Time) (r : Q) :
  match ts with Finite t => (0 <= t)%Q | Infinity => True end ->
  (0 <= r)%Q -> (0 <= min_time ts r)%Q.
Proof.
  destruct ts as [t|]; simpl; intros Ht Hr; [|exact Hr].
  unfold py_min. destruct (Qltb r t); assumption.
Qed.

(** X1. With a non-negative time slice and a non-negative remaining time,
    [execute] runs for a non-negative time that exceeds neither the slice
    nor the remaining time; the remaining time stays non-negative, does not
    increase, and drops by exactly the time returned, which is also what is
    added to [time_quantum_used]. *)
Theorem execute_consumes_remaining_time
    (p : Process) (time_slice : Time) (current_time : Q) (core : Z) :
  match time_slice with Finite t => (0 <= t)%Q | Infinity => True end ->
  (0 <= remaining_time p)%Q ->
  let p' := fst (execute p time_slice current_time core) in
  let actual := snd (execute p time_slice current_time core) in
  (0 <= actual <= remaining_time p)%Q /\
  match time_slice with Finite t => (actual <= t)%Q | Infinity => True end /\
  (0 <= remaining_time p' <= remaining_time p)%Q /\
  (remaining_time p' + actual == remaining_time p)%Q /\
  (time_quantum_used p' == time_quantum_used p + actual)%Q.
Proof.
  intros Hts Hr p' actual. subst p' actual.
  rewrite execute_snd, execute_remaining.
  pose proof (min_time_nonneg time_slice (remaining_time p) Hts Hr) as H0.
  pose proof (min_time_le time_slice (remaining_time p)) as H1.
  split; [split; assumption|]. split.
  - destruct time_slice as [t|]; [|exact I]. simpl. unfold py_min.
    destruct (Qltb (remaining_time p) t) eqn:E; [|apply Qle_refl].
    apply Qltb_lt in E. lra.
  - split; [split; lra|]. split; [lra|].
    execute_cases p core; lra.
Qed.

Lemma execute_consumes_remaining_time_witness :
  let p := new_process 7 2 3 0 MIXED None in
  let p' := fst (execute p (Finite 2) 5 0) in
  let actual := snd (execute p (Finite 2) 5 0) in
  (0 <= actual <= remaining_time p)%Q /\
  (actual <= 2)%Q /\
  (0 <= remaining_time p' <= remaining_time p)%Q /\
  (remaining_time p' + actual == remaining_time p)%Q /\
  (time_quantum_used p' == time_quantum_used p + actual)%Q.
Proof.
  apply (execute_consumes_remaining_time (new_process 7 2 3 0 MIXED None)
           (Finite 2) 5 0).
  - simpl. lra.
  - simpl. lra.
Defined.

(** X2. Assigning a process to a core makes the core busy with that
    process and counts one more execution; preempting it at a later time
    hands the same process back, leaves the core idle with no load, and
    adds the elapsed time to the core's busy time. *)
Theorem assign_then_preempt (c : CPU.CPUCore) (h : Heap) (process : ref)
    (t t' : Q) :
  let c1 := CPU.assign_process c h process t in
  let c2 := fst (CPU.preempt_current_process c1 t') in
  CPU.is_idle c1 = false /\
  CPU.get_current_process c1 = Some process /\
  CPU.processes_executed c1 = (CPU.processes_executed c + 1)%Z /\
  snd (CPU.preempt_current_process c1 t') = Some process /\
  CPU.is_idle c2 = true /\
  CPU.get_current_process c2 = None /\
  CPU.get_load c2 = 0%Q /\
  CPU.total_busy_time c2 = (CPU.total_busy_time c1 + (t' - t))%Q /\
  CPU.total_idle_time c2 = CPU.total_idle_time c1.
Proof.
  unfold CPU.assign_process, CPU.preempt_current_process, CPU.is_idle,
    CPU.get_current_process, CPU.get_load.
  unfold CPU._update_metrics.
  destruct (CPU.current_process c) as [r|]; simpl.
  - destruct (negb (is_completed (h r))), (CPU.is_busy c); simpl;
      repeat split; reflexivity.
  - repeat split; reflexivity.
Qed.

(** X3. Executing the occupant of a core: the time returned is the time
    the process ran, it is added to the core's busy time, a load sample is
    appended to the history, and the core is freed exactly when the process
    has completed; a core without occupant returns nothing and leaves the
    heap alone. *)
Theorem execute_current_process_accounting (c : CPU.CPUCore) (h : Heap)
    (time_slice : Time) (current_time : Q) :
  let '(c', h', actual) :=
    CPU.execute_current_process c h time_slice current_time in
  match CPU.current_process c with
  | None => actual = None /\ h' = h /\ CPU.current_process c' = None
  | Some r =>
      let p' := fst (execute (h r) time_slice current_time (CPU.core_id c)) in
      actual = Some (min_time time_slice (remaining_time (h r))) /\
      h' r = p' /\
      (forall r', r' <> r -> h' r' = h r') /\
      CPU.total_busy_time c'
      = (CPU.total_busy_time c + min_time time_slice (remaining_time (h r)))%Q /\
      length (CPU.load_history c') = S (length (CPU.load_history c)) /\
      (is_completed p' = true ->
         CPU.current_process c' = None /\ CPU.is_idle c' = true /\
         CPU.current_load c' = 0%Q) /\
      (is_completed p' = false ->
         CPU.current_process c' = Some r /\ CPU.is_busy c' = CPU.is_busy c /\
         CPU.current_load c' = remaining_time p')
  end.
Proof.
  unfold CPU.execute_current_process.
  destruct (CPU.current_process c) as [r|] eqn:Ec; [|simpl; rewrite Ec; auto].
  pose proof (execute_snd (h r) time_slice current_time (CPU.core_id c)) as Hs.
  destruct (execute (h r) time_slice current_time (CPU.core_id c)) as [p' a].
  simpl in Hs. subst a. cbv zeta. simpl fst.
  split; [reflexivity|]. split; [apply upd_same|]. split.
  { intros r' Hr'. destruct (upd_cases h r r' p') as [[E _]|[_ E]];
      [contradiction | exact E]. }
  destruct (is_completed p') eqn:Ecomp; simpl.
  - split; [reflexivity|]. split; [rewrite length_app; simpl; lia|].
    split; [intros _; repeat split; reflexivity | discriminate].
  - split; [reflexivity|]. split; [rewrite length_app; simpl; lia|].
    split; [discriminate | intros _; repeat split; auto].
Qed.

(** ** Selection by the queue-ordering policies *)

Section SortOrder.
Context {A K : Type} (leb : K -> K -> bool) (key : A -> K).
Hypothesis leb_total : forall a b, leb a b = false -> leb b a = true.
Hypothesis leb_trans :
  forall a b c, leb a b = true -> leb b c = true -> leb a c = true.

Let le (x y : A) : Prop := leb (key x) (key y) = true.

Lemma insert_by_sorted (x : A) (l : list A) :
  StronglySorted le l -> StronglySorted le (insert_by leb key x l).
Proof using leb_total leb_trans.
  induction 1 as [|y l Hl IH Hy]; simpl.
  - constructor; [constructor | constructor].
  - destruct (leb (key x) (key y)) eqn:E.
    + constructor; [constructor; assumption|].
      constructor; [exact E|].
      rewrite List.Forall_forall in Hy |- *. intros z Hz.
      exact (leb_trans _ _ _ E (Hy z Hz)).
    + constructor; [exact IH|].
      rewrite List.Forall_forall in Hy |- *. intros z Hz.
      apply (Permutation_in _ (insert_by_Permutation leb key x l)) in Hz.
      destruct Hz as [<-|Hz]; [exact (leb_total _ _ E) | exact (Hy z Hz)].
Qed.

Lemma sort_by_sorted (l : list A) : StronglySorted le (sort_by leb key l).
Proof using leb_total leb_trans.
  induction l as [|x l IH]; simpl; [constructor|].
  apply insert_by_sorted, IH.
Qed.

Lemma leb_refl (a : K) : leb a a = true.
Proof using leb_total.
  destruct (leb a a) eqn:E; [reflexivity|].
  rewrite <- E. exact (leb_total _ _ E).
Qed.

Lemma sort_by_head_least (l : list A) (x : A) :
  head (sort_by leb key l) = Some x ->
  forall y, In y l -> leb (key x) (key y) = true.
Proof using leb_total leb_trans.
  intros Hx y Hy. pose proof (sort_by_sorted l) as Hs.
  apply (sort_by_In leb key) in Hy.
  destruct (sort_by leb key l) as [|z q]; [discriminate|].
  injection Hx as ->. inversion Hs as [|? ? _ Hall]; subst.
  destruct Hy as [<-|Hy]; [apply leb_refl|].
  rewrite List.Forall_forall in Hall. exact (Hall y Hy).
Qed.

Lemma min_by_from_least (best : A) (l : list A) (y : A) :
  In y (best :: l) ->
  leb (key (min_by_from leb key best l)) (key y) = true.
Proof using leb_total leb_trans.
  revert best y. induction l as [|z l IH]; intros best y Hy; simpl.
  - destruct Hy as [<-|[]]. apply leb_refl.
  - destruct (leb (key best) (key z)) eqn:E.
    + destruct Hy as [<-|[<-|Hy]].
      * apply IH; left; reflexivity.
      * apply (leb_trans _ (key best)); [apply IH; left; reflexivity | exact E].
      * apply IH; right; exact Hy.
    + destruct Hy as [<-|[<-|Hy]].
      * apply (leb_trans _ (key z)); [apply IH; left; reflexivity|].
        exact (leb_total _ _ E).
      * apply IH; left; reflexivity.
      * apply IH; right; exact Hy.
Qed.
End SortOrder.

Lemma le_Q_spec (a b : Q) : le_Q a b = true <-> (a <= b)%Q.
Proof. unfold le_Q. apply Qle_bool_iff. Qed.

Lemma le_Q_false (a b : Q) : le_Q a b = false <-> (b < a)%Q.
Proof.
  pose proof (le_Q_spec a b). destruct (le_Q a b).
  - split; [discriminate|]. intros Hlt.
    assert (a <= b)%Q by (apply H; reflexivity). lra.
  - split; [|reflexivity]. intros _. apply Qnot_le_lt. intros Hle.
    apply H in Hle. discriminate.
Qed.

Lemma le_QZ_spec (a b : Q * Z) :
  le_QZ a b = true <->
  (fst a < fst b)%Q \/ ((fst a == fst b)%Q /\ (snd a <= snd b)%Z).
Proof.
  unfold le_QZ. rewrite orb_true_iff, andb_true_iff, Qltb_lt, Qeq_bool_iff,
    Z.leb_le. reflexivity.
Qed.

Lemma le_QZ_false (a b : Q * Z) :
  le_QZ a b = false <->
  (fst b < fst a)%Q \/ ((fst a == fst b)%Q /\ (snd b < snd a)%Z).
Proof.
  pose proof (le_QZ_spec a b) as H. destruct (le_QZ a b).
  - split; [discriminate|]. intros Hc.
    destruct (proj1 H eq_refl) as [?|[? ?]]; destruct Hc as [?|[? ?]];
      (lra || lia).
  - split; [|reflexivity]. intros _.
    destruct (Qlt_le_dec (fst b) (fst a)) as [?|Hle]; [left; assumption|].
    right. destruct (Qlt_le_dec (fst a) (fst b)) as [Hlt|Hge].
    + assert (false = true) by (apply H; left; exact Hlt). discriminate.
    + assert (E : (fst a == fst b)%Q) by lra. split; [exact E|].
      destruct (Z_lt_le_dec (snd b) (snd a)) as [?|Hz]; [assumption|].
      assert (false = true) by (apply H; right; split; assumption).
      discriminate.
Qed.

Lemma le_QZ_total (a b : Q * Z) : le_QZ a b = false -> le_QZ b a = true.
Proof.
  rewrite le_QZ_false, le_QZ_spec. intros [?|[? ?]];
    [left; assumption | right; split; [lra | lia]].
Qed.

Lemma le_QZ_trans (a b c : Q * Z) :
  le_QZ a b = true -> le_QZ b c = true -> le_QZ a c = true.
Proof.
  rewrite !le_QZ_spec. intros [?|[? ?]] [?|[? ?]];
    try (left; lra). right; split; [lra | lia].
Qed.

Lemma le_QQZ_spec (a b : Q * Q * Z) :
  le_QQZ a b = true <->
  (fst (fst a) < fst (fst b))%Q
  \/ ((fst (fst a) == fst (fst b))%Q
      /\ le_QZ (snd (fst a), snd a) (snd (fst b), snd b) = true).
Proof.
  unfold le_QQZ. rewrite orb_true_iff, andb_true_iff, Qltb_lt, Qeq_bool_iff.
  reflexivity.
Qed.

Lemma le_QQZ_total (a b : Q * Q * Z) : le_QQZ a b = false -> le_QQZ b a = true.
Proof.
  intros H. apply le_QQZ_spec.
  destruct (Qlt_le_dec (fst (fst b)) (fst (fst a))) as [?|Hle];
    [left; assumption|].
  right. destruct (Qlt_le_dec (fst (fst a)) (fst (fst b))) as [Hlt|Hge].
  - assert (le_QQZ a b = true) by (apply le_QQZ_spec; left; exact Hlt).
    congruence.
  - assert (E : (fst (fst a) == fst (fst b))%Q) by lra.
    split; [lra|].
    destruct (le_QZ (snd (fst a), snd a) (snd (fst b), snd b)) eqn:E2.
    + assert (le_QQZ a b = true) by (apply le_QQZ_spec; right; split; assumption).
      congruence.
    + apply le_QZ_total, E2.
Qed.

Lemma le_QQZ_trans (a b c : Q * Q * Z) :
  le_QQZ a b = true -> le_QQZ b c = true -> le_QQZ a c = true.
Proof.
  rewrite !le_QQZ_spec. intros [?|[? H1]] [?|[? H2]]; try (left; lra).
  right; split; [lra|]. exact (le_QZ_trans _ _ _ H1 H2).
Qed.

Lemma le_Q_total (a b : Q) : le_Q a b = false -> le_Q b a = true.
Proof. rewrite le_Q_false, le_Q_spec. lra. Qed.

Lemma le_Q_trans (a b c : Q) :
  le_Q a b = true -> le_Q b c = true -> le_Q a c = true.
Proof. rewrite !le_Q_spec. lra. Qed.

(** X4. First come, first served: the selection is [None] exactly for an
    empty ready queue; otherwise the queue is left a permutation of itself
    sorted by (arrival time, pid), the selection is its head, and no ready
    process has an earlier arrival time, or the same arrival time and a
    smaller pid. *)
Theorem fcfs_selects_earliest_arrival (h : Heap) (core : CPU.CPUCore)
    (ready_queue : list ref) (current_time : Q) :
  let q := fst (FCFS.select_process h core ready_queue current_time) in
  let sel := snd (FCFS.select_process h core ready_queue current_time) in
  Permutation q ready_queue /\
  StronglySorted
    (fun a b => le_QZ (arrival_time (h a), pid (h a))
                      (arrival_time (h b), pid (h b)) = true) q /\
  sel = head q /\
  (sel = None <-> ready_queue = []) /\
  forall r, sel = Some r ->
    In r ready_queue /\
    forall x, In x ready_queue ->
      (arrival_time (h r) < arrival_time (h x))%Q
      \/ ((arrival_time (h r) == arrival_time (h x))%Q
          /\ (pid (h r) <= pid (h x))%Z).
Proof.
  unfold FCFS.select_process.
  destruct ready_queue as [|r0 rest].
  { simpl. split; [constructor|]. split; [constructor|].
    split; [reflexivity|]. split; [tauto | discriminate]. }
  remember (r0 :: rest) as l eqn:El. cbn [fst snd].
  set (key := fun r : ref => (arrival_time (h r), pid (h r))).
  split; [apply sort_by_Permutation|].
  split; [exact (sort_by_sorted le_QZ key le_QZ_total le_QZ_trans l)|].
  split; [reflexivity|]. split.
  - split; [|intros E; rewrite E in El; discriminate].
    intros Hn. pose proof (sort_by_Permutation le_QZ key l) as HP.
    destruct (sort_by le_QZ key l); [|discriminate].
    apply Permutation_nil in HP. subst l. discriminate.
  - intros r Hr. split.
    + apply (sort_by_In le_QZ key), head_In, Hr.
    + intros x Hx.
      pose proof (sort_by_head_least le_QZ key le_QZ_total le_QZ_trans
                    l r Hr x Hx) as H.
      apply le_QZ_spec in H. exact H.
Qed.

(** X5. Shortest job first: the selection is [None] exactly for an empty
    ready queue; otherwise the queue is left sorted by (remaining time,
    arrival time, pid), the selection is its head, and no ready process has
    a smaller remaining time than the selected one. *)
Theorem sjf_selects_shortest_remaining (s : SJF.t) (h : Heap)
    (core : CPU.CPUCore) (ready_queue : list ref) (current_time : Q) :
  let q := fst (SJF.select_process s h core ready_queue current_time) in
  let sel := snd (SJF.select_process s h core ready_queue current_time) in
  Permutation q ready_queue /\
  StronglySorted
    (fun a b =>
       le_QQZ (remaining_time (h a), arrival_time (h a), pid (h a))
              (remaining_time (h b), arrival_time (h b), pid (h b)) = true) q /\
  sel = head q /\
  (sel = None <-> ready_queue = []) /\
  forall r, sel = Some r ->
    In r ready_queue /\
    forall x, In x ready_queue ->
      (remaining_time (h r) <= remaining_time (h x))%Q /\
      ((remaining_time (h r) == remaining_time (h x))%Q ->
       (arrival_time (h r) < arrival_time (h x))%Q
       \/ ((arrival_time (h r) == arrival_time (h x))%Q
           /\ (pid (h r) <= pid (h x))%Z)).
Proof.
  unfold SJF.select_process.
  destruct ready_queue as [|r0 rest].
  { simpl. split; [constructor|]. split; [constructor|].
    split; [reflexivity|]. split; [tauto | discriminate]. }
  remember (r0 :: rest) as l eqn:El. cbn [fst snd].
  set (key := fun r : ref => (remaining_time (h r), arrival_time (h r),
                              pid (h r))).
  split; [apply sort_by_Permutation|].
  split; [exact (sort_by_sorted le_QQZ key le_QQZ_total le_QQZ_trans l)|].
  split; [reflexivity|]. split.
  - split; [|intros E; rewrite E in El; discriminate].
    intros Hn. pose proof (sort_by_Permutation le_QQZ key l) as HP.
    destruct (sort_by le_QQZ key l); [|discriminate].
    apply Permutation_nil in HP. subst l. discriminate.
  - intros r Hr. split.
    + apply (sort_by_In le_QQZ key), head_In, Hr.
    + intros x Hx.
      pose proof (sort_by_head_least le_QQZ key le_QQZ_total le_QQZ_trans
                    l r Hr x Hx) as H.
      apply le_QQZ_spec in H. unfold key in H. cbn [fst snd] in H.
      destruct H as [Hlt|[Heq H]].
      * split; [lra|]. intros E. lra.
      * split; [lra|]. intros _. apply le_QZ_spec in H. exact H.
Qed.

(** X6. Shortest remaining time first preempts exactly when the policy is
    preemptive and some ready process has strictly less remaining time
    than the running one; the non-preemptive policy and an empty ready
    queue never preempt. *)
Theorem sjf_should_preempt_iff (s : SJF.t) (h : Heap) (current_process : ref)
    (ready_queue : list ref) (current_time : Q) :
  SJF.should_preempt s h current_process ready_queue current_time = true <->
  SJF.is_preemptive s = true /\
  exists r, In r ready_queue /\
    (remaining_time (h r) < remaining_time (h current_process))%Q.
Proof.
  unfold SJF.should_preempt, SJF.is_preemptive.
  destruct ready_queue as [|r0 rest].
  { split; [discriminate|]. intros [_ [r [[] _]]]. }
  destruct (SJF._preemptive s); simpl negb; cbv iota.
  2:{ split; [discriminate | intros [? _]; discriminate]. }
  set (key := fun r : ref => remaining_time (h r)).
  rewrite Qltb_lt. split.
  - intros H. split; [reflexivity|].
    exists (min_by_from le_Q key r0 rest). split; [|exact H].
    apply min_by_from_In.
  - intros [_ [r [Hr Hlt]]].
    pose proof (min_by_from_least le_Q key le_Q_total le_Q_trans
                  r0 rest r Hr) as H.
    apply le_Q_spec in H. subst key. cbv beta in H. lra.
Qed.

(** ** Priority scheduling *)

Lemma priority_extends_refl (s : Priority.t) : priority_extends s s.
Proof. repeat split; auto. Qed.

Lemma priority_extends_trans (s1 s2 s3 : Priority.t) :
  priority_extends s1 s2 -> priority_extends s2 s3 -> priority_extends s1 s3.
Proof.
  intros (A1 & B1 & C1 & D1) (A2 & B2 & C2 & D2).
  repeat split; try congruence. intros k w H. apply D2, D1, H.
Qed.

Lemma effective_priority_extends (s : Priority.t) (h : Heap) (r : ref) (t : Q) :
  priority_extends s (fst (Priority._get_effective_priority s h r t)).
Proof.
  unfold Priority._get_effective_priority.
  destruct (Priority._aging s); simpl; [|apply priority_extends_refl].
  destruct (Priority.process_wait_times s !! pid (h r)) eqn:E;
    [apply priority_extends_refl|].
  repeat split; auto. simpl. intros k w H.
  rewrite lookup_insert_ne; [exact H | congruence].
Qed.

Lemma effective_priority_records (s : Priority.t) (h : Heap) (r : ref) (t : Q) :
  Priority._aging s = true ->
  is_Some (Priority.process_wait_times
             (fst (Priority._get_effective_priority s h r t)) !! pid (h r)).
Proof.
  intros Ha. unfold Priority._get_effective_priority. rewrite Ha. simpl.
  destruct (Priority.process_wait_times s !! pid (h r)) eqn:E; simpl.
  - rewrite E. eauto.
  - rewrite lookup_insert_eq. eauto.
Qed.

Lemma effective_priority_stable (s s' : Priority.t) (h : Heap) (r : ref)
    (t : Q) :
  priority_extends s s' ->
  (Priority._aging s = true ->
   is_Some (Priority.process_wait_times s !! pid (h r))) ->
  Priority._get_effective_priority s' h r t
  = (s', snd (Priority._get_effective_priority s h r t)).
Proof.
  intros (A & B & C & D) Hrec. unfold Priority._get_effective_priority.
  rewrite B. destruct (Priority._aging s); simpl; [|reflexivity].
  destruct (Hrec eq_refl) as [w Hw]. rewrite Hw, (D _ _ Hw). simpl.
  rewrite Hw, (D _ _ Hw), C. reflexivity.
Qed.

Lemma effective_priority_after (s s' : Priority.t) (h : Heap) (r : ref)
    (t : Q) :
  priority_extends (fst (Priority._get_effective_priority s h r t)) s' ->
  Priority._get_effective_priority s' h r t
  = (s', snd (Priority._get_effective_priority s h r t)).
Proof.
  intros Hext.
  assert (Hs : snd (Priority._get_effective_priority
                      (fst (Priority._get_effective_priority s h r t)) h r t)
               = snd (Priority._get_effective_priority s h r t)).
  { unfold Priority._get_effective_priority.
    destruct (Priority._aging s) eqn:Ha; simpl; [|rewrite Ha; reflexivity].
    destruct (Priority.process_wait_times s !! pid (h r)) eqn:E; simpl.
    - rewrite Ha, E. simpl. rewrite E. reflexivity.
    - rewrite Ha. simpl. rewrite !lookup_insert_eq. simpl.
      rewrite lookup_insert_eq. reflexivity. }
  rewrite <- Hs. apply effective_priority_stable; [exact Hext|].
  intros Ha. apply effective_priority_records.
  destruct (effective_priority_extends s h r t) as (_ & B & _).
  congruence.
Qed.

Lemma effective_priorities_spec (h : Heap) (t : Q) (l : list ref)
    (s s' : Priority.t) (keyed : list (Q * ref)) :
  Priority.effective_priorities s h l t = (s', keyed) ->
  priority_extends s s' /\
  keyed = map (fun r => (snd (Priority._get_effective_priority s' h r t), r)) l /\
  forall r, In r l ->
    Priority._get_effective_priority s' h r t
    = (s', snd (Priority._get_effective_priority s' h r t)).
Proof.
  revert s s' keyed. induction l as [|r rest IH]; intros s s' keyed; simpl.
  { intros [= <- <-]. split; [apply priority_extends_refl|].
    split; [reflexivity | intros ? []]. }
  pose proof (effective_priority_extends s h r t) as Hext1.
  pose proof (effective_priority_after s) as Hafter.
  specialize (Hafter) with (h := h) (r := r) (t := t).
  destruct (Priority._get_effective_priority s h r t) as [s1 e].
  simpl in Hext1, Hafter.
  destruct (Priority.effective_priorities s1 h rest t) as [s2 es] eqn:E2.
  intros [= <- <-]. destruct (IH _ _ _ E2) as (Hext2 & Hes & Hst).
  specialize (Hafter s2 Hext2).
  split; [exact (priority_extends_trans _ _ _ Hext1 Hext2)|]. split.
  - rewrite Hafter. simpl. f_equal. exact Hes.
  - intros x [<-|Hx]; [rewrite Hafter; reflexivity | exact (Hst x Hx)].
Qed.

Lemma apply_aging_extends (h : Heap) (t : Q) (l : list ref) (s : Priority.t) :
  priority_extends s (Priority._apply_aging s h l t).
Proof.
  revert s. induction l as [|r rest IH]; intros s; simpl;
    [apply priority_extends_refl|].
  eapply priority_extends_trans; [|apply IH].
  destruct (Priority.process_wait_times s !! pid (h r)) eqn:E;
    [apply priority_extends_refl|].
  repeat split; auto. simpl. intros k w H.
  rewrite lookup_insert_ne; [exact H | congruence].
Qed.

(** X7. Priority scheduling selects a ready process whose effective
    priority number, as computed by [_get_effective_priority] in the state
    the call leaves, is the least of the ready queue (ties go to the
    earlier arrival, then the smaller pid); the selection is [None] exactly
    for an empty queue, and without aging the selected process has the
    least static priority number. *)
Theorem priority_selects_least_effective_priority (s : Priority.t) (h : Heap)
    (core : CPU.CPUCore) (ready_queue : list ref) (current_time : Q) :
  let res := Priority.select_process s h core ready_queue current_time in
  let s' := fst (fst res) in
  let eff r := snd (Priority._get_effective_priority s' h r current_time) in
  Permutation (snd (fst res)) ready_queue /\
  snd res = head (snd (fst res)) /\
  (snd res = None <-> ready_queue = []) /\
  forall r, snd res = Some r ->
    In r ready_queue /\
    forall x, In x ready_queue ->
      (eff r <= eff x)%Q /\
      ((eff r == eff x)%Q ->
       (arrival_time (h r) < arrival_time (h x))%Q
       \/ ((arrival_time (h r) == arrival_time (h x))%Q
           /\ (pid (h r) <= pid (h x))%Z)) /\
      (Priority._aging s = false -> (priority (h r) <= priority (h x))%Z).
Proof.
  unfold Priority.select_process.
  destruct ready_queue as [|r0 rest].
  { simpl. split; [constructor|]. split; [reflexivity|].
    split; [tauto | discriminate]. }
  remember (r0 :: rest) as l eqn:El.
  set (s1 := if Priority._aging s then Priority._apply_aging s h l current_time
             else s).
  assert (Hagree : Priority._aging s1 = Priority._aging s).
  { subst s1. destruct (Priority._aging s) eqn:Ha; [|exact Ha].
    destruct (apply_aging_extends h current_time l s) as (_ & B & _).
    congruence. }
  clearbody s1.
  destruct (Priority.effective_priorities s1 h l current_time) as [s2 keyed]
    eqn:E.
  destruct (effective_priorities_spec _ _ _ _ _ _ E) as (Hext & Hk & Hst).
  cbn [fst snd].
  set (key := fun er : Q * ref =>
                (fst er, arrival_time (h (snd er)), pid (h (snd er)))).
  pose proof (sort_by_Permutation le_QQZ key keyed) as HP.
  assert (Hq : Permutation (map snd (sort_by le_QQZ key keyed)) l).
  { rewrite HP, Hk, map_map. simpl. rewrite map_id. reflexivity. }
  split; [exact Hq|]. split; [reflexivity|]. split.
  - split; [|intros E0; rewrite E0 in El; discriminate].
    intros Hn. destruct (map snd (sort_by le_QQZ key keyed)); [|discriminate].
    apply Permutation_nil in Hq. subst l. discriminate.
  - intros r Hr. split.
    { apply (Permutation_in _ Hq), head_In, Hr. }
    intros x Hx.
    destruct (sort_by le_QQZ key keyed) as [|[e r'] sorted] eqn:Es;
      [discriminate|].
    simpl in Hr. injection Hr as ->.
    assert (Hin : In (e, r) keyed).
    { apply (sort_by_In le_QQZ key). rewrite Es. left; reflexivity. }
    assert (He : e = snd (Priority._get_effective_priority s2 h r current_time)).
    { rewrite Hk in Hin. apply in_map_iff in Hin.
      destruct Hin as (y & [= <- <-] & _). reflexivity. }
    assert (Hxk : In (snd (Priority._get_effective_priority s2 h x current_time),
                      x) keyed).
    { rewrite Hk. apply in_map_iff. exists x. split; [reflexivity | exact Hx]. }
    pose proof (sort_by_head_least le_QQZ key le_QQZ_total le_QQZ_trans
                  keyed (e, r)) as Hmin.
    rewrite Es in Hmin. specialize (Hmin eq_refl _ Hxk).
    apply le_QQZ_spec in Hmin. unfold key in Hmin. cbn [fst snd] in Hmin.
    rewrite He in Hmin.
    split; [destruct Hmin as [?|[? _]]; lra|]. split.
    + intros Heq. destruct Hmin as [?|[_ H]]; [lra|].
      apply le_QZ_spec in H. exact H.
    + intros Ha.
      assert (Ha2 : Priority._aging s2 = false).
      { destruct Hext as (_ & B & _). congruence. }
      unfold Priority._get_effective_priority in Hmin.
      rewrite Ha2 in Hmin. simpl in Hmin.
      rewrite Zle_Qle.
      destruct Hmin as [?|[? _]]; lra.
Qed.

(** X8. The preemptive priority policy preempts exactly when some ready
    process has a strictly smaller effective priority number than the
    running one (both computed in the state the call leaves); the
    non-preemptive policy and an empty ready queue never preempt. *)
Theorem priority_should_preempt_iff (s : Priority.t) (h : Heap)
    (current_process : ref) (ready_queue : list ref) (current_time : Q) :
  let res := Priority.should_preempt s h current_process ready_queue
               current_time in
  let eff r :=
    snd (Priority._get_effective_priority (fst res) h r current_time) in
  snd res = true <->
  Priority.is_preemptive s = true /\
  exists r, In r ready_queue /\ (eff r < eff current_process)%Q.
Proof.
  unfold Priority.should_preempt, Priority.is_preemptive.
  destruct ready_queue as [|r0 rest].
  { simpl. split; [discriminate|]. intros [_ [r [[] _]]]. }
  remember (r0 :: rest) as l eqn:El.
  destruct (Priority._preemptive s); simpl negb; cbv iota.
  2:{ simpl. split; [discriminate | intros [? _]; discriminate]. }
  pose proof (effective_priority_after s) as Hafter.
  specialize Hafter with (h := h) (r := current_process) (t := current_time).
  destruct (Priority._get_effective_priority s h current_process current_time)
    as [s1 cp].
  simpl in Hafter.
  destruct (Priority.effective_priorities s1 h l current_time) as [s2 keyed]
    eqn:E.
  destruct (effective_priorities_spec _ _ _ _ _ _ E) as (Hext & Hk & Hst).
  specialize (Hafter s2 Hext).
  destruct keyed as [|k0 krest]; [rewrite El in Hk; discriminate|].
  set (key := fun er : Q * ref => fst er).
  pose proof (min_by_from_In le_Q key k0 krest) as Hin.
  pose proof (min_by_from_least le_Q key le_Q_total le_Q_trans k0 krest)
    as Hmin.
  destruct (min_by_from le_Q key k0 krest) as [e hp].
  rewrite Hk in Hin, Hmin. apply in_map_iff in Hin.
  destruct Hin as (y & [= <- <-] & Hy).
  cbn [snd]. rewrite (Hst y Hy). cbn [fst snd].
  rewrite Hafter. cbn [snd]. rewrite Qltb_lt. split.
  - intros H. split; [reflexivity|]. exists y. split; [exact Hy | exact H].
  - intros [_ [r [Hr Hlt]]].
    assert (Hrk : In (snd (Priority._get_effective_priority s2 h r
                             current_time), r)
                     (map (fun r => (snd (Priority._get_effective_priority
                                            s2 h r current_time), r)) l)).
    { apply in_map_iff. exists r. split; [reflexivity | exact Hr]. }
    specialize (Hmin _ Hrk). apply le_Q_spec in Hmin. unfold key in Hmin.
    cbn [fst] in Hmin. lra.
Qed.

(** X9. With aging, a recorded wait start and a non-negative aging factor,
    the effective priority number never goes below 0, never increases as
    time passes, and never exceeds a non-negative static priority once the
    wait start is reached; the call leaves the policy unchanged. *)
Theorem effective_priority_ages (s : Priority.t) (h : Heap) (r : ref)
    (w t1 t2 : Q) :
  Priority._aging s = true ->
  (0 <= Priority.aging_factor s)%Q ->
  Priority.process_wait_times s !! pid (h r) = Some w ->
  (t1 <= t2)%Q ->
  let e1 := snd (Priority._get_effective_priority s h r t1) in
  let e2 := snd (Priority._get_effective_priority s h r t2) in
  fst (Priority._get_effective_priority s h r t2) = s /\
  (0 <= e2 <= e1)%Q /\
  ((w <= t1)%Q -> (0 <= priority (h r))%Z ->
   (e1 <= inject_Z (priority (h r)))%Q).
Proof.
  intros Ha Hf Hw Ht. unfold Priority._get_effective_priority.
  rewrite Ha, Hw. simpl. rewrite Hw. simpl.
  split; [reflexivity|].
  assert (Hmono : ((t1 - w) * Priority.aging_factor s
                   <= (t2 - w) * Priority.aging_factor s)%Q).
  { apply Qmult_le_compat_r; [lra | exact Hf]. }
  set (p := inject_Z (priority (h r))) in *.
  set (a1 := ((t1 - w) * Priority.aging_factor s)%Q) in *.
  set (a2 := ((t2 - w) * Priority.aging_factor s)%Q) in *.
  unfold py_max.
  destruct (Qltb 0 (p - a1)) eqn:E1; destruct (Qltb 0 (p - a2)) eqn:E2;
    try apply Qltb_lt in E1; try apply Qltb_lt in E2;
    try apply Qltb_ge in E1; try apply Qltb_ge in E2.
  all: split; [split; lra|].
  all: intros Hwt Hp.
  all: assert (0 <= a1)%Q
         by (apply Qmult_le_0_compat; [lra | exact Hf]).
  all: assert (0 <= p)%Q
         by (unfold p; rewrite <- (Zle_Qle 0); exact Hp).
  all: lra.
Qed.

Lemma effective_priority_ages_witness :
  let h : Heap := fun _ => new_process 1 0 5 3 MIXED None in
  let s := Priority.on_process_arrival (Priority.init true true) h 0%nat 0 in
  let e1 := snd (Priority._get_effective_priority s h 0%nat 10) in
  let e2 := snd (Priority._get_effective_priority s h 0%nat 20) in
  fst (Priority._get_effective_priority s h 0%nat 20) = s /\
  (0 <= e2 <= e1)%Q /\
  ((0 <= 10)%Q -> (0 <= priority (h 0%nat))%Z ->
   (e1 <= inject_Z (priority (h 0%nat)))%Q).
Proof.
  apply (effective_priority_ages
           (Priority.on_process_arrival (Priority.init true true)
              (fun _ => new_process 1 0 5 3 MIXED None) 0%nat 0)
           (fun _ => new_process 1 0 5 3 MIXED None) 0%nat 0 10 20).
  - reflexivity.
  - simpl. lra.
  - simpl. apply lookup_insert_eq.
  - lra.
Defined.

(** ** Round Robin *)

Lemma py_remove_notin (r : ref) (l : list ref) :
  ~ In r l -> py_remove r l = l.
Proof.
  induction l as [|x l IH]; simpl; [reflexivity|]. intros Hn.
  destruct (Nat.eqb r x) eqn:E.
  - apply Nat.eqb_eq in E. subst. exfalso. apply Hn. left; reflexivity.
  - f_equal. apply IH. intros H. apply Hn. right; exact H.
Qed.

Lemma py_remove_Permutation (r : ref) (l : list ref) :
  In r l -> Permutation (r :: py_remove r l) l.
Proof.
  induction l as [|x l IH]; simpl; [intros []|]. intros H.
  destruct (Nat.eqb r x) eqn:E.
  - apply Nat.eqb_eq in E. subst. reflexivity.
  - apply Nat.eqb_neq in E. destruct H as [->|H]; [congruence|].
    rewrite perm_swap. constructor. apply IH, H.
Qed.

Lemma py_remove_NoDup (r : ref) (l : list ref) :
  List.NoDup l -> List.NoDup (py_remove r l) /\ ~ In r (py_remove r l).
Proof.
  induction 1 as [|x l Hx Hl IH]; simpl.
  - split; [constructor | intros []].
  - destruct (Nat.eqb r x) eqn:E.
    + apply Nat.eqb_eq in E. subst. split; assumption.
    + apply Nat.eqb_neq in E. destruct IH as [IH1 IH2]. split.
      * constructor; [|exact IH1]. intros H. apply Hx.
        exact (py_remove_In _ _ _ H).
      * intros [->|H]; [congruence | exact (IH2 H)].
Qed.

Lemma NoDup_snoc (x : ref) (l : list ref) :
  List.NoDup l -> ~ In x l -> List.NoDup (l ++ [x]).
Proof.
  intros Hl Hx. apply (Permutation_NoDup (l := x :: l)).
  - rewrite Permutation_app_comm. reflexivity.
  - constructor; assumption.
Qed.

Lemma enqueue_new_spec (h : Heap) (ready_queue : list ref) (s : RoundRobin.t) :
  let s' := RoundRobin.enqueue_new s h ready_queue in
  RoundRobin._time_quantum s' = RoundRobin._time_quantum s /\
  exists added,
    RoundRobin.rr_queue s' = RoundRobin.rr_queue s ++ added /\
    List.NoDup added /\
    forall r, In r added <->
              In r ready_queue /\ ~ In r (RoundRobin.rr_queue s).
Proof.
  revert s. induction ready_queue as [|p rest IH]; intros s; simpl.
  { split; [reflexivity|]. exists []. rewrite app_nil_r.
    split; [reflexivity|]. split; [constructor|].
    intros r. split; [intros [] | intros [[] _]]. }
  destruct (py_in p (RoundRobin.rr_queue s)) eqn:E; simpl.
  - apply py_in_In in E. destruct (IH s) as (Hq & added & Ha & Hnd & Hin).
    split; [exact Hq|]. exists added. split; [exact Ha|].
    split; [exact Hnd|]. intros r. rewrite Hin. split.
    + intros [? ?]. split; [right|]; assumption.
    + intros [[<-|?] Hn]; [contradiction | split; assumption].
  - assert (Hp : ~ In p (RoundRobin.rr_queue s)).
    { intros H. apply py_in_In in H. congruence. }
    match goal with |- context [RoundRobin.enqueue_new ?s1 h rest] =>
      destruct (IH s1) as (Hq & added & Ha & Hnd & Hin) end.
    simpl in Hq, Ha, Hin. split; [exact Hq|].
    exists (p :: added). rewrite Ha, <- app_assoc. split; [reflexivity|].
    split.
    + constructor; [|exact Hnd]. intros H. apply Hin in H.
      destruct H as [_ H]. apply H, in_or_app. right; left; reflexivity.
    + intros r. simpl. rewrite Hin, in_app_iff. simpl. split.
      * intros [<-|[Hr Hn]]; [split; [left; reflexivity | exact Hp]|].
        split; [right; exact Hr|]. intros H. apply Hn. left; exact H.
      * intros [[<-|Hr] Hn]; [left; reflexivity|].
        destruct (Nat.eq_dec p r) as [<-|Hne]; [left; reflexivity|].
        right. split; [exact Hr|]. intros [H|[H|[]]]; [exact (Hn H)|].
        exact (Hne H).
Qed.

(** X10. Round Robin [select_process] appends to the policy's queue
    exactly the ready processes that were not queued yet, once each, after
    the processes already queued; it returns the head of the resulting
    queue and hands the ready queue back unchanged.  The selection is
    [None] exactly when both the policy's queue and the ready queue are
    empty. *)
Theorem round_robin_select_enqueues (s : RoundRobin.t) (h : Heap)
    (core : CPU.CPUCore) (ready_queue : list ref) (current_time : Q) :
  let res := RoundRobin.select_process s h core ready_queue current_time in
  let s' := fst (fst res) in
  snd (fst res) = ready_queue /\
  snd res = head (RoundRobin.rr_queue s') /\
  (exists added,
     RoundRobin.rr_queue s' = RoundRobin.rr_queue s ++ added /\
     List.NoDup added /\
     forall r, In r added <->
               In r ready_queue /\ ~ In r (RoundRobin.rr_queue s)) /\
  (forall r, In r ready_queue -> In r (RoundRobin.rr_queue s')) /\
  (snd res = None <-> RoundRobin.rr_queue s = [] /\ ready_queue = []).
Proof.
  unfold RoundRobin.select_process. cbn [fst snd].
  destruct (enqueue_new_spec h ready_queue s) as (_ & added & Ha & Hnd & Hin).
  split; [reflexivity|]. split; [reflexivity|].
  split; [exists added; auto|]. split.
  - intros r Hr. rewrite Ha, in_app_iff.
    destruct (in_dec Nat.eq_dec r (RoundRobin.rr_queue s)) as [?|Hn];
      [left; assumption|].
    right. apply Hin. split; assumption.
  - rewrite Ha. split.
    + intros Hn. destruct (RoundRobin.rr_queue s) as [|x q]; [|discriminate].
      split; [reflexivity|]. simpl in Hn.
      destruct ready_queue as [|r rq]; [reflexivity|].
      destruct added as [|a ad]; [|discriminate].
      exfalso. apply (proj2 (Hin r)). split; [left; reflexivity | intros []].
    + intros [Hq ->]. rewrite Hq. simpl.
      destruct added as [|a ad]; [reflexivity|].
      destruct (proj1 (Hin a) (or_introl eq_refl)) as [[] _].
Qed.

(** X11. The Round Robin queue stays free of duplicates: if it has none,
    it has none after [select_process], [on_process_completion] and
    [rotate_queue], and a completed process is no longer in it. *)
Theorem round_robin_queue_nodup (s : RoundRobin.t) (h : Heap)
    (core : CPU.CPUCore) (ready_queue : list ref) (process : ref)
    (current_time : Q) :
  List.NoDup (RoundRobin.rr_queue s) ->
  List.NoDup
    (RoundRobin.rr_queue
       (fst (fst (RoundRobin.select_process s h core ready_queue
                    current_time)))) /\
  List.NoDup
    (RoundRobin.rr_queue
       (RoundRobin.on_process_completion s h process current_time)) /\
  ~ In process
      (RoundRobin.rr_queue
         (RoundRobin.on_process_completion s h process current_time)) /\
  List.NoDup (RoundRobin.rr_queue (RoundRobin.rotate_queue s h process)).
Proof.
  intros Hnd. split; [|split; [|split]].
  - unfold RoundRobin.select_process. cbn [fst snd].
    destruct (enqueue_new_spec h ready_queue s) as (_ & added & Ha & Hna & Hin).
    rewrite Ha. apply List.NoDup_app; [exact Hnd | exact Hna|].
    intros x Hx Hx'. apply Hin in Hx'. destruct Hx' as [_ Hn]. exact (Hn Hx).
  - unfold RoundRobin.on_process_completion. simpl.
    destruct (py_in process (RoundRobin.rr_queue s)); [|exact Hnd].
    apply py_remove_NoDup, Hnd.
  - unfold RoundRobin.on_process_completion. simpl.
    destruct (py_in process (RoundRobin.rr_queue s)) eqn:E.
    + apply py_remove_NoDup, Hnd.
    + intros H. apply py_in_In in H. congruence.
  - unfold RoundRobin.rotate_queue.
    destruct (py_in process (RoundRobin.rr_queue s)); [|exact Hnd].
    destruct (py_remove_NoDup process _ Hnd) as [H1 H2].
    destruct (negb (is_completed (h process))); simpl; [|exact H1].
    apply NoDup_snoc; assumption.
Qed.

Lemma round_robin_queue_nodup_witness :
  let s := RoundRobin.mk (Finite 4) [0%nat; 1%nat] ∅ in
  let h := Examples.two_jobs 3 3 in
  let core := CPU.new_core 0 in
  List.NoDup (RoundRobin.rr_queue s) /\
  List.NoDup
    (RoundRobin.rr_queue
       (fst (fst (RoundRobin.select_process s h core [1%nat; 2%nat] 0)))) /\
  List.NoDup
    (RoundRobin.rr_queue (RoundRobin.on_process_completion s h 0%nat 0)) /\
  ~ In 0%nat
      (RoundRobin.rr_queue (RoundRobin.on_process_completion s h 0%nat 0)) /\
  List.NoDup (RoundRobin.rr_queue (RoundRobin.rotate_queue s h 0%nat)).
Proof.
  assert (H : List.NoDup [0%nat; 1%nat]).
  { constructor; [simpl; intros [H|[]]; discriminate|].
    constructor; [intros []|]. constructor. }
  split; [exact H|].
  exact (round_robin_queue_nodup (RoundRobin.mk (Finite 4) [0%nat; 1%nat] ∅)
           (Examples.two_jobs 3 3) (CPU.new_core 0) [1%nat; 2%nat] 0%nat 0 H).
Defined.

(** X12. Selecting twice from the same ready queue is idempotent for Round
    Robin: the second call changes neither the policy state nor the
    selection. *)
Theorem round_robin_select_idempotent (s : RoundRobin.t) (h : Heap)
    (core core' : CPU.CPUCore) (ready_queue : list ref) (t t' : Q) :
  let res := RoundRobin.select_process s h core ready_queue t in
  RoundRobin.select_process (fst (fst res)) h core' ready_queue t' = res.
Proof.
  unfold RoundRobin.select_process. cbn [fst snd].
  assert (H : forall l s0,
             (forall r, In r l -> In r (RoundRobin.rr_queue s0)) ->
             RoundRobin.enqueue_new s0 h l = s0).
  { induction l as [|p rest IH]; intros s0 Hall; simpl; [reflexivity|].
    assert (E : py_in p (RoundRobin.rr_queue s0) = true).
    { apply py_in_In, Hall. left; reflexivity. }
    rewrite E. simpl. apply IH. intros r Hr. apply Hall. right; exact Hr. }
  rewrite H; [reflexivity|].
  intros r Hr.
  destruct (enqueue_new_spec h ready_queue s) as (_ & added & Ha & _ & Hin).
  rewrite Ha, in_app_iff.
  destruct (in_dec Nat.eq_dec r (RoundRobin.rr_queue s)) as [?|Hn];
    [left; assumption|].
  right. apply Hin. split; assumption.
Qed.

(** X13. Rotation after an expired quantum: a queued process that has not
    completed is moved to the tail of the Round Robin queue with a fresh
    quantum, so the queue [p :: rest] becomes [rest ++ [p]]; a completed
    one is dropped from the queue; a process that is not queued leaves the
    policy unchanged.  The queue stays a permutation of itself unless the
    process is dropped. *)
Theorem round_robin_rotate (s : RoundRobin.t) (h : Heap) (process : ref) :
  let s' := RoundRobin.rotate_queue s h process in
  (~ In process (RoundRobin.rr_queue s) -> s' = s) /\
  (In process (RoundRobin.rr_queue s) ->
   is_completed (h process) = false ->
   Permutation (RoundRobin.rr_queue s') (RoundRobin.rr_queue s) /\
   (exists front, RoundRobin.rr_queue s' = front ++ [process]) /\
   RoundRobin.process_quantum_remaining s' !! pid (h process)
   = Some (RoundRobin._time_quantum s) /\
   (forall rest, RoundRobin.rr_queue s = process :: rest ->
                 RoundRobin.rr_queue s' = rest ++ [process])) /\
  (In process (RoundRobin.rr_queue s) ->
   is_completed (h process) = true ->
   Permutation (process :: RoundRobin.rr_queue s') (RoundRobin.rr_queue s) /\
   RoundRobin.process_quantum_remaining s'
   = RoundRobin.process_quantum_remaining s).
Proof.
  unfold RoundRobin.rotate_queue. split; [|split].
  - intros Hn. destruct (py_in process (RoundRobin.rr_queue s)) eqn:E;
      [|reflexivity].
    apply py_in_In in E. contradiction.
  - intros Hin Hc. rewrite (proj2 (py_in_In _ _) Hin), Hc. simpl.
    split; [|split; [|split]].
    + rewrite Permutation_app_comm. simpl.
      apply py_remove_Permutation, Hin.
    + eauto.
    + apply lookup_insert_eq.
    + intros rest E. rewrite E. simpl. rewrite Nat.eqb_refl. reflexivity.
  - intros Hin Hc. rewrite (proj2 (py_in_In _ _) Hin), Hc. simpl.
    split; [apply py_remove_Permutation, Hin | reflexivity].
Qed.

(** ** Load Balancing *)

Lemma py_max_0_nonneg (x : Q) : (0 <= py_max 0 x)%Q.
Proof.
  unfold py_max. destruct (Qltb 0 x) eqn:E; [|lra].
  apply Qltb_lt in E. lra.
Qed.

Lemma le_QQ_spec (a b : Q * Q) :
  le_QQ a b = true <->
  (fst a < fst b)%Q \/ ((fst a == fst b)%Q /\ (snd a <= snd b)%Q).
Proof.
  unfold le_QQ. rewrite orb_true_iff, andb_true_iff, Qltb_lt, Qeq_bool_iff,
    Qle_bool_iff. reflexivity.
Qed.

Lemma le_QQ_total (a b : Q * Q) : le_QQ a b = false -> le_QQ b a = true.
Proof.
  intros H. apply le_QQ_spec.
  destruct (Qlt_le_dec (fst b) (fst a)) as [?|Hle]; [left; assumption|].
  right. destruct (Qlt_le_dec (fst a) (fst b)) as [Hlt|Hge].
  - assert (le_QQ a b = true) by (apply le_QQ_spec; left; exact Hlt).
    congruence.
  - split; [lra|].
    destruct (Qlt_le_dec (snd a) (snd b)) as [Hlt|Hge2]; [|exact Hge2].
    assert (le_QQ a b = true)
      by (apply le_QQ_spec; right; split; lra).
    congruence.
Qed.

Lemma le_QQ_trans (a b c : Q * Q) :
  le_QQ a b = true -> le_QQ b c = true -> le_QQ a c = true.
Proof.
  rewrite !le_QQ_spec. intros [?|[? ?]] [?|[? ?]]; try (left; lra).
  right; split; lra.
Qed.

Lemma head_remaining_least (h : Heap) (l : list ref) (first : ref)
    (rest : list ref) :
  LoadBalancing.by_remaining_then_arrival h l = first :: rest ->
  In first l /\
  forall x, In x l -> (remaining_time (h first) <= remaining_time (h x))%Q.
Proof.
  unfold LoadBalancing.by_remaining_then_arrival. intros E.
  set (key := fun r : ref => (remaining_time (h r), arrival_time (h r))) in *.
  split.
  - apply (sort_by_In le_QQ key). rewrite E. left; reflexivity.
  - intros x Hx.
    pose proof (sort_by_head_least le_QQ key le_QQ_total le_QQ_trans l first)
      as H.
    rewrite E in H. specialize (H eq_refl x Hx). apply le_QQ_spec in H.
    unfold key in H. cbn [fst snd] in H. destruct H as [?|[? _]]; lra.
Qed.

Lemma sort_by_nil {A K : Type} (leb : K -> K -> bool) (key : A -> K)
    (l : list A) : sort_by leb key l = [] -> l = [].
Proof.
  intros H. pose proof (sort_by_Permutation leb key l) as HP.
  rewrite H in HP. apply Permutation_nil in HP. exact HP.
Qed.

Lemma rebalance_candidates_not_none (s : LoadBalancing.t) (h : Heap)
    (load : Q) (ready_queue : list ref) :
  LoadBalancing.rebalance_candidates s h load ready_queue = [] ->
  forall r c, In r ready_queue ->
    LoadBalancing.process_assignments s !! pid (h r) = Some c ->
    (LoadBalancing.load_of s c - load
     <= LoadBalancing.rebalance_threshold s * LoadBalancing.load_of s c)%Q.
Proof.
  induction ready_queue as [|p rest IH]; simpl; [intros _ ? ? []|].
  intros H r c [<-|Hr] Hc.
  - rewrite Hc in H.
    destruct (Qltb _ _) eqn:E in H; [discriminate|].
    apply Qltb_ge in E. exact E.
  - refine (IH _ r c Hr Hc).
    destruct (LoadBalancing.process_assignments s !! pid (h p)); [|exact H].
    destruct (Qltb _ _) in H; [discriminate | exact H].
Qed.

(** X14. The loads recorded by the Load Balancing policy never become
    negative: if every recorded load is non-negative and the ready
    processes have non-negative remaining times, the same holds after a
    successful [select_process], and after [on_process_completion] of any
    process. *)
Theorem load_balancing_loads_nonnegative (s : LoadBalancing.t) (h : Heap)
    (core : CPU.CPUCore) (ready_queue : list ref) (current_time : Q)
    (process : ref) :
  (forall c, 0 <= LoadBalancing.load_of s c)%Q ->
  (forall r, In r ready_queue -> 0 <= remaining_time (h r))%Q ->
  (forall s' q sel,
     LoadBalancing.select_process s h core ready_queue current_time
     = Ok (s', q, sel) ->
     forall c, (0 <= LoadBalancing.load_of s' c)%Q) /\
  (forall c,
     (0 <= LoadBalancing.load_of
             (LoadBalancing.on_process_completion s h process current_time)
             c)%Q).
Proof.
  intros Hs Hrem. split.
  - intros s' q sel. unfold LoadBalancing.select_process.
    destruct ready_queue as [|r0 rest]; [intros [= <- <- <-]; exact Hs|].
    set (rq := r0 :: rest) in *.
    destruct (LoadBalancing.by_remaining_then_arrival h
                (filter (fun r => _ = Some _) rq)) as [|first l1] eqn:E1;
      [|intros [= <- <- <-]; exact Hs].
    destruct (LoadBalancing.by_remaining_then_arrival h
                (filter (fun r => _ = None) rq)) as [|selected l2] eqn:E2.
    + unfold LoadBalancing._try_rebalance.
      destruct (sort_by _ _ _) as [|[stolen d] l3] eqn:E3;
        [cbn; intros [= <- <- <-]; exact Hs|].
      assert (Hin : In (stolen, d)
                (LoadBalancing.rebalance_candidates s h (CPU.get_load core) rq)).
      { apply (sort_by_In (fun a b : Q => Qle_bool b a)
                 (fun c : ref * Q => snd c)).
        rewrite E3. left; reflexivity. }
      apply rebalance_candidates_assigned in Hin as (Hin & old & Hold).
      rewrite Hold. simpl. intros [= <- <- <-] c.
      unfold LoadBalancing.load_of. simpl.
      pose proof (Hrem stolen Hin) as Hr.
      pose proof (py_max_0_nonneg
                    (default 0%Q (LoadBalancing.core_loads s !! old)
                     - remaining_time (h stolen))) as Hm.
      destruct (decide (CPU.core_id core = c)) as [<-|Hc].
      * rewrite lookup_insert_eq. simpl.
        destruct (decide (old = CPU.core_id core)) as [->|Ho].
        -- rewrite lookup_insert_eq. simpl. lra.
        -- rewrite lookup_insert_ne by exact Ho.
           specialize (Hs (CPU.core_id core)).
           unfold LoadBalancing.load_of in Hs. lra.
      * rewrite lookup_insert_ne by exact Hc.
        destruct (decide (old = c)) as [->|Ho].
        -- rewrite lookup_insert_eq. simpl. exact Hm.
        -- rewrite lookup_insert_ne by exact Ho. apply Hs.
    + intros [= <- <- <-] c.
      destruct (head_remaining_least h _ _ _ E2) as [Hin _].
      apply list_elem_of_In, list_elem_of_filter in Hin as [_ Hin].
      apply list_elem_of_In in Hin. pose proof (Hrem selected Hin) as Hr.
      unfold LoadBalancing.load_of. simpl.
      destruct (decide (CPU.core_id core = c)) as [<-|Hc].
      * rewrite lookup_insert_eq. simpl.
        specialize (Hs (CPU.core_id core)).
        unfold LoadBalancing.load_of in Hs. lra.
      * rewrite lookup_insert_ne by exact Hc. apply Hs.
  - intros c. unfold LoadBalancing.on_process_completion.
    destruct (LoadBalancing.process_assignments s !! pid (h process))
      as [assigned|]; [|apply Hs].
    unfold LoadBalancing.load_of at 1. simpl.
    destruct (decide (assigned = c)) as [->|Hc].
    + rewrite lookup_insert_eq. simpl. apply py_max_0_nonneg.
    + rewrite lookup_insert_ne by exact Hc. apply Hs.
Qed.

Lemma load_balancing_loads_nonnegative_witness :
  let s := LoadBalancing.init (3 # 10) in
  let h := Examples.two_jobs 3 5 in
  let core := CPU.new_core 0 in
  (forall c, 0 <= LoadBalancing.load_of s c)%Q /\
  (forall r, In r [0%nat; 1%nat] -> 0 <= remaining_time (h r))%Q /\
  (forall s' q sel,
     LoadBalancing.select_process s h core [0%nat; 1%nat] 0 = Ok (s', q, sel) ->
     forall c, (0 <= LoadBalancing.load_of s' c)%Q) /\
  (forall c,
     (0 <= LoadBalancing.load_of
             (LoadBalancing.on_process_completion s h 0%nat 0) c)%Q).
Proof.
  assert (H1 : forall c,
             (0 <= LoadBalancing.load_of (LoadBalancing.init (3 # 10)) c)%Q).
  { intros c. unfold LoadBalancing.load_of. simpl. rewrite lookup_empty.
    simpl. lra. }
  assert (H2 : forall r, In r [0%nat; 1%nat] ->
                 (0 <= remaining_time (Examples.two_jobs 3 5 r))%Q).
  { intros r [<-|[<-|[]]]; vm_compute; discriminate. }
  split; [exact H1|]. split; [exact H2|].
  exact (load_balancing_loads_nonnegative (LoadBalancing.init (3 # 10))
           (Examples.two_jobs 3 5) (CPU.new_core 0) [0%nat; 1%nat] 0 0%nat
           H1 H2).
Defined.

(** X15. What a successful Load Balancing [select_process] returns.  A
    selected process is in the ready queue and is bound to the requesting
    core afterwards.  If some ready process was already bound to the
    requesting core, the policy state is unchanged and the selection is
    such a process with the least remaining time among them.  If nothing
    is selected, the state is unchanged and every ready process is bound
    to another core whose recorded load does not exceed the requesting
    core's load by more than the rebalance threshold. *)
Theorem load_balancing_selection (s : LoadBalancing.t) (h : Heap)
    (core : CPU.CPUCore) (ready_queue : list ref) (current_time : Q)
    (s' : LoadBalancing.t) (q : list ref) (sel : option ref) :
  LoadBalancing.select_process s h core ready_queue current_time
  = Ok (s', q, sel) ->
  let bound st r c := LoadBalancing.process_assignments st !! pid (h r) = Some c in
  q = ready_queue /\
  match sel with
  | Some r =>
      In r ready_queue /\ bound s' r (CPU.core_id core) /\
      ((exists x, In x ready_queue /\ bound s x (CPU.core_id core)) ->
       s' = s /\ bound s r (CPU.core_id core) /\
       forall x, In x ready_queue -> bound s x (CPU.core_id core) ->
                 (remaining_time (h r) <= remaining_time (h x))%Q)
  | None =>
      s' = s /\
      forall x, In x ready_queue ->
        exists c, bound s x c /\ c <> CPU.core_id core /\
          (LoadBalancing.load_of s c - CPU.get_load core
           <= LoadBalancing.rebalance_threshold s * LoadBalancing.load_of s c)%Q
  end.
Proof.
  intros H bound. subst bound. cbv beta.
  assert (Hq : q = ready_queue).
  { destruct (load_balancing_select _ _ _ _ _ _ _ _ H) as [Hq _]. exact Hq. }
  split; [exact Hq|].
  destruct sel as [r|].
  - destruct (load_balancing_select_cases _ _ _ _ _ _ _ _ H)
      as (_ & Hin & Hcases).
    split; [exact Hin|].
    assert (Hb : LoadBalancing.process_assignments s' !! pid (h r)
                 = Some (CPU.core_id core)).
    { destruct Hcases as [[Hb ->]|[[_ ->]|(old & _ & Hb)]];
        [exact Hb | apply lookup_insert_eq | exact Hb]. }
    split; [exact Hb|].
    intros (x & Hx & Hbx). revert H. unfold LoadBalancing.select_process.
    destruct ready_queue as [|r0 rest]; [destruct Hx|].
    set (rq := r0 :: rest) in *.
    destruct (LoadBalancing.by_remaining_then_arrival h
                (filter (fun r => _ = Some _) rq)) as [|first l1] eqn:E1.
    + exfalso. unfold LoadBalancing.by_remaining_then_arrival in E1.
      apply sort_by_nil in E1.
      assert (Hxf : x ∈ filter
                (fun r => LoadBalancing.process_assignments s !! pid (h r)
                          = Some (CPU.core_id core)) rq).
      { apply list_elem_of_filter. split; [exact Hbx|].
        apply list_elem_of_In, Hx. }
      rewrite E1 in Hxf. inversion Hxf.
    + intros [= Hs' Hr']. subst s' r.
      destruct (head_remaining_least h _ _ _ E1) as [Hf Hl].
      apply list_elem_of_In, list_elem_of_filter in Hf as [Hf _].
      split; [reflexivity|]. split; [exact Hf|].
      intros y Hy Hby. apply Hl, list_elem_of_In, list_elem_of_filter.
      split; [exact Hby | apply list_elem_of_In, Hy].
  - revert H. unfold LoadBalancing.select_process.
    destruct ready_queue as [|r0 rest].
    { intros [= <- _]. split; [reflexivity | intros ? []]. }
    set (rq := r0 :: rest) in *.
    destruct (LoadBalancing.by_remaining_then_arrival h
                (filter (fun r => _ = Some _) rq)) as [|first l1] eqn:E1;
      [|discriminate].
    destruct (LoadBalancing.by_remaining_then_arrival h
                (filter (fun r => _ = None) rq)) as [|selected l2] eqn:E2;
      [|discriminate].
    unfold LoadBalancing._try_rebalance.
    destruct (sort_by _ _ _) as [|[stolen d] l3] eqn:E3.
    2:{ destruct (LoadBalancing.process_assignments s !! pid (h stolen));
          cbn; discriminate. }
    cbn. intros [= <- _]. split; [reflexivity|].
    apply sort_by_nil in E3.
    unfold LoadBalancing.by_remaining_then_arrival in E1, E2.
    apply sort_by_nil in E1. apply sort_by_nil in E2.
    intros x Hx.
    destruct (LoadBalancing.process_assignments s !! pid (h x)) as [c|] eqn:Ec.
    + exists c. split; [reflexivity|]. split.
      * intros ->.
        assert (Hxf : x ∈ filter
                  (fun r => LoadBalancing.process_assignments s !! pid (h r)
                            = Some (CPU.core_id core)) rq).
        { apply list_elem_of_filter. split; [exact Ec|].
          apply list_elem_of_In, Hx. }
        rewrite E1 in Hxf. inversion Hxf.
      * exact (rebalance_candidates_not_none _ _ _ _ E3 x c Hx Ec).
    + exfalso.
      assert (Hxf : x ∈ filter
                (fun r => LoadBalancing.process_assignments s !! pid (h r)
                          = None) rq).
      { apply list_elem_of_filter. split; [exact Ec|].
        apply list_elem_of_In, Hx. }
      rewrite E2 in Hxf. inversion Hxf.
Qed.

Lemma load_balancing_selection_witness :
  let s := LoadBalancing.init (3 # 10) in
  let h := Examples.two_jobs 3 5 in
  let core := CPU.new_core 0 in
  let bound st r c := LoadBalancing.process_assignments st !! pid (h r) = Some c in
  exists s' q sel,
    LoadBalancing.select_process s h core [0%nat; 1%nat] 0 = Ok (s', q, sel) /\
    q = [0%nat; 1%nat] /\
    match sel with
    | Some r =>
        In r [0%nat; 1%nat] /\ bound s' r (CPU.core_id core) /\
        ((exists x, In x [0%nat; 1%nat] /\ bound s x (CPU.core_id core)) ->
         s' = s /\ bound s r (CPU.core_id core) /\
         forall x, In x [0%nat; 1%nat] -> bound s x (CPU.core_id core) ->
                   (remaining_time (h r) <= remaining_time (h x))%Q)
    | None =>
        s' = s /\
        forall x, In x [0%nat; 1%nat] ->
          exists c, bound s x c /\ c <> CPU.core_id core /\
            (LoadBalancing.load_of s c - CPU.get_load core
             <= LoadBalancing.rebalance_threshold s * LoadBalancing.load_of s c)%Q
    end.
Proof.
  intros s h core bound.
  destruct (LoadBalancing.select_process s h core [0%nat; 1%nat] 0)
    as [[[s' q] sel]|e] eqn:E; [|vm_compute in E; discriminate].
  exists s', q, sel. split; [reflexivity|].
  exact (load_balancing_selection s h core [0%nat; 1%nat] 0 s' q sel E).
Defined.

(** ** Work Stealing *)

Lemma set_queue_keys (cq : list (Z * list ref)) (c : Z) (q : list ref) :
  map fst (WorkStealing.set_queue cq c q) = map fst cq.
Proof.
  induction cq as [|[k q0] rest IH]; simpl; [reflexivity|].
  destruct (Z.eqb k c); simpl; [reflexivity | f_equal; exact IH].
Qed.

Lemma queue_of_key (cq : list (Z * list ref)) (c : Z) :
  In c (map fst cq) -> exists q, WorkStealing.queue_of cq c = Ok q.
Proof.
  induction cq as [|[k q0] rest IH]; simpl; [intros []|].
  destruct (Z.eqb k c) eqn:E; [eauto|].
  intros [->|H]; [rewrite Z.eqb_refl in E; discriminate | exact (IH H)].
Qed.

Lemma queue_of_no_key (cq : list (Z * list ref)) (c : Z) :
  ~ In c (map fst cq) -> WorkStealing.queue_of cq c = Raise (KeyError c).
Proof.
  induction cq as [|[k q0] rest IH]; simpl; [reflexivity|]. intros Hn.
  destruct (Z.eqb k c) eqn:E.
  - apply Z.eqb_eq in E. exfalso. apply Hn. left; exact E.
  - apply IH. intros H. apply Hn. right; exact H.
Qed.

Lemma set_queue_queued (cq : list (Z * list ref)) (c : Z) (q q' : list ref) :
  WorkStealing.queue_of cq c = Ok q ->
  (queued (WorkStealing.set_queue cq c q') + length q
   = queued cq + length q')%nat.
Proof.
  unfold queued. induction cq as [|[k q0] rest IH]; simpl; [discriminate|].
  destruct (Z.eqb k c); simpl.
  - intros [= ->]. lia.
  - intros H. specialize (IH H). lia.
Qed.

Lemma drain_global_queued (h : Heap) (g : list ref) (cq : list (Z * list ref))
    (pcm : gmap Z Z) (cq' : list (Z * list ref)) (pcm' : gmap Z Z) :
  WorkStealing.drain_global h g cq pcm = Ok (cq', pcm') ->
  queued cq' = (queued cq + length g)%nat /\ map fst cq' = map fst cq.
Proof.
  revert cq pcm. induction g as [|p rest IH]; intros cq pcm; simpl.
  { intros [= <- <-]. split; [lia | reflexivity]. }
  destruct cq as [|k0 ks]; [discriminate|].
  intros H. inv_bind H.
  destruct (IH _ _ H) as [Hq Hk].
  pose proof (set_queue_queued _ _ _ (a ++ [p]) E) as Hs.
  rewrite length_app in Hs. change (length [p]) with 1%nat in Hs.
  rewrite set_queue_keys in Hk. split; [lia | exact Hk].
Qed.

Lemma drain_global_succeeds (h : Heap) (g : list ref)
    (cq : list (Z * list ref)) (pcm : gmap Z Z) :
  cq <> [] ->
  exists cq' pcm', WorkStealing.drain_global h g cq pcm = Ok (cq', pcm').
Proof.
  revert cq pcm. induction g as [|p rest IH]; intros cq pcm Hne; simpl;
    [eauto|].
  destruct cq as [|k0 ks]; [contradiction|].
  set (m := min_by_from Nat.leb
              (fun kq : Z * list ref => length (snd kq)) k0 ks).
  assert (Hin : In (fst m) (map fst (k0 :: ks))).
  { apply in_map, min_by_from_In. }
  destruct (queue_of_key _ _ Hin) as [q Hq]. rewrite Hq.
  cbv [mbind result_bind]. apply IH. intros Hnil.
  assert (Hk : map fst (WorkStealing.set_queue (k0 :: ks) (fst m) (q ++ [p]))
               = map fst (k0 :: ks)) by apply set_queue_keys.
  rewrite Hnil in Hk. discriminate.
Qed.

Lemma removelast_length {A : Type} (l : list A) :
  length (removelast l) = (length l - 1)%nat.
Proof.
  induction l as [|x l IH]; [reflexivity|].
  destruct l as [|y l]; [reflexivity|].
  change (removelast (x :: y :: l)) with (x :: removelast (y :: l)).
  simpl length in *. lia.
Qed.

Lemma steal_work_queued (s : WorkStealing.t) (h : Heap) (thief : Z) (t : Q)
    (s' : WorkStealing.t) (sel : option ref) :
  WorkStealing._steal_work s h thief t = Ok (s', sel) ->
  (queued (WorkStealing.core_queues s')
   + match sel with Some _ => 1 | None => 0 end
   = queued (WorkStealing.core_queues s))%nat /\
  WorkStealing.global_queue s' = WorkStealing.global_queue s /\
  map fst (WorkStealing.core_queues s') = map fst (WorkStealing.core_queues s).
Proof.
  unfold WorkStealing._steal_work.
  destruct (List.filter _ _) as [|v0 vs].
  { intros [= <- <-]. repeat split; lia. }
  destruct (shuffle (v0 :: vs) (WorkStealing.random s)) as [shuffled g].
  cbv zeta. cbn [WorkStealing.core_queues WorkStealing.steal_attempts
                 WorkStealing.num_cores WorkStealing.process_core_map
                 WorkStealing.global_queue WorkStealing.random].
  intros H. inv_bind H. destruct a as [victim|].
  2:{ injection H as <- <-. simpl. repeat split; lia. }
  inv_bind H. destruct (Nat.leb 2 (length a)) eqn:El.
  2:{ injection H as <- <-. simpl. repeat split; lia. }
  destruct (last a) as [stolen|] eqn:Elast.
  2:{ injection H as <- <-. simpl. repeat split; lia. }
  injection H as <- <-.
  cbn [WorkStealing.core_queues WorkStealing.global_queue].
  pose proof (set_queue_queued _ _ _ (removelast a) E0) as Hs.
  apply Nat.leb_le in El.
  pose proof (removelast_length a) as Hl.
  rewrite set_queue_keys. split; [lia|]. split; reflexivity.
Qed.

(** X16. Work Stealing loses and invents no queue entry: after a
    successful [select_process] the global queue is empty, the key set of
    the local queues is unchanged, and the number of entries in the local
    queues plus one for a returned process equals the number of entries
    before plus the entries of the global queue and the new ready
    processes (those whose pid is not mapped to a core and that are not in
    the global queue). *)
Theorem work_stealing_select_conserves (s : WorkStealing.t) (h : Heap)
    (core : CPU.CPUCore) (ready_queue : list ref) (current_time : Q)
    (s' : WorkStealing.t) (q : list ref) (sel : option ref) :
  WorkStealing.select_process s h core ready_queue current_time
  = Ok (s', q, sel) ->
  let new_processes :=
    List.filter
      (fun p =>
         match WorkStealing.process_core_map s !! pid (h p) with
         | None => negb (py_in p (WorkStealing.global_queue s))
         | Some _ => false
         end) ready_queue in
  q = ready_queue /\
  WorkStealing.global_queue s' = [] /\
  map fst (WorkStealing.get_queue_sizes s') = map fst (WorkStealing.get_queue_sizes s) /\
  (list_sum (map snd (WorkStealing.get_queue_sizes s'))
   + match sel with Some _ => 1 | None => 0 end
   = list_sum (map snd (WorkStealing.get_queue_sizes s))
     + length (WorkStealing.global_queue s) + length new_processes)%nat.
Proof.
  assert (Hsum : forall st, list_sum (map snd (WorkStealing.get_queue_sizes st))
                            = queued (WorkStealing.core_queues st)).
  { intros st. unfold WorkStealing.get_queue_sizes, queued. rewrite map_map. reflexivity. }
  assert (Hkeys : forall st, map fst (WorkStealing.get_queue_sizes st)
                             = map fst (WorkStealing.core_queues st)).
  { intros st. unfold WorkStealing.get_queue_sizes. rewrite map_map. reflexivity. }
  unfold WorkStealing.select_process, WorkStealing._distribute_new_processes.
  intros H. rewrite !Hsum, !Hkeys.
  inv_bind H. inv_bind E. destruct a0 as [cq pcm]. injection E as <-.
  match goal with
  | Hd : WorkStealing.drain_global _ _ _ _ = _ |- _ =>
      apply drain_global_queued in Hd as [Hq Hk]
  end.
  rewrite length_app in Hq.
  cbn [WorkStealing.core_queues WorkStealing.steal_attempts
       WorkStealing.num_cores WorkStealing.process_core_map
       WorkStealing.global_queue WorkStealing.random] in H.
  apply bind_Ok in H as (local & Hlocal & H).
  destruct local as [|process rest].
  - apply bind_Ok in H as ([s1 stolen] & Hsteal & H).
    injection H as <- <- <-.
    apply steal_work_queued in Hsteal as (Hs & Hg & Hk2).
    cbn [WorkStealing.core_queues WorkStealing.global_queue] in Hs, Hg, Hk2.
    split; [reflexivity|]. split; [exact Hg|].
    split; [congruence | lia].
  - injection H as <- <- <-.
    cbn [WorkStealing.core_queues WorkStealing.global_queue].
    pose proof (set_queue_queued _ _ _ rest Hlocal) as Hs.
    change (length (process :: rest)) with (S (length rest)) in Hs.
    rewrite set_queue_keys.
    split; [reflexivity|]. split; [reflexivity|]. split; [exact Hk | lia].
Qed.

Lemma work_stealing_select_conserves_witness :
  let s := WorkStealing.init 2 3 Examples.no_draws in
  let h := Examples.two_jobs 3 5 in
  let core := CPU.new_core 0 in
  let new_processes :=
    List.filter
      (fun p =>
         match WorkStealing.process_core_map s !! pid (h p) with
         | None => negb (py_in p (WorkStealing.global_queue s))
         | Some _ => false
         end) [0%nat; 1%nat] in
  exists s' q sel,
    WorkStealing.select_process s h core [0%nat; 1%nat] 0 = Ok (s', q, sel) /\
    q = [0%nat; 1%nat] /\
    WorkStealing.global_queue s' = [] /\
    map fst (WorkStealing.get_queue_sizes s') = map fst (WorkStealing.get_queue_sizes s) /\
    (list_sum (map snd (WorkStealing.get_queue_sizes s'))
     + match sel with Some _ => 1 | None => 0 end
     = list_sum (map snd (WorkStealing.get_queue_sizes s))
       + length (WorkStealing.global_queue s) + length new_processes)%nat.
Proof.
  intros s h core new_processes.
  destruct (WorkStealing.select_process s h core [0%nat; 1%nat] 0)
    as [[[s' q] sel]|e] eqn:E; [|vm_compute in E; discriminate].
  exists s', q, sel. split; [reflexivity|].
  exact (work_stealing_select_conserves s h core [0%nat; 1%nat] 0 s' q sel E).
Defined.

(** X17. Work Stealing fails for a core it has no queue for: when the
    requesting core's id is not a key of [core_queues], [select_process]
    raises a [ValueError] (from [min] over no keys) if there are no queues
    at all and something is to be distributed, and [KeyError] for the core
    id otherwise.  A policy built for [n] cores has the keys [0 .. n-1]. *)
Theorem work_stealing_unknown_core (s : WorkStealing.t) (h : Heap)
    (core : CPU.CPUCore) (ready_queue : list ref) (current_time : Q) :
  ~ In (CPU.core_id core) (map fst (WorkStealing.core_queues s)) ->
  let new_processes :=
    List.filter
      (fun p =>
         match WorkStealing.process_core_map s !! pid (h p) with
         | None => negb (py_in p (WorkStealing.global_queue s))
         | Some _ => false
         end) ready_queue in
  match WorkStealing.core_queues s,
        WorkStealing.global_queue s ++ new_processes with
  | [], _ :: _ =>
      exists msg,
        WorkStealing.select_process s h core ready_queue current_time
        = Raise (ValueError msg)
  | _, _ =>
      WorkStealing.select_process s h core ready_queue current_time
      = Raise (KeyError (CPU.core_id core))
  end.
Proof.
  intros Hn new_processes.
  unfold WorkStealing.select_process, WorkStealing._distribute_new_processes.
  fold new_processes.
  destruct (WorkStealing.core_queues s) as [|k0 ks] eqn:Ecq.
  - destruct (WorkStealing.global_queue s ++ new_processes) as [|p g];
      [reflexivity | eexists; reflexivity].
  - destruct (drain_global_succeeds h
                (WorkStealing.global_queue s ++ new_processes) (k0 :: ks)
                (WorkStealing.process_core_map s)) as (cq' & pcm' & Hd);
      [discriminate|].
    rewrite Hd. simpl.
    apply drain_global_queued in Hd as [_ Hk].
    rewrite queue_of_no_key; [|rewrite Hk; exact Hn].
    destruct (WorkStealing.global_queue s ++ new_processes); reflexivity.
Qed.

Lemma work_stealing_unknown_core_witness :
  let s := WorkStealing.init 2 3 Examples.no_draws in
  let h := Examples.two_jobs 3 5 in
  let core := CPU.new_core 2 in
  ~ In (CPU.core_id core) (map fst (WorkStealing.core_queues s)) /\
  WorkStealing.select_process s h core [0%nat; 1%nat] 0
  = Raise (KeyError 2).
Proof.
  intros s h core.
  assert (H : ~ In (CPU.core_id core) (map fst (WorkStealing.core_queues s))).
  { simpl. intros [H|[H|[]]]; discriminate. }
  split; [exact H|].
  exact (work_stealing_unknown_core s h core [0%nat; 1%nat] 0 H).
Defined.

Lemma queue_of_unique (cq : list (Z * list ref)) (k : Z) (q q' : list ref) :
  List.NoDup (map fst cq) -> In (k, q) cq ->
  WorkStealing.queue_of cq k = Ok q' -> q' = q.
Proof.
  induction cq as [|[k0 q0] rest IH]; simpl; [intros _ []|].
  intros Hnd Hin. inversion Hnd as [|? ? Hk0 Hrest]; subst.
  destruct (Z.eqb k0 k) eqn:E.
  - apply Z.eqb_eq in E. subst k0. intros [= <-].
    destruct Hin as [[= ->]|Hin]; [reflexivity|].
    exfalso. apply Hk0. apply (in_map fst) in Hin. exact Hin.
  - destruct Hin as [[= -> ->]|Hin]; [rewrite Z.eqb_refl in E; discriminate|].
    apply IH; assumption.
Qed.

Lemma set_queue_elements (cq : list (Z * list ref)) (c : Z) (q : list ref)
    (x : Z * list ref) :
  In x (WorkStealing.set_queue cq c q) -> x = (c, q) \/ In x cq.
Proof.
  induction cq as [|[k q0] rest IH]; simpl; [intros []|].
  destruct (Z.eqb k c) eqn:E.
  - apply Z.eqb_eq in E. subst k. intros [<-|H]; [left; reflexivity|].
    right; right; exact H.
  - intros [<-|H]; [right; left; reflexivity|].
    destruct (IH H) as [->|Hin]; [left; reflexivity | right; right; exact Hin].
Qed.

Lemma drain_global_balanced (h : Heap) (g : list ref)
    (cq : list (Z * list ref)) (pcm : gmap Z Z) (cq' : list (Z * list ref))
    (pcm' : gmap Z Z) :
  List.NoDup (map fst cq) -> balanced cq ->
  WorkStealing.drain_global h g cq pcm = Ok (cq', pcm') ->
  balanced cq'.
Proof.
  revert cq pcm. induction g as [|p rest IH]; intros cq pcm Hnd Hbal; simpl.
  { intros [= <- _]. exact Hbal. }
  destruct cq as [|k0 ks]; [discriminate|].
  set (m := min_by_from Nat.leb
              (fun kq : Z * list ref => length (snd kq)) k0 ks).
  intros H. apply bind_Ok in H as (q & Hq & H).
  assert (Hm : In m (k0 :: ks)) by apply min_by_from_In.
  assert (Hleast : forall x, In x (k0 :: ks) ->
                     (length (snd m) <= length (snd x))%nat).
  { intros x Hx. apply Nat.leb_le.
    apply (min_by_from_least Nat.leb
             (fun kq : Z * list ref => length (snd kq))); [| |exact Hx].
    - intros a b Hab. apply Nat.leb_le. apply Nat.leb_gt in Hab. lia.
    - intros a b c Hab Hbc. apply Nat.leb_le.
      apply Nat.leb_le in Hab, Hbc. lia. }
  assert (Hqm : q = snd m).
  { apply (queue_of_unique (k0 :: ks) (fst m) (snd m) q Hnd); [|exact Hq].
    destruct m; exact Hm. }
  subst q. refine (IH _ _ _ _ H).
  - rewrite set_queue_keys. exact Hnd.
  - intros a b Ha Hb.
    apply set_queue_elements in Ha, Hb.
    destruct Ha as [->|Ha], Hb as [->|Hb]; cbn [snd];
      rewrite ?length_app; simpl length.
    + lia.
    + specialize (Hleast b Hb). lia.
    + specialize (Hbal a m Ha Hm). lia.
    + exact (Hbal a b Ha Hb).
Qed.

(** X18. Work Stealing distributes evenly: if the local queues have
    distinct keys and their lengths differ by at most one, then after
    [_distribute_new_processes] has spread the global queue and the new
    ready processes over them, the lengths still differ by at most one. *)
Theorem work_stealing_distributes_evenly (s : WorkStealing.t) (h : Heap)
    (ready_queue : list ref) (s' : WorkStealing.t) :
  List.NoDup (map fst (WorkStealing.get_queue_sizes s)) ->
  (forall a b, In a (WorkStealing.get_queue_sizes s) -> In b (WorkStealing.get_queue_sizes s) ->
               (snd a <= snd b + 1)%nat) ->
  WorkStealing._distribute_new_processes s h ready_queue = Ok s' ->
  List.NoDup (map fst (WorkStealing.get_queue_sizes s')) /\
  forall a b, In a (WorkStealing.get_queue_sizes s') -> In b (WorkStealing.get_queue_sizes s') ->
              (snd a <= snd b + 1)%nat.
Proof.
  assert (Hkeys : forall st, map fst (WorkStealing.get_queue_sizes st)
                             = map fst (WorkStealing.core_queues st)).
  { intros st. unfold WorkStealing.get_queue_sizes. rewrite map_map. reflexivity. }
  assert (Hbal : forall st,
             (forall a b, In a (WorkStealing.get_queue_sizes st) ->
                          In b (WorkStealing.get_queue_sizes st) ->
                          (snd a <= snd b + 1)%nat)
             <-> balanced (WorkStealing.core_queues st)).
  { intros st. unfold balanced, WorkStealing.get_queue_sizes. split.
    - intros H a b Ha Hb.
      specialize (H (fst a, length (snd a)) (fst b, length (snd b))).
      cbn [snd] in H. rewrite Nat.add_1_r in H. apply H;
        apply in_map_iff; eauto.
    - intros H a b Ha Hb. apply in_map_iff in Ha as (a' & <- & Ha).
      apply in_map_iff in Hb as (b' & <- & Hb). cbn [snd].
      rewrite Nat.add_1_r. exact (H a' b' Ha Hb). }
  rewrite !Hkeys, !Hbal. intros Hnd Hb.
  unfold WorkStealing._distribute_new_processes. intros H.
  apply bind_Ok in H as ([cq pcm] & Hd & H). injection H as <-.
  cbn [WorkStealing.core_queues]. split.
  - apply drain_global_queued in Hd as [_ Hk]. rewrite Hk. exact Hnd.
  - exact (drain_global_balanced _ _ _ _ _ _ Hnd Hb Hd).
Qed.

Lemma work_stealing_distributes_evenly_witness :
  let s := WorkStealing.init 2 3 Examples.no_draws in
  let h := Examples.two_jobs 3 5 in
  List.NoDup (map fst (WorkStealing.get_queue_sizes s)) /\
  (forall a b, In a (WorkStealing.get_queue_sizes s) -> In b (WorkStealing.get_queue_sizes s) ->
               (snd a <= snd b + 1)%nat) /\
  exists s',
    WorkStealing._distribute_new_processes s h [0%nat; 1%nat] = Ok s' /\
    List.NoDup (map fst (WorkStealing.get_queue_sizes s')) /\
    forall a b, In a (WorkStealing.get_queue_sizes s') -> In b (WorkStealing.get_queue_sizes s') ->
                (snd a <= snd b + 1)%nat.
Proof.
  intros s h.
  assert (H1 : List.NoDup (map fst (WorkStealing.get_queue_sizes s))).
  { simpl. constructor; [intros [H|[]]; discriminate|].
    constructor; [intros []|constructor]. }
  assert (H2 : forall a b, In a (WorkStealing.get_queue_sizes s) ->
                 In b (WorkStealing.get_queue_sizes s) -> (snd a <= snd b + 1)%nat).
  { simpl. intros a b [<-|[<-|[]]] [<-|[<-|[]]]; simpl; lia. }
  split; [exact H1|]. split; [exact H2|].
  destruct (WorkStealing._distribute_new_processes s h [0%nat; 1%nat])
    as [s'|e] eqn:E; [|vm_compute in E; discriminate].
  exists s'. split; [reflexivity|].
  exact (work_stealing_distributes_evenly s h [0%nat; 1%nat] s' H1 H2 E).
Defined.

(** ** Exceptions of [select_process] *)

Lemma bind_Raise {A B : Type} (m : result A) (k : A -> result B) (e : exn) :
  m ≫= k = Raise e ->
  m = Raise e \/ exists a, m = Ok a /\ k a = Raise e.
Proof. destruct m as [a|e']; [eauto | intros [= ->]; left; reflexivity]. Qed.

Lemma queue_of_raises (cq : list (Z * list ref)) (c : Z) (e : exn) :
  WorkStealing.queue_of cq c = Raise e -> e = KeyError c.
Proof.
  induction cq as [|[k q] rest IH]; simpl; [intros [= <-]; reflexivity|].
  destruct (Z.eqb k c); [discriminate | exact IH].
Qed.

Lemma load_balancing_select_total (s : LoadBalancing.t) (h : Heap)
    (core : CPU.CPUCore) (ready_queue : list ref) (current_time : Q) :
  exists res,
    LoadBalancing.select_process s h core ready_queue current_time = Ok res.
Proof.
  unfold LoadBalancing.select_process.
  destruct ready_queue as [|r0 rest]; [eauto|].
  set (rq := r0 :: rest).
  destruct (LoadBalancing.by_remaining_then_arrival h
              (filter (fun r => _ = Some _) rq)) as [|first l1]; [|eauto].
  destruct (LoadBalancing.by_remaining_then_arrival h
              (filter (fun r => _ = None) rq)) as [|selected l2]; [|eauto].
  unfold LoadBalancing._try_rebalance.
  destruct (sort_by _ _ _) as [|[stolen d] l3] eqn:E3; [cbn; eauto|].
  assert (Hin : In (stolen, d)
            (LoadBalancing.rebalance_candidates s h (CPU.get_load core) rq)).
  { apply (sort_by_In (fun a b : Q => Qle_bool b a)
             (fun c : ref * Q => snd c)).
    rewrite E3. left; reflexivity. }
  apply rebalance_candidates_assigned in Hin as (_ & old & Hold).
  rewrite Hold. cbn. eauto.
Qed.

Lemma drain_global_raises (h : Heap) (g : list ref) (cq : list (Z * list ref))
    (pcm : gmap Z Z) (e : exn) :
  WorkStealing.drain_global h g cq pcm = Raise e -> work_stealing_error e.
Proof.
  revert cq pcm. induction g as [|p rest IH]; intros cq pcm; simpl;
    [discriminate|].
  destruct cq as [|k0 ks]; [intros [= <-]; right; eexists; reflexivity|].
  intros H. apply bind_Raise in H as [H|(q & _ & H)].
  - left. eexists. exact (queue_of_raises _ _ _ H).
  - exact (IH _ _ H).
Qed.

Lemma find_victim_raises (cq : list (Z * list ref)) (l : list Z)
    (best : option Z) (n : nat) (e : exn) :
  WorkStealing.find_victim cq l best n = Raise e -> work_stealing_error e.
Proof.
  revert best n. induction l as [|x rest IH]; intros best n; simpl;
    [discriminate|].
  intros H. apply bind_Raise in H as [H|(q & _ & H)].
  - left. eexists. exact (queue_of_raises _ _ _ H).
  - destruct (Nat.ltb n (length q)); exact (IH _ _ H).
Qed.

Lemma work_stealing_select_raises (s : WorkStealing.t) (h : Heap)
    (core : CPU.CPUCore) (ready_queue : list ref) (current_time : Q)
    (e : exn) :
  WorkStealing.select_process s h core ready_queue current_time = Raise e ->
  work_stealing_error e.
Proof.
  unfold WorkStealing.select_process, WorkStealing._distribute_new_processes.
  intros H. apply bind_Raise in H as [H|(s1 & _ & H)].
  { apply bind_Raise in H as [H|([cq pcm] & _ & H)]; [|discriminate].
    exact (drain_global_raises _ _ _ _ _ H). }
  apply bind_Raise in H as [H|(q & _ & H)].
  { left. eexists. exact (queue_of_raises _ _ _ H). }
  destruct q as [|process rest]; [|discriminate].
  apply bind_Raise in H as [H|([s2 stolen] & _ & H)]; [|discriminate].
  revert H. unfold WorkStealing._steal_work.
  destruct (List.filter _ _) as [|v0 vs]; [discriminate|].
  destruct (shuffle (v0 :: vs) (WorkStealing.random s1)) as [shuffled g].
  cbv zeta. cbn [WorkStealing.core_queues WorkStealing.steal_attempts
                 WorkStealing.num_cores WorkStealing.process_core_map
                 WorkStealing.global_queue WorkStealing.random].
  intros H. apply bind_Raise in H as [H|(best & _ & H)].
  { exact (find_victim_raises _ _ _ _ _ H). }
  destruct best as [victim|]; [|discriminate].
  apply bind_Raise in H as [H|(q & _ & H)].
  { left. eexists. exact (queue_of_raises _ _ _ H). }
  destruct (Nat.leb 2 (length q)); [|discriminate].
  destruct (last q); discriminate.
Qed.

Lemma policy_select_raises (p : Policy) (h : Heap) (core : CPU.CPUCore)
    (ready_queue : list ref) (current_time : Q) (e : exn) :
  Policy.select_process p h core ready_queue current_time = Raise e ->
  (exists s, p = WorkStealingScheduler s) /\ work_stealing_error e.
Proof.
  destruct p as [|s|s|s|s|s]; unfold Policy.select_process.
  - destruct (FCFS.select_process _ _ _ _); discriminate.
  - destruct (SJF.select_process _ _ _ _ _); discriminate.
  - destruct (RoundRobin.select_process _ _ _ _ _) as [[? ?] ?]; discriminate.
  - destruct (Priority.select_process _ _ _ _ _) as [[? ?] ?]; discriminate.
  - destruct (load_balancing_select_total s h core ready_queue current_time)
      as [[[s' q] sel] ->]. discriminate.
  - intros H. split; [eauto|].
    apply bind_Raise in H as [H|([[s' q] sel] & _ & H)]; [|discriminate].
    exact (work_stealing_select_raises _ _ _ _ _ _ H).
Qed.

Lemma sched_select_raises (s : Scheduler) (h : Heap)
    (core : CPU.CPUCore) (ready_queue : list ref) (current_time : Q)
    (e : exn) :
  Sched.select_process s h core ready_queue current_time = Raise e ->
  match s with
  | Basic p => (exists w, p = WorkStealingScheduler w) /\ work_stealing_error e
  | AdaptiveScheduler a =>
      (e = ZeroDivisionError /\ Adaptive.num_cores a = 0%Z /\
       (Adaptive.adaptation_interval a
        <= current_time - Adaptive.last_adaptation_time a)%Q)
      \/ work_stealing_error e
  end.
Proof.
  destruct s as [p|a]; simpl.
  - intros H. apply bind_Raise in H as [H|([[p' q] sel] & _ & H)];
      [|discriminate].
    exact (policy_select_raises _ _ _ _ _ _ H).
  - intros H. apply bind_Raise in H as [H|([[a' q] sel] & _ & H)];
      [|discriminate].
    unfold Adaptive.select_process in H.
    apply bind_Raise in H as [H|(a1 & _ & H)].
    + left. destruct (Qle_bool _ _) eqn:Edue; [|discriminate].
      apply Qle_bool_iff in Edue.
      apply bind_Raise in H as [H|(a1 & _ & H)]; [|discriminate].
      unfold Adaptive._adapt_scheduler in H.
      apply bind_Raise in H as [H|(st & _ & H)]; [|discriminate].
      unfold Adaptive._analyze_system_state in H.
      destruct (Z.eqb (Adaptive.num_cores a) 0) eqn:E0.
      * apply Z.eqb_eq in E0. injection H as <-. auto.
      * destruct (Qltb _ 1); [discriminate|].
        destruct (Qltb _ 3); discriminate.
    + right. apply bind_Raise in H as [H|([[p' q] sel] & _ & H)];
        [|discriminate].
      exact (proj2 (policy_select_raises _ _ _ _ _ _ H)).
Qed.

(** X19. The exceptions of [select_process].  FCFS, SJF, Round Robin,
    Priority and Load Balancing never raise.  Work Stealing raises only
    [KeyError] or the [ValueError] of [min] over no queues.  The Adaptive
    scheduler raises [ZeroDivisionError] when an adaptation is due and it
    was built for zero cores, and only then; any other exception it raises
    is one of the two of Work Stealing. *)
Theorem select_process_exceptions (s : Scheduler) (h : Heap)
    (core : CPU.CPUCore) (ready_queue : list ref) (current_time : Q) :
  (forall e,
     Sched.select_process s h core ready_queue current_time = Raise e ->
     match s with
     | Basic p =>
         (exists w, p = WorkStealingScheduler w) /\ work_stealing_error e
     | AdaptiveScheduler a =>
         (e = ZeroDivisionError /\ Adaptive.num_cores a = 0%Z /\
          (Adaptive.adaptation_interval a
           <= current_time - Adaptive.last_adaptation_time a)%Q)
         \/ work_stealing_error e
     end) /\
  (forall a,
     s = AdaptiveScheduler a -> Adaptive.num_cores a = 0%Z ->
     (Adaptive.adaptation_interval a
      <= current_time - Adaptive.last_adaptation_time a)%Q ->
     Sched.select_process s h core ready_queue current_time
     = Raise ZeroDivisionError).
Proof.
  split; [intros e; apply sched_select_raises|].
  intros a -> H0 Hdue. simpl. unfold Adaptive.select_process.
  apply Qle_bool_iff in Hdue. rewrite Hdue.
  unfold Adaptive._adapt_scheduler, Adaptive._analyze_system_state.
  rewrite H0. reflexivity.
Qed.

(** ** Bookkeeping of the Adaptive scheduler *)

Lemma fold_left_Zadd_acc (l : list Z) (a : Z) :
  fold_left Z.add l a = (a + fold_right Z.add 0 l)%Z.
Proof.
  revert a. induction l as [|x l IH]; intros a; simpl; [lia|].
  rewrite IH. lia.
Qed.

Lemma total_adaptations_put (a : Adaptive.t) (name : Adaptive.Name) (v : Z) :
  fold_left Z.add
    (map (Adaptive.put (Adaptive.algorithm_usage a) name v) Adaptive.names) 0%Z
  = (Adaptive.total_adaptations a - Adaptive.algorithm_usage a name + v)%Z.
Proof.
  unfold Adaptive.total_adaptations, Adaptive.names, Adaptive.put.
  destruct name; cbn; lia.
Qed.

Lemma put_same {V : Type} (d : Adaptive.Name -> V) (k : Adaptive.Name) (v : V) :
  Adaptive.put d k v k = v.
Proof. unfold Adaptive.put. destruct k; reflexivity. Qed.

Lemma put_cases {V : Type} (d : Adaptive.Name -> V) (k k' : Adaptive.Name)
    (v : V) :
  Adaptive.put d k v k' = v \/ Adaptive.put d k v k' = d k'.
Proof. unfold Adaptive.put. destruct (Adaptive.Name_eqb k' k); auto. Qed.

Lemma adapt_scheduler_consistent (a : Adaptive.t) (h : Heap)
    (ready_queue : list ref) (current_time : Q) (a' : Adaptive.t) :
  adaptive_consistent a ->
  Adaptive._adapt_scheduler a h ready_queue current_time = Ok a' ->
  adaptive_consistent a' /\
  length (Adaptive.system_state_history a')
  = S (length (Adaptive.system_state_history a)).
Proof.
  intros (Hlen & Hnn & Htot). unfold Adaptive._adapt_scheduler. intros H.
  apply bind_Ok in H as (st & _ & H). cbv zeta in H.
  set (name := if negb _ then _ else _) in H. clearbody name.
  injection H as <-. unfold adaptive_consistent.
  cbn [Adaptive.system_state_history Adaptive.workload_history
       Adaptive.algorithm_usage].
  rewrite !length_app. simpl length. split; [|lia]. split; [lia|]. split.
  - intros n. destruct (put_cases (Adaptive.algorithm_usage a) name n
                          (Adaptive.algorithm_usage a name + 1)%Z) as [->| ->];
      [specialize (Hnn name); lia | apply Hnn].
  - unfold Adaptive.total_adaptations at 1.
    cbn [Adaptive.algorithm_usage]. rewrite total_adaptations_put. lia.
Qed.

Lemma consistent_fields (a a' : Adaptive.t) :
  Adaptive.system_state_history a' = Adaptive.system_state_history a ->
  Adaptive.workload_history a' = Adaptive.workload_history a ->
  Adaptive.algorithm_usage a' = Adaptive.algorithm_usage a ->
  adaptive_consistent a -> adaptive_consistent a'.
Proof.
  unfold adaptive_consistent, Adaptive.total_adaptations.
  intros -> -> ->. auto.
Qed.

(** X20. The bookkeeping of the Adaptive scheduler stays consistent.
    Starting from a consistent state (as [__init__] and [reset] give),
    each method the engine calls keeps the two histories equally long and
    the usage counts non-negative with their sum equal to the number of
    history entries; a successful [select_process] adds exactly one entry
    when the adaptation interval has elapsed and none otherwise, and
    [get_adaptation_history] loses no entry. *)
Theorem adaptive_bookkeeping_consistent (a : Adaptive.t) (h : Heap)
    (core : CPU.CPUCore) (ready_queue : list ref) (process : ref)
    (current_time : Q) :
  adaptive_consistent a ->
  (forall a' q sel,
     Adaptive.select_process a h core ready_queue current_time
     = Ok (a', q, sel) ->
     adaptive_consistent a' /\
     length (Adaptive.system_state_history a')
     = (length (Adaptive.system_state_history a)
        + if Qle_bool (Adaptive.adaptation_interval a)
                      (current_time - Adaptive.last_adaptation_time a)
          then 1 else 0)%nat) /\
  adaptive_consistent
    (Adaptive.on_process_arrival a h process current_time) /\
  adaptive_consistent
    (Adaptive.on_process_completion a h process current_time) /\
  adaptive_consistent
    (fst (Adaptive.should_preempt a h process ready_queue current_time)) /\
  adaptive_consistent (Adaptive.reset a) /\
  Z.of_nat (length (Adaptive.get_adaptation_history a))
  = Adaptive.total_adaptations a /\
  map fst (Adaptive.get_adaptation_history a)
  = Adaptive.system_state_history a /\
  map snd (Adaptive.get_adaptation_history a) = Adaptive.workload_history a.
Proof.
  intros Hc. split; [|split; [|split; [|split; [|split]]]].
  - intros a' q sel. unfold Adaptive.select_process. intros H.
    apply bind_Ok in H as (a1 & Ha1 & H).
    apply bind_Ok in H as ([[p q'] sel'] & _ & H). injection H as <- _ _.
    assert (H1 : adaptive_consistent a1 /\
                 length (Adaptive.system_state_history a1)
                 = (length (Adaptive.system_state_history a)
                    + if Qle_bool (Adaptive.adaptation_interval a)
                           (current_time - Adaptive.last_adaptation_time a)
                      then 1 else 0)%nat).
    { destruct (Qle_bool _ _).
      - apply bind_Ok in Ha1 as (a2 & Ha2 & Ha1). injection Ha1 as <-.
        destruct (adapt_scheduler_consistent _ _ _ _ _ Hc Ha2) as [H1 H2].
        split; [|unfold Adaptive.set_last_adaptation_time;
                 cbn [Adaptive.system_state_history]; rewrite H2; lia].
        exact (consistent_fields a2 _ eq_refl eq_refl eq_refl H1).
      - injection Ha1 as <-. split; [exact Hc | lia]. }
    destruct H1 as [H1 H2]. split; [|exact H2].
    exact (consistent_fields a1 _ eq_refl eq_refl eq_refl H1).
  - exact (consistent_fields a _ eq_refl eq_refl eq_refl Hc).
  - unfold Adaptive.on_process_completion.
    destruct (Nat.ltb 20 _);
      exact (consistent_fields a _ eq_refl eq_refl eq_refl Hc).
  - unfold Adaptive.should_preempt.
    destruct (Policy.should_preempt _ _ _ _ _) as [p b].
    exact (consistent_fields a _ eq_refl eq_refl eq_refl Hc).
  - unfold adaptive_consistent, Adaptive.total_adaptations. simpl.
    split; [reflexivity|]. split; [intros _; lia | reflexivity].
  - destruct Hc as (Hlen & _ & Htot). unfold Adaptive.get_adaptation_history.
    split; [|split].
    + rewrite length_combine, <- Hlen, Nat.min_id. symmetry. exact Htot.
    + clear Htot. revert Hlen. generalize (Adaptive.workload_history a).
      induction (Adaptive.system_state_history a) as [|x l IH];
        intros [|y l'] Hl; simpl in *; try discriminate; [reflexivity|].
      f_equal. apply IH. lia.
    + clear Htot. revert Hlen. generalize (Adaptive.workload_history a).
      induction (Adaptive.system_state_history a) as [|x l IH];
        intros [|y l'] Hl; simpl in *; try discriminate; [reflexivity|].
      f_equal. apply IH. lia.
Qed.

Lemma adaptive_init_consistent (n : Z) (i : Q) (g : RNG) :
  adaptive_consistent (Adaptive.init n i g).
Proof.
  unfold adaptive_consistent, Adaptive.total_adaptations. simpl.
  split; [reflexivity|]. split; [intros _; lia | reflexivity].
Qed.

Lemma adaptive_bookkeeping_consistent_witness :
  let a := Adaptive.init 2 50 Examples.no_draws in
  let h := Examples.two_jobs 3 5 in
  let core := CPU.new_core 0 in
  adaptive_consistent a /\
  (forall a' q sel,
     Adaptive.select_process a h core [0%nat; 1%nat] 60 = Ok (a', q, sel) ->
     adaptive_consistent a' /\
     length (Adaptive.system_state_history a')
     = (length (Adaptive.system_state_history a)
        + if Qle_bool (Adaptive.adaptation_interval a)
                      (60 - Adaptive.last_adaptation_time a)
          then 1 else 0)%nat) /\
  adaptive_consistent (Adaptive.on_process_arrival a h 0%nat 60) /\
  adaptive_consistent (Adaptive.on_process_completion a h 0%nat 60) /\
  adaptive_consistent
    (fst (Adaptive.should_preempt a h 0%nat [0%nat; 1%nat] 60)) /\
  adaptive_consistent (Adaptive.reset a) /\
  Z.of_nat (length (Adaptive.get_adaptation_history a))
  = Adaptive.total_adaptations a /\
  map fst (Adaptive.get_adaptation_history a)
  = Adaptive.system_state_history a /\
  map snd (Adaptive.get_adaptation_history a) = Adaptive.workload_history a.
Proof.
  intros a h core.
  pose proof (adaptive_init_consistent 2 50 Examples.no_draws) as H.
  split; [exact H|].
  exact (adaptive_bookkeeping_consistent a h core [0%nat; 1%nat] 0%nat 60 H).
Defined.

Lemma usage_le_total (c : Adaptive.Name -> Z) (l : list Adaptive.Name)
    (n : Adaptive.Name) :
  (forall n, 0 <= c n)%Z -> In n l ->
  (c n <= fold_right Z.add 0 (map c l))%Z /\
  (0 <= fold_right Z.add 0 (map c l))%Z.
Proof.
  intros Hnn. induction l as [|x l IH]; simpl; [intros []|].
  assert (H0 : (0 <= fold_right Z.add 0 (map c l))%Z).
  { clear IH. induction l as [|y l IH]; simpl; [lia|].
    specialize (Hnn y). lia. }
  intros [->|Hin].
  - specialize (Hnn n). lia.
  - destruct (IH Hin) as [H1 _]. specialize (Hnn x). lia.
Qed.

(** X21. [get_algorithm_usage_stats] on a consistent Adaptive scheduler:
    before the first adaptation it reports 0.0 for each of the six
    algorithms; afterwards it lists exactly the algorithms that were
    chosen at least once, each with [count / total * 100], a percentage
    greater than 0 and at most 100, which is 100 for an algorithm that was
    chosen at every adaptation. *)
Theorem usage_stats_percentages (a : Adaptive.t) :
  adaptive_consistent a ->
  let stats := Adaptive.get_algorithm_usage_stats a in
  (Adaptive.system_state_history a = [] ->
   stats = map (fun name => (name, 0%Q)) Adaptive.names) /\
  (Adaptive.system_state_history a <> [] ->
   (forall name, In name (map fst stats)
                 <-> (0 < Adaptive.algorithm_usage a name)%Z) /\
   forall name v, In (name, v) stats ->
     v = (inject_Z (Adaptive.algorithm_usage a name)
          / inject_Z (Adaptive.total_adaptations a) * 100)%Q /\
     (0 < v <= 100)%Q /\
     (Adaptive.algorithm_usage a name = Adaptive.total_adaptations a ->
      (v == 100)%Q)).
Proof.
  intros (Hlen & Hnn & Htot) stats. subst stats.
  unfold Adaptive.get_algorithm_usage_stats. split.
  - intros E. rewrite Htot, E. reflexivity.
  - intros Hne.
    assert (Hpos : (0 < Adaptive.total_adaptations a)%Z).
    { rewrite Htot. destruct (Adaptive.system_state_history a);
        [contradiction | simpl; lia]. }
    destruct (Z.eqb (Adaptive.total_adaptations a) 0) eqn:E0;
      [apply Z.eqb_eq in E0; lia|].
    assert (HT : (0 < inject_Z (Adaptive.total_adaptations a))%Q).
    { rewrite <- (Zlt_Qlt 0). exact Hpos. }
    assert (Hsum : Adaptive.total_adaptations a
                   = fold_right Z.add 0%Z
                       (map (Adaptive.algorithm_usage a) Adaptive.names)).
    { unfold Adaptive.total_adaptations. rewrite fold_left_Zadd_acc. lia. }
    split.
    + intros name. rewrite map_map. cbn [fst]. rewrite map_id, filter_In.
      rewrite Z.ltb_lt. split; [intros [_ H]; exact H|].
      intros H. split; [destruct name; simpl; tauto | exact H].
    + intros name v Hin. apply in_map_iff in Hin as (n & [= <- <-] & Hin).
      apply filter_In in Hin as [Hin Hn]. apply Z.ltb_lt in Hn.
      destruct (usage_le_total (Adaptive.algorithm_usage a) Adaptive.names n
                  Hnn Hin) as [Hle _].
      rewrite <- Hsum in Hle.
      assert (Hn' : (0 < inject_Z (Adaptive.algorithm_usage a n))%Q)
        by (rewrite <- (Zlt_Qlt 0); exact Hn).
      assert (Hle' : (inject_Z (Adaptive.algorithm_usage a n)
                      <= inject_Z (Adaptive.total_adaptations a))%Q)
        by (rewrite <- Zle_Qle; exact Hle).
      split; [reflexivity|]. split.
      * set (c := inject_Z (Adaptive.algorithm_usage a n)) in *.
        set (T := inject_Z (Adaptive.total_adaptations a)) in *.
        split.
        -- apply Qmult_lt_0_compat; [|lra].
           apply Qlt_shift_div_l; [exact HT | lra].
        -- assert (c / T <= 1)%Q by (apply Qle_shift_div_r; [exact HT | lra]).
           lra.
      * intros ->. field. lra.
Qed.

Lemma usage_stats_percentages_witness :
  exists a,
    Adaptive._adapt_scheduler (Adaptive.init 2 50 Examples.no_draws)
      (Examples.two_jobs 3 5) [0%nat; 1%nat] 60 = Ok a /\
    adaptive_consistent a /\
    Adaptive.system_state_history a <> [] /\
    let stats := Adaptive.get_algorithm_usage_stats a in
    (Adaptive.system_state_history a = [] ->
     stats = map (fun name => (name, 0%Q)) Adaptive.names) /\
    (Adaptive.system_state_history a <> [] ->
     (forall name, In name (map fst stats)
                   <-> (0 < Adaptive.algorithm_usage a name)%Z) /\
     forall name v, In (name, v) stats ->
       v = (inject_Z (Adaptive.algorithm_usage a name)
            / inject_Z (Adaptive.total_adaptations a) * 100)%Q /\
       (0 < v <= 100)%Q /\
       (Adaptive.algorithm_usage a name = Adaptive.total_adaptations a ->
        (v == 100)%Q)).
Proof.
  destruct (Adaptive._adapt_scheduler (Adaptive.init 2 50 Examples.no_draws)
              (Examples.two_jobs 3 5) [0%nat; 1%nat] 60) as [a|e] eqn:E;
    [|vm_compute in E; discriminate].
  exists a. split; [reflexivity|].
  destruct (adapt_scheduler_consistent _ _ _ _ _
              (adaptive_init_consistent 2 50 Examples.no_draws) E)
    as [Hc Hlen].
  split; [exact Hc|]. split.
  { intros H0. rewrite H0 in Hlen. discriminate Hlen. }
  exact (usage_stats_percentages a Hc).
Defined.

(** X22. The Adaptive scheduler keeps a window of the last 20 completed
    processes: [on_process_completion] appends the process and its
    turnaround time, drops the oldest entry of both lists once there are
    more than 20, and so keeps both lists equally long and at most 20
    long, the newest entry last. *)
Theorem adaptive_recent_window (a : Adaptive.t) (h : Heap) (process : ref)
    (current_time : Q) :
  recent_window_ok a ->
  let a' := Adaptive.on_process_completion a h process current_time in
  recent_window_ok a' /\
  (exists front, Adaptive.recent_processes a' = front ++ [process]) /\
  (exists front,
     Adaptive.recent_turnaround_times a'
     = front ++ [turnaround_time (h process)]) /\
  ((length (Adaptive.recent_processes a) < 20)%nat ->
   Adaptive.recent_processes a' = Adaptive.recent_processes a ++ [process]) /\
  ((length (Adaptive.recent_processes a) = 20)%nat ->
   Adaptive.recent_processes a'
   = tail (Adaptive.recent_processes a) ++ [process]).
Proof.
  intros [Hlen Hle] a'. subst a'. unfold Adaptive.on_process_completion.
  unfold recent_window_ok. rewrite !length_app. simpl length.
  destruct (Nat.ltb 20 _) eqn:E;
    cbn [Adaptive.recent_processes Adaptive.recent_turnaround_times
         Adaptive.set_current_scheduler].
  - apply Nat.ltb_lt in E.
    destruct (Adaptive.recent_processes a) as [|x l] eqn:Er;
      [simpl in E; lia|].
    destruct (Adaptive.recent_turnaround_times a) as [|y l'] eqn:Et;
      [simpl in Hlen; lia|].
    simpl in *. rewrite !length_app. simpl length.
    split; [split; lia|]. split; [eauto|]. split; [eauto|].
    split; [lia | reflexivity].
  - apply Nat.ltb_ge in E. rewrite !length_app. simpl length.
    split; [split; lia|]. split; [eauto|]. split; [eauto|].
    split; [reflexivity | lia].
Qed.

Lemma adaptive_recent_window_witness :
  let a := Adaptive.init 2 50 Examples.no_draws in
  let h := Examples.two_jobs 3 5 in
  let a' := Adaptive.on_process_completion a h 0%nat 3 in
  recent_window_ok a /\
  recent_window_ok a' /\
  (exists front, Adaptive.recent_processes a' = front ++ [0%nat]) /\
  (exists front,
     Adaptive.recent_turnaround_times a'
     = front ++ [turnaround_time (h 0%nat)]) /\
  ((length (Adaptive.recent_processes a) < 20)%nat ->
   Adaptive.recent_processes a' = Adaptive.recent_processes a ++ [0%nat]) /\
  ((length (Adaptive.recent_processes a) = 20)%nat ->
   Adaptive.recent_processes a' = tail (Adaptive.recent_processes a) ++ [0%nat]).
Proof.
  intros a h a'.
  assert (H : recent_window_ok a) by (split; simpl; lia).
  split; [exact H|]. exact (adaptive_recent_window a h 0%nat 3 H).
Defined.

(** ** The simulator *)

Lemma reset_processes_In (l : list ref) (h : Heap) (r : ref) :
  In r l -> Sim.reset_processes h l r = Sim.reset_process (h r).
Proof.
  unfold Sim.reset_processes. revert h.
  induction l as [|x l IH]; intros h; simpl; [intros []|].
  intros Hin.
  destruct (in_dec Nat.eq_dec r l) as [Hl|Hl].
  - rewrite (IH _ Hl).
    destruct (upd_cases h x r (Sim.reset_process (h x))) as [[-> ->]|[_ ->]];
      reflexivity.
  - destruct Hin as [->|Hin]; [|contradiction].
    fold (Sim.reset_processes (upd h r (Sim.reset_process (h r))) l).
    rewrite (reset_processes_other l _ r Hl). apply upd_same.
Qed.

(** X23. [_reset_simulation] puts the clock, the queues and the switch
    counter back to their initial values, resets every core, and restores
    every submitted process object (also one submitted twice) to state
    NEW with its full burst time and cleared timing results.  It keeps
    the identity fields of the process, and it does not clear
    [context_switches], [executed_on_core], [time_quantum_used] or
    [last_executed_time].  Process objects that were not submitted are
    left alone. *)
Theorem reset_simulation_restores (sim : Sim.Simulator) :
  let sim' := Sim._reset_simulation sim in
  Sim.current_time sim' = 0%Q /\
  Sim.ready_queue sim' = [] /\
  Sim.completed_processes sim' = [] /\
  Sim.total_context_switches sim' = 0%Z /\
  Sim.all_processes sim' = Sim.all_processes sim /\
  map CPU.core_id (Sim.cores sim') = map CPU.core_id (Sim.cores sim) /\
  (forall c, In c (Sim.cores sim') ->
     CPU.is_idle c = true /\ CPU.get_current_process c = None /\
     CPU.total_busy_time c = 0%Q /\ CPU.total_idle_time c = 0%Q /\
     CPU.processes_executed c = 0%Z /\ CPU.load_history c = []) /\
  (forall r, In r (Sim.all_processes sim) ->
     let p := Sim.heap sim r in
     let p' := Sim.heap sim' r in
     state p' = NEW /\ remaining_time p' = burst_time p /\
     start_time p' = None /\ completion_time p' = None /\
     waiting_time p' = 0%Q /\ turnaround_time p' = 0%Q /\
     response_time p' = 0%Q /\
     pid p' = pid p /\ arrival_time p' = arrival_time p /\
     burst_time p' = burst_time p /\ priority p' = priority p /\
     process_type p' = process_type p /\
     context_switches p' = context_switches p /\
     executed_on_core p' = executed_on_core p /\
     time_quantum_used p' = time_quantum_used p /\
     last_executed_time p' = last_executed_time p) /\
  (forall r, ~ In r (Sim.all_processes sim) ->
     Sim.heap sim' r = Sim.heap sim r).
Proof.
  cbv zeta. unfold Sim._reset_simulation.
  cbn [Sim.current_time Sim.ready_queue Sim.completed_processes
       Sim.total_context_switches Sim.all_processes Sim.cores Sim.heap].
  repeat (split; [reflexivity|]).
  split; [rewrite map_map; reflexivity|]. split.
  - intros c Hc. apply in_map_iff in Hc as (c0 & <- & _).
    repeat split; reflexivity.
  - split.
    + intros r Hr. rewrite (reset_processes_In _ _ _ Hr).
      repeat split; reflexivity.
    + intros r Hr. apply reset_processes_other, Hr.
Qed.

Lemma add_arrivals_prefix (pending : list ref) :
  forall (sim : Sim.Simulator) (n : nat) (sim' : Sim.Simulator) (n' : nat),
  Sim.add_arrivals sim n pending = Ok (sim', n') ->
  exists k,
    n' = (n + k)%nat /\
    Sim.ready_queue sim' = Sim.ready_queue sim ++ take k pending /\
    Sim.current_time sim' = Sim.current_time sim /\
    Sim.all_processes sim' = Sim.all_processes sim /\
    Sim.completed_processes sim' = Sim.completed_processes sim /\
    Sim.cores sim' = Sim.cores sim /\
    (forall r, arrival_time (Sim.heap sim' r) = arrival_time (Sim.heap sim r)) /\
    (forall r, In r (take k pending) ->
       (arrival_time (Sim.heap sim r) <= Sim.current_time sim)%Q /\
       state (Sim.heap sim' r) = READY) /\
    (forall r, ~ In r (take k pending) -> Sim.heap sim' r = Sim.heap sim r) /\
    (forall next, pending !! k = Some next ->
       (Sim.current_time sim < arrival_time (Sim.heap sim next))%Q).
Proof.
  induction pending as [|p rest IH]; intros sim n sim' n'; simpl.
  { intros [= <- <-]. exists 0%nat. rewrite Nat.add_0_r, app_nil_r.
    repeat split; try reflexivity; try (simpl in *; contradiction);
      try (simpl in *; congruence). }
  destruct (Qle_bool _ _) eqn:Earr.
  2:{ intros [= <- <-]. exists 0%nat. rewrite Nat.add_0_r, app_nil_r.
      split; [reflexivity|]. split; [reflexivity|]. split; [reflexivity|].
      split; [reflexivity|]. split; [reflexivity|]. split; [reflexivity|].
      split; [reflexivity|]. split; [intros ? []|].
      split; [reflexivity|].
      intros next [= <-]. apply Qnot_le_lt. intros Hle.
      apply Qle_bool_iff in Hle. congruence. }
  apply Qle_bool_iff in Earr.
  intros H. apply bind_Ok in H as (s & Hs & H).
  apply IH in H as (k & -> & Hrq & Ht & Hall & Hcomp & Hcores & Harr & Hin
                    & Hout & Hnext).
  cbn [Sim.ready_queue Sim.current_time Sim.all_processes Sim.heap
       Sim.completed_processes Sim.cores
       Sim.with_scheduler Sim.with_ready_queue Sim.with_heap] in *.
  assert (Hupd : forall r,
             arrival_time (upd (Sim.heap sim) p
                             (set_state READY (Sim.heap sim p)) r)
             = arrival_time (Sim.heap sim r)).
  { intros r. destruct (upd_cases (Sim.heap sim) p r
                          (set_state READY (Sim.heap sim p)))
      as [[-> ->]|[_ ->]]; reflexivity. }
  exists (S k). split; [lia|]. split.
  { rewrite Hrq, <- app_assoc. reflexivity. }
  split; [exact Ht|]. split; [exact Hall|]. split; [exact Hcomp|].
  split; [exact Hcores|]. split.
  { intros r. rewrite Harr. apply Hupd. }
  split; [|split].
  - intros r Hr. simpl in Hr.
    destruct (in_dec Nat.eq_dec r (take k rest)) as [Hk|Hk].
    + destruct (Hin r Hk) as [H1 H2]. rewrite Hupd in H1. split; assumption.
    + destruct Hr as [<-|Hr]; [|contradiction].
      split; [exact Earr|]. rewrite (Hout p Hk). rewrite upd_same.
      reflexivity.
  - intros r Hr. simpl in Hr.
    rewrite Hout by (intros H; apply Hr; right; exact H).
    destruct (upd_cases (Sim.heap sim) p r (set_state READY (Sim.heap sim p)))
      as [[-> _]|[_ ->]]; [|reflexivity].
    exfalso. apply Hr. left; reflexivity.
  - intros next Hn. simpl in Hn. specialize (Hnext next Hn).
    rewrite Hupd in Hnext. exact Hnext.
Qed.

(** X24. The arrival loop of [run_simulation] moves a prefix of the
    pending processes to the tail of the ready queue, in order: exactly
    those up to the first one whose arrival time is later than the clock.
    Each of them has arrived and is set to READY; the clock, the cores,
    the completed list and every other process object are left alone. *)
Theorem add_arrivals_takes_arrived_prefix (sim : Sim.Simulator)
    (process_index : nat) (pending : list ref) (sim' : Sim.Simulator)
    (process_index' : nat) :
  Sim.add_arrivals sim process_index pending = Ok (sim', process_index') ->
  exists k,
    process_index' = (process_index + k)%nat /\
    Sim.ready_queue sim' = Sim.ready_queue sim ++ take k pending /\
    Sim.current_time sim' = Sim.current_time sim /\
    Sim.all_processes sim' = Sim.all_processes sim /\
    Sim.completed_processes sim' = Sim.completed_processes sim /\
    Sim.cores sim' = Sim.cores sim /\
    (forall r, arrival_time (Sim.heap sim' r) = arrival_time (Sim.heap sim r)) /\
    (forall r, In r (take k pending) ->
       (arrival_time (Sim.heap sim r) <= Sim.current_time sim)%Q /\
       state (Sim.heap sim' r) = READY) /\
    (forall r, ~ In r (take k pending) -> Sim.heap sim' r = Sim.heap sim r) /\
    (forall next, pending !! k = Some next ->
       (Sim.current_time sim < arrival_time (Sim.heap sim next))%Q).
Proof. apply add_arrivals_prefix. Qed.

Lemma add_arrivals_takes_arrived_prefix_witness :
  let sim := Examples.simulator 1 (Examples.two_jobs 3 5)
               (Basic FCFSScheduler) [0%nat; 1%nat] in
  exists sim' n',
    Sim.add_arrivals sim 0 [0%nat; 1%nat] = Ok (sim', n') /\
    exists k,
      n' = (0 + k)%nat /\
      Sim.ready_queue sim' = Sim.ready_queue sim ++ take k [0%nat; 1%nat] /\
      Sim.current_time sim' = Sim.current_time sim /\
      Sim.all_processes sim' = Sim.all_processes sim /\
      Sim.completed_processes sim' = Sim.completed_processes sim /\
      Sim.cores sim' = Sim.cores sim /\
      (forall r, arrival_time (Sim.heap sim' r)
                 = arrival_time (Sim.heap sim r)) /\
      (forall r, In r (take k [0%nat; 1%nat]) ->
         (arrival_time (Sim.heap sim r) <= Sim.current_time sim)%Q /\
         state (Sim.heap sim' r) = READY) /\
      (forall r, ~ In r (take k [0%nat; 1%nat]) ->
         Sim.heap sim' r = Sim.heap sim r) /\
      (forall next, [0%nat; 1%nat] !! k = Some next ->
         (Sim.current_time sim < arrival_time (Sim.heap sim next))%Q).
Proof.
  intros sim.
  destruct (Sim.add_arrivals sim 0 [0%nat; 1%nat]) as [[sim' n']|e] eqn:E;
    [|vm_compute in E; discriminate].
  exists sim', n'. split; [reflexivity|].
  exact (add_arrivals_takes_arrived_prefix sim 0 [0%nat; 1%nat] sim' n' E).
Defined.

Section Clock.
Variable procs : list ref.

Lemma iteration_clock (sim : Sim.Simulator) (n : nat) (max_time : option Q)
    (sim' : Sim.Simulator) (next : option nat) :
  engine_ok procs n sim -> cores_ok procs n (Sim.cores sim) ->
  Sim.iteration sim n max_time = Ok (sim', next) ->
  (Sim.current_time sim <= Sim.current_time sim')%Q /\
  Sim.all_processes sim' = Sim.all_processes sim /\
  (forall r, arrival_time (Sim.heap sim' r) = arrival_time (Sim.heap sim r)).
Proof.
  intros Hok Hc. unfold Sim.iteration.
  destruct (match max_time with Some m => _ | None => false end).
  { intros [= <- <-]. split; [lra|]. split; reflexivity. }
  destruct (Nat.leb _ _).
  { intros [= <- <-]. split; [lra|]. split; reflexivity. }
  intros H. apply bind_Ok in H as ([sim1 n1] & E1 & H).
  cbv beta iota zeta in H.
  pose proof E1 as E1'.
  apply add_arrivals_prefix in E1'
    as (k & _ & _ & _ & Hall1 & _ & _ & Harr1 & _ & _ & _).
  rewrite (ok_all _ _ _ Hok) in E1.
  apply (add_arrivals_ok procs) with (n := n) in E1
    as (Hok1 & Hle & Hcs1 & Ht1 & Hnext); [|reflexivity | exact Hok].
  assert (Hc1 : cores_ok procs n1 (Sim.cores sim1)).
  { rewrite Hcs1. eapply cores_ok_mono; eassumption. }
  apply bind_Ok in H as (sim2 & E2 & H).
  apply (assign_processes_ok procs) with (n := n1) in E2
    as (Hok2 & Hc2 & Hf2); [|exact Hok1 | exact Hc1].
  apply bind_Ok in H as ([sim3 slice] & E3 & H). cbv beta iota zeta in H.
  apply (execute_all_cores_ok procs) with (n := n1) in E3
    as (Hok3 & Hc3 & Hf3); [|exact Hok2 | exact Hc2].
  pose proof (same_frame_trans _ _ _ Hf2 Hf3) as (F1 & F2 & F3).
  assert (Harr : forall r, arrival_time (Sim.heap sim3 r)
                           = arrival_time (Sim.heap sim r)).
  { intros r. rewrite F3. apply Harr1. }
  assert (Hall : Sim.all_processes sim3 = Sim.all_processes sim)
    by congruence.
  destruct (Qltb 0 slice) eqn:Eslice.
  - injection H as <- <-. cbn [Sim.current_time Sim.with_current_time
                               Sim.all_processes Sim.heap].
    apply Qltb_lt in Eslice. rewrite F2, Ht1. split; [lra|].
    split; assumption.
  - destruct (Sim.all_processes sim3 !! n1) as [nxt|] eqn:En.
    + injection H as <- <-. cbn [Sim.current_time Sim.with_current_time
                                 Sim.all_processes Sim.heap].
      rewrite (ok_all _ _ _ Hok3) in En.
      specialize (Hnext nxt En). rewrite F3, <- Ht1. split; [lra|].
      split; assumption.
    + injection H as <- <-. rewrite F2, Ht1. split; [lra|].
      split; assumption.
Qed.

Lemma main_loop_clock (fuel : nat) :
  forall (sim : Sim.Simulator) (n : nat) (max_time : option Q)
         (final : Sim.Simulator),
  engine_ok procs n sim -> cores_ok procs n (Sim.cores sim) ->
  Sim.main_loop fuel sim n max_time = Sim.Finished final ->
  (Sim.current_time sim <= Sim.current_time final)%Q /\
  Sim.all_processes final = Sim.all_processes sim /\
  (forall r, arrival_time (Sim.heap final r) = arrival_time (Sim.heap sim r)).
Proof.
  induction fuel as [|fuel IH]; intros sim n max_time final Hok Hc; simpl;
    [discriminate|].
  destruct (Sim.iteration sim n max_time) as [[sim1 next]|e] eqn:E;
    [|discriminate].
  destruct (iteration_clock _ _ _ _ _ Hok Hc E) as (Ht & Hall & Harr).
  destruct (iteration_ok procs _ _ _ _ _ Hok Hc E) as (n' & Hn' & Hok' & Hc').
  destruct next as [k|].
  - rewrite (Hn' k eq_refl). intros H.
    destruct (IH _ _ _ _ Hok' Hc' H) as (Ht2 & Hall2 & Harr2).
    split; [lra|]. split; [congruence|].
    intros r. rewrite Harr2. apply Harr.
  - intros [= <-]. split; [exact Ht|]. split; assumption.
Qed.
End Clock.

Lemma StronglySorted_weaken {A : Type} (R R' : A -> A -> Prop) (l : list A) :
  (forall x y, R x y -> R' x y) -> StronglySorted R l -> StronglySorted R' l.
Proof.
  intros HR. induction 1 as [|x l Hl IH Hx]; constructor; [exact IH|].
  rewrite List.Forall_forall in Hx |- *. intros y Hy. apply HR, Hx, Hy.
Qed.

Lemma reset_processes_arrival (l : list ref) (h : Heap) (r : ref) :
  arrival_time (Sim.reset_processes h l r) = arrival_time (h r).
Proof.
  destruct (in_dec Nat.eq_dec r l) as [Hin|Hin].
  - rewrite (reset_processes_In _ _ _ Hin). reflexivity.
  - rewrite (reset_processes_other _ _ _ Hin). reflexivity.
Qed.

(** X25. When [run_simulation] returns, the clock has not gone back: the
    final time is non-negative and is the [total_simulation_time] of the
    metrics.  The simulator's process list is the submitted list sorted
    by arrival time (a permutation of it, in non-decreasing arrival
    order), no arrival time has been changed, and the metrics count every
    submitted process. *)
Theorem run_simulation_clock_and_order (fuel : nat) (sim : Sim.Simulator)
    (max_time : option Q) (sim' : Sim.Simulator)
    (m : Metrics.PerformanceMetrics) :
  Sim.run_simulation fuel sim max_time = Sim.Returns sim' m ->
  (0 <= Sim.current_time sim')%Q /\
  Metrics.total_simulation_time m = Sim.current_time sim' /\
  Metrics.num_processes m = length (Sim.all_processes sim) /\
  Permutation (Sim.all_processes sim') (Sim.all_processes sim) /\
  StronglySorted
    (fun a b => (arrival_time (Sim.heap sim' a)
                 <= arrival_time (Sim.heap sim' b))%Q)
    (Sim.all_processes sim') /\
  (forall r, arrival_time (Sim.heap sim' r) = arrival_time (Sim.heap sim r)).
Proof.
  intros H.
  assert (Hs : exists s0, Sim.scheduler sim = Some s0).
  { unfold Sim.run_simulation in H.
    destruct (Sim.scheduler sim); [eauto | discriminate]. }
  destruct Hs as [s0 Hs0].
  apply run_simulation_Returns_inv in H as (final & Hloop & -> & ->).
  set (start := Sim.sort_by_arrival (Sim._reset_simulation sim)) in *.
  destruct (engine_ok_initial sim s0 Hs0) as [Hok Hc]. fold start in Hok, Hc.
  destruct (main_loop_clock _ _ _ _ _ _ Hok Hc Hloop) as (Ht & Hall & Harr).
  assert (Harr0 : forall r, arrival_time (Sim.heap start r)
                            = arrival_time (Sim.heap sim r)).
  { intros r. unfold start, Sim.sort_by_arrival, Sim._reset_simulation.
    cbn [Sim.heap Sim.with_all_processes]. apply reset_processes_arrival. }
  assert (Harr' : forall r, arrival_time (Sim.heap final r)
                            = arrival_time (Sim.heap sim r)).
  { intros r. rewrite Harr. apply Harr0. }
  cbn [Sim.final_metrics Sim.with_metrics Sim.current_time Sim.all_processes
       Sim.heap].
  split; [exact Ht|]. split.
  { unfold Metrics.calculate_metrics. destruct (List.filter _ _); reflexivity. }
  assert (Hstart : Sim.all_processes start
                   = sort_by le_Q
                       (fun r => arrival_time
                                   (Sim.heap (Sim._reset_simulation sim) r))
                       (Sim.all_processes sim)) by reflexivity.
  assert (HP : Permutation (Sim.all_processes final) (Sim.all_processes sim)).
  { rewrite Hall, Hstart. apply sort_by_Permutation. }
  split.
  { unfold Metrics.calculate_metrics.
    destruct (List.filter _ _); cbn [Metrics.num_processes];
      apply Permutation_length, HP. }
  split; [exact HP|]. split; [|exact Harr'].
  rewrite Hall, Hstart.
  eapply StronglySorted_weaken;
    [|apply (sort_by_sorted le_Q _ le_Q_total le_Q_trans)].
  intros x y Hxy. apply le_Q_spec in Hxy. cbv beta in Hxy.
  rewrite !Harr'.
  unfold Sim._reset_simulation in Hxy. cbn [Sim.heap] in Hxy.
  rewrite !reset_processes_arrival in Hxy. exact Hxy.
Qed.

Lemma run_simulation_clock_and_order_witness :
  let sim := Examples.simulator 1 (Examples.two_jobs 3 5)
               (Basic FCFSScheduler) [0%nat; 1%nat] in
  exists sim' m,
    Sim.run_simulation 5 sim None = Sim.Returns sim' m /\
    (0 <= Sim.current_time sim')%Q /\
    Metrics.total_simulation_time m = Sim.current_time sim' /\
    Metrics.num_processes m = length (Sim.all_processes sim) /\
    Permutation (Sim.all_processes sim') (Sim.all_processes sim) /\
    StronglySorted
      (fun a b => (arrival_time (Sim.heap sim' a)
                   <= arrival_time (Sim.heap sim' b))%Q)
      (Sim.all_processes sim') /\
    (forall r, arrival_time (Sim.heap sim' r) = arrival_time (Sim.heap sim r)).
Proof.
  intros sim.
  destruct (Sim.run_simulation 5 sim None) as [sim' m| | |] eqn:E;
    [|vm_compute in E; discriminate..].
  exists sim', m. split; [reflexivity|].
  exact (run_simulation_clock_and_order 5 sim None sim' m E).
Defined.

(** ** Metrics *)

Lemma metrics_sum_Q_fold_right (l : list Q) :
  (Metrics.sum_Q l == fold_right Qplus 0 l)%Q.
Proof. unfold Metrics.sum_Q. rewrite fold_left_Qplus_acc. lra. Qed.

Lemma sum_Q_map_Qeq {A : Type} (f g : A -> Q) (l : list A) :
  (forall x, In x l -> (f x == g x)%Q) ->
  (Metrics.sum_Q (map f l) == Metrics.sum_Q (map g l))%Q.
Proof.
  intros H. rewrite !metrics_sum_Q_fold_right.
  induction l as [|x l IH]; simpl; [reflexivity|].
  rewrite IH by (intros y Hy; apply H; right; exact Hy).
  rewrite (H x) by (left; reflexivity). reflexivity.
Qed.

Lemma sum_Q_map_nonneg {A : Type} (f : A -> Q) (l : list A) :
  (forall x, In x l -> (0 <= f x)%Q) -> (0 <= Metrics.sum_Q (map f l))%Q.
Proof.
  intros H. rewrite metrics_sum_Q_fold_right.
  induction l as [|x l IH]; simpl; [lra|].
  assert (0 <= f x)%Q by (apply H; left; reflexivity).
  assert (0 <= fold_right Qplus 0 (map f l))%Q
    by (apply IH; intros y Hy; apply H; right; exact Hy).
  lra.
Qed.


(** X26. For a run that returns with at least one completed process, the
    reported average waiting time is the sum, over the completed
    processes, of turnaround time - burst time, divided by their number
    (the waiting time [execute] stored for each of them), and the average
    response time is not negative. *)
Theorem run_metrics_averages (fuel : nat) (sim : Sim.Simulator)
    (max_time : option Q) (sim' : Sim.Simulator)
    (m : Metrics.PerformanceMetrics) :
  Sim.run_simulation fuel sim max_time = Sim.Returns sim' m ->
  let completed :=
    List.filter (fun p => is_completed (Sim.heap sim' p))
      (Sim.all_processes sim') in
  completed <> [] ->
  (Metrics.average_waiting_time m
   == Metrics.sum_Q
        (map (fun p => turnaround_time (Sim.heap sim' p)
                       - burst_time (Sim.heap sim' p)) completed)
      / inject_Z (Z.of_nat (length completed)))%Q /\
  (0 <= Metrics.average_response_time m)%Q.
Proof.
  intros H.
  assert (Hs : exists s0, Sim.scheduler sim = Some s0).
  { unfold Sim.run_simulation in H.
    destruct (Sim.scheduler sim); [eauto | discriminate]. }
  destruct Hs as [s0 Hs0].
  apply run_simulation_Returns_inv in H as (final & Hloop & -> & ->).
  destruct (engine_ok_initial sim s0 Hs0) as [Hok Hc].
  destruct (main_loop_ok _ _ _ _ _ _ Hok Hc Hloop) as (n' & Hok').
  cbn [Sim.final_metrics Sim.with_metrics Sim.all_processes Sim.heap].
  set (completed := List.filter (fun p => is_completed (Sim.heap final p))
                      (Sim.all_processes final)).
  intros Hne. unfold Metrics.calculate_metrics. fold completed.
  destruct completed as [|c0 cs] eqn:Ec; [contradiction|].
  rewrite <- Ec in *. clear Hne.
  cbn [Metrics.average_waiting_time Metrics.average_turnaround_time
       Metrics.average_response_time].
  assert (Hn : (0 < inject_Z (Z.of_nat (length completed)))%Q).
  { rewrite Ec. rewrite <- (Zlt_Qlt 0). simpl length. lia. }
  assert (Htim : forall r, In r completed ->
            timing_ok (Sim.heap final r)
            /\ state (Sim.heap final r) = TERMINATED).
  { intros r Hr. unfold completed in Hr. apply filter_In in Hr as [Hin Hcomp].
    rewrite (ok_all _ _ _ Hok') in Hin. split.
    - exact (ok_timing _ _ _ Hok' r Hin).
    - apply is_completed_state, Hcomp. }
  split.
  - rewrite (sum_Q_map_Qeq
               (fun p => waiting_time (Sim.heap final p))
               (fun p => (turnaround_time (Sim.heap final p)
                          - burst_time (Sim.heap final p))%Q)).
    + reflexivity.
    + intros r Hr. destruct (Htim r Hr) as [(_ & _ & Hterm) Hst].
      destruct (Hterm Hst) as (_ & c & _ & _ & Hw). exact Hw.
  - apply Qle_shift_div_l; [exact Hn|]. rewrite Qmult_0_l.
    apply sum_Q_map_nonneg. intros r Hr.
    destruct (Htim r Hr) as [(_ & Hstart & Hterm) Hst].
    destruct (Hterm Hst) as ((s & Hs) & _).
    destruct (Hstart s Hs) as [Hresp Hle]. lra.
Qed.

Lemma run_metrics_averages_witness :
  let sim := Examples.simulator 1 (Examples.two_jobs 3 5)
               (Basic FCFSScheduler) [0%nat; 1%nat] in
  exists sim' m,
    Sim.run_simulation 5 sim None = Sim.Returns sim' m /\
    let completed :=
      List.filter (fun p => is_completed (Sim.heap sim' p))
        (Sim.all_processes sim') in
    completed <> [] /\
    (Metrics.average_waiting_time m
     == Metrics.sum_Q
          (map (fun p => turnaround_time (Sim.heap sim' p)
                         - burst_time (Sim.heap sim' p)) completed)
        / inject_Z (Z.of_nat (length completed)))%Q /\
    (0 <= Metrics.average_response_time m)%Q.
Proof.
  intros sim.
  assert (E : exists s, Sim.main_loop 5
                (Sim.sort_by_arrival (Sim._reset_simulation sim)) 0 None
              = Sim.Finished s /\
              is_completed (Sim.heap s 0%nat) = true /\
              In 0%nat (Sim.all_processes s)).
  { eexists. split; [vm_compute; reflexivity|].
    split; [reflexivity | left; reflexivity]. }
  destruct E as (s & Hloop & Hc & Hin).
  pose proof (run_simulation_returns 5 sim None s) as Hrun.
  specialize (Hrun ltac:(discriminate) ltac:(discriminate) Hloop).
  eexists. eexists. split; [exact Hrun|].
  assert (Hne : List.filter
                  (fun p => is_completed (Sim.heap (Sim.final_metrics s) p))
                  (Sim.all_processes (Sim.final_metrics s)) <> []).
  { apply (completed_filter_nonempty _ _ 0%nat); assumption. }
  split; [exact Hne|].
  exact (run_metrics_averages 5 sim None _ _ Hrun Hne).
Defined.



(** ** Conservation of processes *)

Lemma queue_selecting_select (s : Scheduler) (h : Heap) (core : CPU.CPUCore)
    (rq : list ref) (t : Q) (s' : Scheduler) (q : list ref)
    (sel : option ref) :
  queue_selecting s ->
  Sched.select_process s h core rq t = Ok (s', q, sel) ->
  queue_selecting s' /\ Permutation q rq /\
  forall r, sel = Some r -> In r rq.
Proof.
  destruct s as [[|p|p|p|p|p]|a]; simpl; try contradiction; intros _ H.
  - destruct (FCFS.select_process h core rq t) as [q0 sel0] eqn:E.
    injection H as <- <- <-. split; [exact I|].
    exact (fcfs_select _ _ _ _ _ _ E).
  - destruct (SJF.select_process p h core rq t) as [q0 sel0] eqn:E.
    injection H as <- <- <-. split; [exact I|].
    exact (sjf_select _ _ _ _ _ _ _ E).
  - destruct (Priority.select_process p h core rq t) as [[p0 q0] sel0] eqn:E.
    injection H as <- <- <-. split; [exact I|].
    exact (priority_select _ _ _ _ _ _ _ _ E).
  - apply bind_Ok in H as ([[p1 q1] sel1] & H1 & H).
    apply bind_Ok in H1 as ([[p0 q0] sel0] & E & H1).
    injection H1 as <- <- <-. injection H as <- <- <-. split; [exact I|].
    destruct (load_balancing_select _ _ _ _ _ _ _ _ E) as [-> Hin].
    split; [reflexivity | exact Hin].
Qed.

Lemma queue_selecting_arrival (s : Scheduler) (h : Heap) (r : ref) (t : Q) :
  queue_selecting s -> queue_selecting (Sched.on_process_arrival s h r t).
Proof. destruct s as [[|p|p|p|p|p]|a]; simpl; auto. Qed.

Lemma queue_selecting_completion (s : Scheduler) (h : Heap) (r : ref) (t : Q) :
  queue_selecting s -> queue_selecting (Sched.on_process_completion s h r t).
Proof. destruct s as [[|p|p|p|p|p]|a]; simpl; auto. Qed.

Lemma queue_selecting_should_preempt (s : Scheduler) (h : Heap) (r : ref)
    (rq : list ref) (t : Q) :
  queue_selecting s ->
  queue_selecting (fst (Sched.should_preempt s h r rq t)).
Proof.
  destruct s as [[|p|p|p|p|p]|a]; simpl; try contradiction; auto.
  destruct (Priority.should_preempt p h r rq t); simpl; auto.
Qed.

Lemma queue_selecting_rotate (s : Scheduler) (h : Heap) (r : ref) :
  queue_selecting s -> Sched.rotate_queue_if_any s h r = s.
Proof. destruct s as [[|p|p|p|p|p]|a]; simpl; try contradiction; auto. Qed.

Lemma queue_selecting_reset (s : Scheduler) :
  queue_selecting s -> queue_selecting (Sched.reset s).
Proof. destruct s as [[|p|p|p|p|p]|a]; simpl; auto. Qed.

Lemma occupants_app (cs cs' : list CPU.CPUCore) :
  occupants (cs ++ cs') = occupants cs ++ occupants cs'.
Proof. unfold occupants. apply flat_map_app. Qed.

Lemma occupants_Permutation (cs cs' : list CPU.CPUCore) :
  Permutation cs cs' -> Permutation (occupants cs) (occupants cs').
Proof.
  induction 1 as [|c l l' _ IH|c c' l|l l' l'' _ IH1 _ IH2]; simpl.
  - reflexivity.
  - apply Permutation_app_head, IH.
  - rewrite !app_assoc. apply Permutation_app_tail, Permutation_app_comm.
  - etransitivity; eassumption.
Qed.

Lemma conserved_Permutation (procs : list ref) (n : nat) (sim : Sim.Simulator)
    (cs cs' : list CPU.CPUCore) :
  Permutation cs cs' -> conserved procs n sim cs -> conserved procs n sim cs'.
Proof.
  intros HP [H0 H1 H2 H3 H4 H5 H6].
  assert (Hpool : Permutation (pool sim cs) (pool sim cs')).
  { unfold pool. apply Permutation_app_head, Permutation_app_tail,
      occupants_Permutation, HP. }
  split.
  - exact H0.
  - exact (Permutation_NoDup Hpool H1).
  - intros r Hr. apply H2. apply (Permutation_in _ (Permutation_sym Hpool)), Hr.
  - exact H3.
  - exact H4.
  - intros c Hc. apply H5. apply (Permutation_in _ (Permutation_sym HP)), Hc.
  - exact H6.
Qed.

(** A step that moves processes between the three places, or drops some,
    without touching the process objects. *)
Lemma conserved_move (procs : list ref) (n : nat) (sim sim' : Sim.Simulator)
    (cs cs' : list CPU.CPUCore) (dropped : list ref) :
  conserved procs n sim cs ->
  Permutation (pool sim' cs' ++ dropped) (pool sim cs) ->
  Sim.all_processes sim' = Sim.all_processes sim ->
  Sim.completed_processes sim' = Sim.completed_processes sim ->
  Sim.heap sim' = Sim.heap sim ->
  (forall c, In c cs' -> CPU.is_idle c = true -> CPU.current_process c = None) ->
  (exists s, Sim.scheduler sim' = Some s /\ queue_selecting s) ->
  conserved procs n sim' cs'.
Proof.
  intros [H0 H1 H2 H3 H4 H5 H6] HP Hall Hcomp Hheap Hidle Hsched. split.
  - rewrite Hall. exact H0.
  - apply (Permutation_NoDup (Permutation_sym HP)) in H1.
    apply NoDup_app_remove_r in H1. exact H1.
  - intros r Hr. apply H2. apply (Permutation_in _ HP), in_or_app.
    left; exact Hr.
  - rewrite Hcomp, Hheap. exact H3.
  - rewrite Hcomp, Hheap. exact H4.
  - exact Hidle.
  - exact Hsched.
Qed.

Lemma the_scheduler_Some (sim : Sim.Simulator) (s : Scheduler) :
  Sim.scheduler sim = Some s -> Sim.the_scheduler sim = Ok s.
Proof. unfold Sim.the_scheduler. intros ->. reflexivity. Qed.

Lemma assign_one_conserved (procs : list ref) (n : nat) (sim : Sim.Simulator)
    (core : CPU.CPUCore) (others : list CPU.CPUCore) (sim' : Sim.Simulator)
    (core' : CPU.CPUCore) :
  conserved procs n sim (core :: others) ->
  Sim.assign_one sim core = Ok (sim', core') ->
  conserved procs n sim' (core' :: others).
Proof.
  intros Hc. unfold Sim.assign_one.
  destruct (CPU.is_idle core && _) eqn:Eidle;
    [|intros [= <- <-]; exact Hc].
  apply andb_true_iff in Eidle as [Eidle _].
  destruct (c_sched _ _ _ _ Hc) as (s & Hs & Hqs).
  rewrite (the_scheduler_Some _ _ Hs). cbv [mbind result_bind].
  destruct (Sched.select_process s (Sim.heap sim) core (Sim.ready_queue sim)
              (Sim.current_time sim)) as [[[s' q] sel]|e] eqn:Esel;
    [|discriminate].
  destruct (queue_selecting_select _ _ _ _ _ _ _ _ Hqs Esel)
    as (Hqs' & Hperm & Hsel).
  assert (Hocc : occupant core = []).
  { unfold occupant.
    rewrite (c_idle _ _ _ _ Hc core (or_introl eq_refl) Eidle). reflexivity. }
  cbn [Sim.ready_queue Sim.with_ready_queue Sim.with_scheduler Sim.heap
       Sim.current_time].
  destruct sel as [r|].
  - assert (Hin : In r q).
    { apply (Permutation_in _ (Permutation_sym Hperm)), Hsel. reflexivity. }
    rewrite (proj2 (py_in_In _ _) Hin).
    cbn [Sim.ready_queue Sim.with_ready_queue Sim.with_scheduler Sim.heap
         Sim.current_time Sim.total_context_switches].
    intros [= <- <-].
    apply (conserved_move procs n sim _ _ _ [] Hc).
    + rewrite app_nil_r. unfold pool.
      cbn [Sim.ready_queue Sim.with_context_switches Sim.with_ready_queue
           Sim.with_scheduler Sim.completed_processes occupants flat_map].
      fold (occupants others). rewrite Hocc.
      assert (Ho : occupant (CPU.assign_process core (Sim.heap sim) r
                               (Sim.current_time sim)) = [r])
        by reflexivity.
      rewrite Ho. cbn [app].
      etransitivity; [symmetry; apply Permutation_middle|].
      change (Permutation
                ((r :: py_remove r q)
                 ++ occupants others ++ Sim.completed_processes sim)
                (Sim.ready_queue sim
                 ++ occupants others ++ Sim.completed_processes sim)).
      apply Permutation_app_tail.
      etransitivity; [apply py_remove_Permutation, Hin | exact Hperm].
    + reflexivity.
    + reflexivity.
    + reflexivity.
    + intros c [<-|Hin'].
      * unfold CPU.is_idle, CPU.assign_process. simpl. discriminate.
      * apply (c_idle _ _ _ _ Hc). right; exact Hin'.
    + exists s'. split; [reflexivity | exact Hqs'].
  - intros [= <- <-].
    apply (conserved_move procs n sim _ _ _ [] Hc).
    + rewrite app_nil_r. unfold pool.
      cbn [Sim.ready_queue Sim.with_ready_queue Sim.with_scheduler
           Sim.completed_processes].
      apply Permutation_app_tail, Hperm.
    + reflexivity.
    + reflexivity.
    + reflexivity.
    + exact (c_idle _ _ _ _ Hc).
    + exists s'. split; [reflexivity | exact Hqs'].
Qed.

Lemma assign_loop_conserved (procs : list ref) (n : nat)
    (todo : list CPU.CPUCore) :
  forall (sim : Sim.Simulator) (done : list CPU.CPUCore)
         (sim' : Sim.Simulator) (cs : list CPU.CPUCore),
  conserved procs n sim (done ++ todo) ->
  Sim.assign_loop sim done todo = Ok (sim', cs) ->
  conserved procs n sim' cs.
Proof.
  induction todo as [|core rest IH]; intros sim done sim' cs Hc; simpl.
  { intros [= <- <-]. rewrite app_nil_r in Hc. exact Hc. }
  intros H. apply bind_Ok in H as ([sim1 core1] & E & H).
  apply (IH _ _ _ _) in H; [exact H|].
  apply (conserved_Permutation _ _ _ (core1 :: done ++ rest)).
  { rewrite <- app_assoc. simpl. apply Permutation_middle. }
  apply (assign_one_conserved _ _ sim core); [|exact E].
  apply (conserved_Permutation _ _ _ (done ++ core :: rest)); [|exact Hc].
  symmetry. apply Permutation_middle.
Qed.

Lemma NoDup_app_disjoint {A : Type} (l l' : list A) (x : A) :
  List.NoDup (l ++ l') -> In x l -> In x l' -> False.
Proof.
  induction l as [|y l IH]; simpl; [intros _ []|].
  intros Hnd [->|Hin] Hin'.
  - apply NoDup_cons_iff in Hnd as [Hn _]. apply Hn, in_or_app.
    right; exact Hin'.
  - apply NoDup_cons_iff in Hnd as [_ Hnd]. exact (IH Hnd Hin Hin').
Qed.

Lemma occupant_not_completed_list (procs : list ref) (n : nat)
    (sim : Sim.Simulator) (core : CPU.CPUCore) (others : list CPU.CPUCore)
    (r : ref) :
  conserved procs n sim (core :: others) ->
  CPU.current_process core = Some r ->
  ~ In r (Sim.completed_processes sim).
Proof.
  intros Hc Hr Hin. pose proof (c_nodup _ _ _ _ Hc) as Hnd.
  unfold pool in Hnd. apply NoDup_app_remove_l in Hnd.
  apply (NoDup_app_disjoint _ _ r Hnd); [|exact Hin].
  simpl. unfold occupant at 1. rewrite Hr. left; reflexivity.
Qed.

(** A step that executes the occupant [r] of [core]. *)
Lemma conserved_execute (procs : list ref) (n : nat) (sim sim' : Sim.Simulator)
    (core core' : CPU.CPUCore) (others : list CPU.CPUCore) (r : ref)
    (p' : Process) :
  conserved procs n sim (core :: others) ->
  CPU.current_process core = Some r ->
  Sim.all_processes sim' = Sim.all_processes sim ->
  Sim.heap sim' = upd (Sim.heap sim) r p' ->
  (CPU.is_idle core' = true -> CPU.current_process core' = None) ->
  (exists s, Sim.scheduler sim' = Some s /\ queue_selecting s) ->
  (is_completed p' = true /\
   Sim.completed_processes sim' = Sim.completed_processes sim ++ [r] /\
   Sim.ready_queue sim' = Sim.ready_queue sim /\
   CPU.current_process core' = None)
  \/ (is_completed p' = false /\
      Sim.completed_processes sim' = Sim.completed_processes sim /\
      Permutation (Sim.ready_queue sim' ++ occupant core')
                  (Sim.ready_queue sim ++ [r])) ->
  conserved procs n sim' (core' :: others).
Proof.
  intros Hc Hr Hall Hheap Hidle Hsched Hcases.
  pose proof (occupant_not_completed_list _ _ _ _ _ _ Hc Hr) as Hnot.
  assert (Hocc : occupant core = [r]) by (unfold occupant; rewrite Hr; reflexivity).
  assert (Hpool : Permutation (pool sim' (core' :: others))
                              (pool sim (core :: others))).
  { unfold pool. cbn [occupants flat_map]. fold (occupants others).
    rewrite Hocc.
    destruct Hcases as [(_ & Hcomp & Hrq & Hcur)|(_ & Hcomp & Hperm)].
    - rewrite Hcomp, Hrq. unfold occupant. rewrite Hcur. cbn [app].
      apply Permutation_app_head. rewrite app_assoc.
      apply (Permutation_app_comm
               (occupants others ++ Sim.completed_processes sim) [r]).
    - rewrite Hcomp. rewrite !app_assoc.
      apply Permutation_app_tail, Permutation_app_tail. exact Hperm. }
  assert (Hother : forall x, x <> r -> Sim.heap sim' x = Sim.heap sim x).
  { intros x Hx. rewrite Hheap.
    destruct (upd_cases (Sim.heap sim) r x p') as [[E _]|[_ E]];
      [contradiction | exact E]. }
  assert (Hself : Sim.heap sim' r = p') by (rewrite Hheap; apply upd_same).
  split.
  - rewrite Hall. exact (c_procs _ _ _ _ Hc).
  - exact (Permutation_NoDup (Permutation_sym Hpool) (c_nodup _ _ _ _ Hc)).
  - intros x Hx. apply (c_arrived _ _ _ _ Hc).
    exact (Permutation_in _ Hpool Hx).
  - intros x Hx.
    destruct Hcases as [(Hp & Hcomp & _)|(_ & Hcomp & _)]; rewrite Hcomp in Hx.
    + apply in_app_or in Hx as [Hx|[<-|[]]]; [|rewrite Hself; exact Hp].
      rewrite Hother by (intros ->; contradiction).
      exact (c_done _ _ _ _ Hc x Hx).
    + rewrite Hother by (intros ->; contradiction).
      exact (c_done _ _ _ _ Hc x Hx).
  - intros x Hx Hdone.
    destruct (Nat.eq_dec x r) as [->|Hne].
    + rewrite Hself in Hdone.
      destruct Hcases as [(_ & Hcomp & _)|(Hp & _)]; [|congruence].
      rewrite Hcomp. apply in_or_app. right; left; reflexivity.
    + rewrite (Hother x Hne) in Hdone.
      pose proof (c_all _ _ _ _ Hc x Hx Hdone) as Hin.
      destruct Hcases as [(_ & Hcomp & _)|(_ & Hcomp & _)]; rewrite Hcomp;
        [apply in_or_app; left|]; exact Hin.
  - intros c [<-|Hin]; [exact Hidle|].
    apply (c_idle _ _ _ _ Hc). right; exact Hin.
  - exact Hsched.
Qed.

Lemma execute_one_conserved (procs : list ref) (n : nat) (sim : Sim.Simulator)
    (tq : Time) (m : option Q) (core : CPU.CPUCore)
    (others : list CPU.CPUCore) (sim' : Sim.Simulator) (m' : option Q)
    (core' : CPU.CPUCore) :
  conserved procs n sim (core :: others) ->
  Sim.execute_one sim tq m core = Ok (sim', m', core') ->
  conserved procs n sim' (core' :: others).
Proof.
  intros Hc. unfold Sim.execute_one.
  destruct (CPU.is_idle core) eqn:Eidle; cbn [negb];
    [intros [= <- _ <-]; exact Hc|].
  unfold CPU.get_current_process.
  destruct (CPU.current_process core) as [r|] eqn:Ecur; [|discriminate].
  assert (Hbusy : CPU.is_busy core = true).
  { unfold CPU.is_idle in Eidle. rewrite Ecur in Eidle.
    destruct (CPU.is_busy core); [reflexivity | discriminate]. }
  destruct (c_sched _ _ _ _ Hc) as (s & Hs & Hqs).
  rewrite (the_scheduler_Some _ _ Hs). cbv [mbind result_bind].
  pose proof (queue_selecting_should_preempt s (Sim.heap sim) r
                (Sim.ready_queue sim) (Sim.current_time sim) Hqs) as Hqs1.
  destruct (Sched.should_preempt s (Sim.heap sim) r (Sim.ready_queue sim)
              (Sim.current_time sim)) as [s1 preempt].
  cbn [fst] in Hqs1.
  assert (Hocc : occupant core = [r])
    by (unfold occupant; rewrite Ecur; reflexivity).
  destruct preempt.
  - (* the policy asks for preemption *)
    unfold CPU.preempt_current_process. rewrite Ecur.
    cbn [Sim.heap Sim.with_scheduler Sim.ready_queue].
    destruct (negb (is_completed (Sim.heap sim r))); intros [= <- _ <-].
    + apply (conserved_move procs n sim _ _ _ [] Hc).
      * rewrite app_nil_r. unfold pool.
        cbn [Sim.ready_queue Sim.with_ready_queue Sim.with_scheduler
             Sim.completed_processes occupants flat_map occupant
             CPU.current_process].
        fold (occupants others). rewrite Hocc, <- app_assoc. reflexivity.
      * reflexivity.
      * reflexivity.
      * reflexivity.
      * intros c [<-|Hin]; [reflexivity|].
        apply (c_idle _ _ _ _ Hc). right; exact Hin.
      * exists s1. split; [reflexivity | exact Hqs1].
    + apply (conserved_move procs n sim _ _ _ [r] Hc).
      * unfold pool.
        cbn [Sim.ready_queue Sim.with_scheduler
             Sim.completed_processes occupants flat_map occupant
             CPU.current_process].
        fold (occupants others). rewrite Hocc. cbn [app].
        rewrite <- !app_assoc. apply Permutation_app_head.
        rewrite app_assoc.
        apply (Permutation_app_comm
                 (occupants others ++ Sim.completed_processes sim) [r]).
      * reflexivity.
      * reflexivity.
      * reflexivity.
      * intros c [<-|Hin]; [reflexivity|].
        apply (c_idle _ _ _ _ Hc). right; exact Hin.
      * exists s1. split; [reflexivity | exact Hqs1].
  - (* the occupant is executed *)
    unfold CPU.execute_current_process. rewrite Ecur.
    cbn [Sim.heap Sim.with_scheduler Sim.current_time].
    destruct (execute (Sim.heap sim r) tq (Sim.current_time sim)
                (CPU.core_id core)) as [p' a].
    cbn [Sim.heap Sim.with_heap]. rewrite upd_same.
    destruct (is_completed p') eqn:Edone.
    + intros [= <- _ <-].
      eapply (conserved_execute procs n sim _ core _ others r p' Hc Ecur).
      * reflexivity.
      * reflexivity.
      * reflexivity.
      * eexists. split; [reflexivity|].
        apply queue_selecting_completion, Hqs1.
      * left. split; [exact Edone|]. repeat split; reflexivity.
    + cbn [negb]. destruct (Sched.is_preemptive s1).
      * unfold CPU.preempt_current_process.
        cbn [CPU.current_process]. try rewrite Ecur.
        intros [= <- _ <-].
        eapply (conserved_execute procs n sim _ core _ others r p' Hc Ecur).
        -- reflexivity.
        -- reflexivity.
        -- reflexivity.
        -- eexists. split; [reflexivity|].
           rewrite (queue_selecting_rotate _ _ _ Hqs1). exact Hqs1.
        -- right. split; [exact Edone|]. split; [reflexivity|].
           cbn [Sim.ready_queue Sim.with_ready_queue Sim.with_scheduler
                Sim.with_heap occupant CPU.current_process].
           rewrite app_nil_r. reflexivity.
      * intros [= <- _ <-].
        eapply (conserved_execute procs n sim _ core _ others r p' Hc Ecur).
        -- reflexivity.
        -- reflexivity.
        -- unfold CPU.is_idle. cbn [CPU.is_busy CPU.current_process].
           rewrite Hbusy. try rewrite Ecur. discriminate.
        -- eexists. split; [reflexivity | exact Hqs1].
        -- right. split; [exact Edone|]. split; [reflexivity|].
           cbn [Sim.ready_queue Sim.with_heap Sim.with_scheduler occupant
                CPU.current_process].
           try rewrite Ecur. reflexivity.
Qed.

Lemma execute_loop_conserved (procs : list ref) (n : nat)
    (todo : list CPU.CPUCore) :
  forall (sim : Sim.Simulator) (tq : Time) (m : option Q)
         (done : list CPU.CPUCore) (sim' : Sim.Simulator) (m' : option Q)
         (cs : list CPU.CPUCore),
  conserved procs n sim (done ++ todo) ->
  Sim.execute_loop sim tq m done todo = Ok (sim', m', cs) ->
  conserved procs n sim' cs.
Proof.
  induction todo as [|core rest IH]; intros sim tq m done sim' m' cs Hc; simpl.
  { intros [= <- _ <-]. rewrite app_nil_r in Hc. exact Hc. }
  intros H. apply bind_Ok in H as ([[sim1 m1] core1] & E & H).
  apply (IH _ _ _ _ _ _ _) in H; [exact H|].
  apply (conserved_Permutation _ _ _ (core1 :: done ++ rest)).
  { rewrite <- app_assoc. simpl. apply Permutation_middle. }
  apply (execute_one_conserved _ _ sim tq m core _ _ m1); [|exact E].
  apply (conserved_Permutation _ _ _ (done ++ core :: rest)); [|exact Hc].
  symmetry. apply Permutation_middle.
Qed.

Lemma conserved_with_cores (procs : list ref) (n : nat) (sim : Sim.Simulator)
    (cs : list CPU.CPUCore) :
  conserved procs n sim cs -> conserved procs n (Sim.with_cores cs sim) cs.
Proof. intros [H0 H1 H2 H3 H4 H5 H6]. split; assumption. Qed.

Lemma conserved_with_time (procs : list ref) (n : nat) (sim : Sim.Simulator)
    (cs : list CPU.CPUCore) (t : Q) :
  conserved procs n sim cs ->
  conserved procs n (Sim.with_current_time t sim) cs.
Proof. intros [H0 H1 H2 H3 H4 H5 H6]. split; assumption. Qed.

Lemma assign_processes_conserved (procs : list ref) (n : nat)
    (sim sim' : Sim.Simulator) :
  conserved procs n sim (Sim.cores sim) ->
  Sim._assign_processes_to_cores sim = Ok sim' ->
  conserved procs n sim' (Sim.cores sim').
Proof.
  intros Hc. unfold Sim._assign_processes_to_cores. intros H.
  apply bind_Ok in H as ([sim1 cs] & E & H). injection H as <-.
  apply conserved_with_cores.
  exact (assign_loop_conserved _ _ _ _ [] _ _ Hc E).
Qed.

Lemma execute_all_cores_conserved (procs : list ref) (n : nat)
    (sim sim' : Sim.Simulator) (slice : Q) :
  conserved procs n sim (Sim.cores sim) ->
  Sim._execute_all_cores sim = Ok (sim', slice) ->
  conserved procs n sim' (Sim.cores sim').
Proof.
  intros Hc. unfold Sim._execute_all_cores. intros H.
  apply bind_Ok in H as (s & _ & H).
  apply bind_Ok in H as ([[sim1 m] cs] & E & H). injection H as <- _.
  apply conserved_with_cores.
  exact (execute_loop_conserved _ _ _ _ _ _ [] _ _ _ Hc E).
Qed.

Lemma add_arrivals_sched (pending : list ref) :
  forall (sim : Sim.Simulator) (n : nat) (sim' : Sim.Simulator) (n' : nat),
  (exists s, Sim.scheduler sim = Some s /\ queue_selecting s) ->
  Sim.add_arrivals sim n pending = Ok (sim', n') ->
  exists s, Sim.scheduler sim' = Some s /\ queue_selecting s.
Proof.
  induction pending as [|p rest IH]; intros sim n sim' n' Hs; simpl.
  { intros [= <- _]. exact Hs. }
  destruct (Qle_bool _ _); [|intros [= <- _]; exact Hs].
  intros H. apply bind_Ok in H as (s & Es & H).
  apply IH in H; [exact H|].
  destruct Hs as (s0 & Hs0 & Hq).
  unfold Sim.the_scheduler in Es.
  cbn [Sim.scheduler Sim.with_ready_queue Sim.with_heap] in Es.
  rewrite Hs0 in Es. injection Es as <-.
  eexists. split; [reflexivity|]. apply queue_selecting_arrival, Hq.
Qed.

Lemma take_drop_disjoint (procs : list ref) (n k : nat) (x : ref) :
  List.NoDup procs -> In x (take n procs) -> In x (take k (drop n procs)) ->
  False.
Proof.
  intros Hnd H1 H2. rewrite <- (take_drop n procs) in Hnd.
  apply (NoDup_app_disjoint _ _ x Hnd H1).
  apply list_elem_of_In. apply list_elem_of_In in H2.
  exact (subseteq_take k (drop n procs) x H2).
Qed.

Lemma add_arrivals_conserved (procs : list ref) (n : nat)
    (sim sim' : Sim.Simulator) (n' : nat) (cs : list CPU.CPUCore) :
  List.NoDup procs ->
  conserved procs n sim cs ->
  Sim.add_arrivals sim n (drop n procs) = Ok (sim', n') ->
  conserved procs n' sim' cs /\ Sim.cores sim' = Sim.cores sim.
Proof.
  intros Hnd Hc H.
  pose proof (add_arrivals_sched _ _ _ _ _ (c_sched _ _ _ _ Hc) H) as Hsched.
  apply add_arrivals_prefix in H
    as (k & -> & Hrq & _ & Hall & Hcomp & Hcores & _ & Hin & Hout & _).
  split; [|exact Hcores].
  set (new := take k (drop n procs)) in *.
  assert (Hpool : Permutation (pool sim' cs) (new ++ pool sim cs)).
  { unfold pool. rewrite Hrq, Hcomp, !app_assoc.
    apply Permutation_app_tail, Permutation_app_tail, Permutation_app_comm. }
  assert (Hnew : forall x, In x new -> ~ In x (pool sim cs)).
  { intros x Hx Hp. apply (c_arrived _ _ _ _ Hc) in Hp.
    exact (take_drop_disjoint procs n k x Hnd Hp Hx). }
  assert (Hcomp_old : forall x, In x (Sim.completed_processes sim) ->
                                ~ In x new).
  { intros x Hx Hn. apply (Hnew x Hn). unfold pool.
    apply in_or_app; right. apply in_or_app; right. exact Hx. }
  split.
  - rewrite Hall. exact (c_procs _ _ _ _ Hc).
  - apply (Permutation_NoDup (Permutation_sym Hpool)).
    apply List.NoDup_app.
    + assert (Hn2 : List.NoDup (take n procs ++ drop n procs))
        by (rewrite take_drop; exact Hnd).
      apply NoDup_app_remove_l in Hn2.
      rewrite <- (take_drop k (drop n procs)) in Hn2.
      apply NoDup_app_remove_r in Hn2. exact Hn2.
    + exact (c_nodup _ _ _ _ Hc).
    + exact Hnew.
  - intros x Hx. apply (Permutation_in _ Hpool) in Hx.
    rewrite <- take_take_drop. apply in_or_app.
    apply in_app_or in Hx as [Hx|Hx]; [right; exact Hx|].
    left. exact (c_arrived _ _ _ _ Hc x Hx).
  - intros x Hx. rewrite Hcomp in Hx.
    rewrite (Hout x (Hcomp_old x Hx)). exact (c_done _ _ _ _ Hc x Hx).
  - intros x Hx Hdone. rewrite Hcomp.
    destruct (in_dec Nat.eq_dec x new) as [Hn|Hn].
    + destruct (Hin x Hn) as [_ Hst].
      apply is_completed_state in Hdone. congruence.
    + rewrite (Hout x Hn) in Hdone. exact (c_all _ _ _ _ Hc x Hx Hdone).
  - exact (c_idle _ _ _ _ Hc).
  - exact Hsched.
Qed.

Lemma iteration_conserved (procs : list ref) (n : nat) (sim : Sim.Simulator)
    (max_time : option Q) (sim' : Sim.Simulator) (next : option nat) :
  List.NoDup procs ->
  conserved procs n sim (Sim.cores sim) ->
  Sim.iteration sim n max_time = Ok (sim', next) ->
  exists n', (forall k, next = Some k -> k = n') /\
             conserved procs n' sim' (Sim.cores sim').
Proof.
  intros Hnd Hc. unfold Sim.iteration.
  destruct (match max_time with Some m => _ | None => false end).
  { intros [= <- <-]. exists n. split; [discriminate | exact Hc]. }
  destruct (Nat.leb _ _).
  { intros [= <- <-]. exists n. split; [discriminate | exact Hc]. }
  intros H. apply bind_Ok in H as ([sim1 n1] & E1 & H).
  cbv beta iota zeta in H.
  rewrite (c_procs _ _ _ _ Hc) in E1.
  apply (add_arrivals_conserved _ _ _ _ _ _ Hnd Hc) in E1 as [Hc1 Hcores].
  rewrite <- Hcores in Hc1.
  apply bind_Ok in H as (sim2 & E2 & H).
  apply (assign_processes_conserved _ _ _ _ Hc1) in E2.
  apply bind_Ok in H as ([sim3 slice] & E3 & H). cbv beta iota zeta in H.
  apply (execute_all_cores_conserved _ _ _ _ _ E2) in E3.
  exists n1. destruct (Qltb 0 slice).
  - injection H as <- <-. split; [intros k [= <-]; reflexivity|].
    apply conserved_with_time, E3.
  - destruct (Sim.all_processes sim3 !! n1).
    + injection H as <- <-. split; [intros k [= <-]; reflexivity|].
      apply conserved_with_time, E3.
    + injection H as <- <-. split; [discriminate | exact E3].
Qed.

Lemma main_loop_conserved (procs : list ref) (fuel : nat) :
  forall (sim : Sim.Simulator) (n : nat) (max_time : option Q)
         (final : Sim.Simulator),
  List.NoDup procs ->
  conserved procs n sim (Sim.cores sim) ->
  Sim.main_loop fuel sim n max_time = Sim.Finished final ->
  exists n', conserved procs n' final (Sim.cores final).
Proof.
  induction fuel as [|fuel IH]; intros sim n max_time final Hnd Hc; simpl;
    [discriminate|].
  destruct (Sim.iteration sim n max_time) as [[sim1 next]|e] eqn:E;
    [|discriminate].
  destruct (iteration_conserved _ _ _ _ _ _ Hnd Hc E) as (n' & Hn' & Hc').
  destruct next as [k|].
  - rewrite (Hn' k eq_refl). intros H. exact (IH _ _ _ _ Hnd Hc' H).
  - intros [= <-]. exists n'. exact Hc'.
Qed.

Lemma occupants_reset (cs : list CPU.CPUCore) :
  occupants (map CPU.reset cs) = [].
Proof. induction cs as [|c cs IH]; simpl; [reflexivity | exact IH]. Qed.

Lemma conserved_initial (sim : Sim.Simulator) (s : Scheduler) :
  Sim.scheduler sim = Some s -> queue_selecting s ->
  let start := Sim.sort_by_arrival (Sim._reset_simulation sim) in
  conserved (Sim.all_processes start) 0 start (Sim.cores start).
Proof.
  intros Hs Hq start. subst start.
  unfold Sim.sort_by_arrival, Sim._reset_simulation.
  cbn [Sim.all_processes Sim.heap Sim.with_all_processes Sim.cores].
  set (procs := sort_by le_Q _ (Sim.all_processes sim)).
  assert (Hpool : pool (Sim.with_all_processes procs
                          (Sim.mk (Sim.num_cores sim)
                             (map CPU.reset (Sim.cores sim))
                             (Sim.all_processes sim) [] []
                             (option_map Sched.reset (Sim.scheduler sim)) 0 0
                             (Sim.metrics sim)
                             (Sim.reset_processes (Sim.heap sim)
                                (Sim.all_processes sim))))
                       (map CPU.reset (Sim.cores sim)) = []).
  { unfold pool. cbn [Sim.ready_queue Sim.completed_processes
                      Sim.with_all_processes].
    rewrite occupants_reset. reflexivity. }
  split.
  - reflexivity.
  - rewrite Hpool. constructor.
  - rewrite Hpool. intros r [].
  - intros r [].
  - cbn [Sim.heap Sim.with_all_processes Sim.completed_processes].
    intros r Hr Hdone. exfalso.
    unfold procs in Hr. apply sort_by_In in Hr.
    rewrite (reset_processes_In _ _ _ Hr) in Hdone. discriminate.
  - intros c Hc _. apply in_map_iff in Hc as (c0 & <- & _). reflexivity.
  - cbn [Sim.scheduler Sim.with_all_processes]. rewrite Hs. simpl.
    eexists. split; [reflexivity|]. apply queue_selecting_reset, Hq.
Qed.

(** X28. Conservation under the policies that select from the ready
    queue (FCFS, SJF, Priority, Load Balancing).  If no process object is
    submitted twice, then when [run_simulation] returns no process is held
    twice among the ready queue, the cores and the completed list; the
    completed list has no duplicates and holds exactly the submitted
    processes that are TERMINATED (it is a permutation of the list the
    metrics are computed from), so it is never longer than the list of
    submitted processes. *)
Theorem queue_selecting_run_conserves (fuel : nat) (sim : Sim.Simulator)
    (max_time : option Q) (s0 : Scheduler) (sim' : Sim.Simulator)
    (m : Metrics.PerformanceMetrics) :
  Sim.scheduler sim = Some s0 -> queue_selecting s0 ->
  List.NoDup (Sim.all_processes sim) ->
  Sim.run_simulation fuel sim max_time = Sim.Returns sim' m ->
  List.NoDup (Sim.ready_queue sim' ++ occupants (Sim.cores sim')
              ++ Sim.completed_processes sim') /\
  List.NoDup (Sim.completed_processes sim') /\
  Permutation (Sim.completed_processes sim')
    (List.filter (fun p => is_completed (Sim.heap sim' p))
       (Sim.all_processes sim')) /\
  (forall r, In r (Sim.completed_processes sim') ->
     In r (Sim.all_processes sim)) /\
  (length (Sim.completed_processes sim')
   <= length (Sim.all_processes sim))%nat.
Proof.
  intros Hs Hq Hnd H.
  apply run_simulation_Returns_inv in H as (final & Hloop & -> & _).
  pose proof (conserved_initial sim s0 Hs Hq) as Hc0. cbv zeta in Hc0.
  set (start := Sim.sort_by_arrival (Sim._reset_simulation sim)) in *.
  assert (HP : Permutation (Sim.all_processes start) (Sim.all_processes sim)).
  { unfold start, Sim.sort_by_arrival.
    cbn [Sim.all_processes Sim.with_all_processes Sim._reset_simulation].
    apply sort_by_Permutation. }
  assert (Hnd' : List.NoDup (Sim.all_processes start)).
  { exact (Permutation_NoDup (Permutation_sym HP) Hnd). }
  destruct (main_loop_conserved _ _ _ _ _ _ Hnd' Hc0 Hloop) as (n' & Hc).
  cbn [Sim.final_metrics Sim.with_metrics Sim.ready_queue Sim.cores
       Sim.completed_processes Sim.all_processes Sim.heap].
  pose proof (c_nodup _ _ _ _ Hc) as Hpool. unfold pool in Hpool.
  assert (Hcomp : List.NoDup (Sim.completed_processes final)).
  { apply NoDup_app_remove_l in Hpool. apply NoDup_app_remove_l in Hpool.
    exact Hpool. }
  assert (Hsub : forall r, In r (Sim.completed_processes final) ->
                           In r (Sim.all_processes start)).
  { intros r Hr.
    assert (Hin : In r (take n' (Sim.all_processes start))).
    { apply (c_arrived _ _ _ _ Hc). unfold pool.
      apply in_or_app; right. apply in_or_app; right. exact Hr. }
    apply list_elem_of_In.
    exact (subseteq_take n' _ r (proj2 (list_elem_of_In _ _) Hin)). }
  assert (Hperm : Permutation (Sim.completed_processes final)
                    (List.filter (fun p => is_completed (Sim.heap final p))
                       (Sim.all_processes final))).
  { apply Permutation.NoDup_Permutation; [exact Hcomp| |].
    - apply List.NoDup_filter. rewrite (c_procs _ _ _ _ Hc). exact Hnd'.
    - intros x. rewrite filter_In, (c_procs _ _ _ _ Hc). split.
      + intros Hx. split; [exact (Hsub x Hx) | exact (c_done _ _ _ _ Hc x Hx)].
      + intros [Hx Hdone]. exact (c_all _ _ _ _ Hc x Hx Hdone). }
  split; [exact Hpool|]. split; [exact Hcomp|]. split; [exact Hperm|].
  split.
  - intros r Hr. exact (Permutation_in _ HP (Hsub r Hr)).
  - rewrite <- (Permutation_length HP).
    apply NoDup_incl_length; [exact Hcomp|]. intros r Hr. exact (Hsub r Hr).
Qed.

Lemma queue_selecting_run_conserves_witness :
  let sim := Examples.simulator 1 (Examples.two_jobs 3 5)
               (Basic FCFSScheduler) [0%nat; 1%nat] in
  Sim.scheduler sim = Some (Basic FCFSScheduler) /\
  queue_selecting (Basic FCFSScheduler) /\
  List.NoDup (Sim.all_processes sim) /\
  exists sim' m,
    Sim.run_simulation 5 sim None = Sim.Returns sim' m /\
    List.NoDup (Sim.ready_queue sim' ++ occupants (Sim.cores sim')
                ++ Sim.completed_processes sim') /\
    List.NoDup (Sim.completed_processes sim') /\
    Permutation (Sim.completed_processes sim')
      (List.filter (fun p => is_completed (Sim.heap sim' p))
         (Sim.all_processes sim')) /\
    (forall r, In r (Sim.completed_processes sim') ->
       In r (Sim.all_processes sim)) /\
    (length (Sim.completed_processes sim')
     <= length (Sim.all_processes sim))%nat.
Proof.
  intros sim.
  assert (H1 : Sim.scheduler sim = Some (Basic FCFSScheduler)) by reflexivity.
  assert (H2 : queue_selecting (Basic FCFSScheduler)) by exact I.
  assert (H3 : List.NoDup (Sim.all_processes sim)).
  { simpl. constructor; [intros [H|[]]; discriminate|].
    constructor; [intros []|constructor]. }
  split; [exact H1|]. split; [exact H2|]. split; [exact H3|].
  destruct (Sim.run_simulation 5 sim None) as [sim' m| | |] eqn:E;
    [|vm_compute in E; discriminate..].
  exists sim', m. split; [reflexivity|].
  exact (queue_selecting_run_conserves 5 sim None _ sim' m H1 H2 H3 E).
Defined.
